(** * kartothek.core.common_metadata: schema reconciliation

    A shallow embedding of [src/kartothek/core/common_metadata.py]: the
    schema wrapper, the normalisers of types and of the column order,
    [make_meta], the (de)serialisation of schemas and the key they have in
    a store, the null-column reference resolver and the two validators,
    followed by the properties established about them.

    pyarrow values are modelled as plain data: a schema is its field list
    and its key/value metadata, the [b"pandas"] entry being kept in parsed
    form.  Python exceptions are values of [Exn]; a call either returns
    ([Ok]) or raises ([Raise]).  Python sets of column names and of origin
    labels are [gset string]; the order in which a loop visits such a set
    is a parameter of the development ([set_iter]).

    The pyarrow functions the module calls are modelled after pyarrow's
    behaviour: [get_field_index] gives [-1] for a name that no field or
    more than one field has, [field_by_name] gives [None] in the same
    cases, [schema[i]] follows Python indexing (so [schema[-1]] is the last
    field), [remove] needs an index in range, and [set] unwraps its field
    before it looks at the index, so it fails with an [AttributeError] for
    [None], and takes an index equal to the number of fields as an append.
    The parquet writer behind [_schema2bytes] is a parameter constrained
    by what every footer records; a footer is modelled by the fields and
    the metadata it holds, and reading it back is a function of those. *)

From Stdlib Require Import ZArith Lia.
From stdpp Require Import base option list sets gmap strings pretty sorting.

Set Warnings "-clear-no-such-hyp".

Local Open Scope Z_scope.
Local Open Scope string_scope.
Local Open Scope list_scope.

(** ** pyarrow data types, fields and schemas *)

Inductive TimeUnit := unit_s | unit_ms | unit_us | unit_ns.

(** The pyarrow types a table schema of this library carries.  [timestamp]
    has pyarrow's two parameters, the resolution and the optional time zone
    ([pa.timestamp("us")] is [timestamp unit_us None]). *)
Inductive DataType :=
| null
| bool_
| int8 | int16 | int32 | int64
| uint8 | uint16 | uint32 | uint64
| float16 | float32 | float64
| string_
| binary
| date32
| date64
| timestamp (unit : TimeUnit) (tz : option string)
| list_ (value_type : DataType)
| dictionary (index_type value_type : DataType) (ordered : bool).

Record Field := mkField {
  name : string;
  type : DataType;
  nullable : bool
}.

(** [pa.field(name, type)]: nullable unless said otherwise. *)
Definition field (n : string) (t : DataType) : Field :=
  {| name := n; type := t; nullable := true |}.

(** An entry of [pandas_metadata["index_columns"]]: a field name, or the
    descriptor dict of a range index ([isinstance(col, dict)]). *)
Inductive IndexColumn :=
| IndexName (n : string)
| IndexDict (descr : string).

(** An entry of [pandas_metadata["columns"]]. *)
Record ColumnMetadata := mkColumn {
  c_name : option string;
  field_name : string;
  pandas_type : option string;
  numpy_type : option string;
  c_metadata : option string
}.

Record PandasMetadata := mkPandas {
  index_columns : list IndexColumn;
  columns : list ColumnMetadata;
  pandas_version : string
}.

(** The schema-level metadata dict: the parsed [b"pandas"] entry, if the key
    is there, and the remaining byte entries. *)
Record KeyValueMetadata := mkMetadata {
  pandas : option PandasMetadata;
  other_keys : list (string * string)
}.

Record Schema := mkSchema {
  fields : list Field;
  metadata : option KeyValueMetadata
}.

#[global] Instance TimeUnit_eq_dec : EqDecision TimeUnit.
Proof. solve_decision. Defined.
#[global] Instance DataType_eq_dec : EqDecision DataType.
Proof. solve_decision. Defined.
#[global] Instance Field_eq_dec : EqDecision Field.
Proof. solve_decision. Defined.
#[global] Instance IndexColumn_eq_dec : EqDecision IndexColumn.
Proof. solve_decision. Defined.
#[global] Instance ColumnMetadata_eq_dec : EqDecision ColumnMetadata.
Proof. solve_decision. Defined.
#[global] Instance PandasMetadata_eq_dec : EqDecision PandasMetadata.
Proof. solve_decision. Defined.
#[global] Instance KeyValueMetadata_eq_dec : EqDecision KeyValueMetadata.
Proof. solve_decision. Defined.
#[global] Instance Schema_eq_dec : EqDecision Schema.
Proof. solve_decision. Defined.

(** ** Exceptions *)

(** The [ValueError]s raised in the module, told apart by their message. *)
Inductive Message :=
| PandasNonPandas
    (* "Pandas and non-Pandas schemas are not comparable. ..." *)
| SchemaViolation (origin_schema origin_reference schema_diff reference : string)
    (* "Schema violation\n\nOrigin schema: ...\nOrigin reference: ...\n\nDiff: ..." *)
| UnpackError
    (* "not enough values to unpack" / "too many values to unpack" *)
| IncompatibleEntries (col : string) (ref obj : Field * string)
    (* 'Found incompatible entries for column "..."' *).

Inductive Exn :=
| ValueError (m : Message)
| TypeError
| KeyError
| IndexError
| AttributeError
| AssertionError
| NotImplementedError
| ArrowInvalid.

Inductive Result (A : Type) :=
| Ok (a : A)
| Raise (e : Exn).
Arguments Ok {A} a.
Arguments Raise {A} e.

#[global] Instance Result_ret : MRet Result := @Ok.
#[global] Instance Result_bind : MBind Result := fun A B k m =>
  match m with
  | Ok a => k a
  | Raise e => Raise e
  end.

Definition is_raise {A} (r : Result A) : bool :=
  match r with Ok _ => false | Raise _ => true end.

(** ** pyarrow's schema operations *)

Definition names (s : Schema) : list string := name <$> fields s.

(** Positions of the fields called [n]. *)
Fixpoint field_indices (n : string) (i : Z) (fs : list Field) : list Z :=
  match fs with
  | [] => []
  | f :: fs' =>
      if decide (name f = n) then i :: field_indices n (i + 1) fs'
      else field_indices n (i + 1) fs'
  end.

(** [Schema.get_field_index]: the position of the field of that name, [-1]
    when there is none or more than one. *)
Definition get_field_index (s : Schema) (n : string) : Z :=
  match field_indices n 0 (fields s) with
  | [i] => i
  | _ => -1
  end.

(** [Schema.field_by_name]: [None] when no field or more than one field has
    the name. *)
Definition field_by_name (s : Schema) (n : string) : option Field :=
  match filter (λ f, name f = n) (fields s) with
  | [f] => Some f
  | _ => None
  end.

(** [schema[i]]: Python indexing, a negative index counts from the end. *)
Definition getitem (s : Schema) (i : Z) : Result Field :=
  let n := Z.of_nat (length (fields s)) in
  let j := if decide (i < 0) then i + n else i in
  if decide (0 <= j < n) then
    match fields s !! Z.to_nat j with
    | Some f => Ok f
    | None => Raise IndexError
    end
  else Raise IndexError.

(** [Schema.set(i, field)].  The field is unwrapped first ([field.sp_field]),
    so [None] gives an [AttributeError] whatever the index; then the field
    at [i] is replaced, an index equal to the number of fields adds the
    field at the end, and any other index is refused. *)
Definition schema_set (s : Schema) (i : Z) (f : option Field) : Result Schema :=
  match f with
  | None => Raise AttributeError
  | Some f =>
      if decide (0 <= i < Z.of_nat (length (fields s))) then
        Ok {| fields := <[Z.to_nat i := f]> (fields s); metadata := metadata s |}
      else if decide (i = Z.of_nat (length (fields s))) then
        Ok {| fields := fields s ++ [f]; metadata := metadata s |}
      else Raise ArrowInvalid
  end.

(** [Schema.remove(i)]; the index must be in range. *)
Definition schema_remove (s : Schema) (i : Z) : Result Schema :=
  if decide (0 <= i < Z.of_nat (length (fields s))) then
    Ok {| fields := delete (Z.to_nat i) (fields s); metadata := metadata s |}
  else Raise ArrowInvalid.

Definition schema_append (s : Schema) (f : Field) : Schema :=
  {| fields := fields s ++ [f]; metadata := metadata s |}.

Definition schema_remove_metadata (s : Schema) : Schema :=
  {| fields := fields s; metadata := None |}.

(** [Schema.add_metadata({b"pandas": ...})]: the entry is added to, or
    replaces the one of, the existing dict. *)
Definition schema_add_pandas (s : Schema) (pm : PandasMetadata) : Schema :=
  {| fields := fields s;
     metadata := Some {| pandas := Some pm;
                         other_keys := from_option other_keys [] (metadata s) |} |}.

(** [Schema.equals(other, check_metadata)]: same fields in the same order,
    and the same metadata when asked. *)
Definition schema_equals (a b : Schema) (check_metadata : bool) : bool :=
  bool_decide (fields a = fields b)
  && (negb check_metadata || bool_decide (metadata a = metadata b)).

(** Truth value of [schema.metadata and b"pandas" in schema.metadata]. *)
Definition has_pandas_key (s : Schema) : bool :=
  match metadata s with
  | Some md => bool_decide (is_Some (pandas md))
  | None => false
  end.

(** ** The library's environment *)

Section Kartothek.

Set Default Proof Using "Type".

(** [kartothek.core._compat] (version switches of the installed pyarrow)
    and [pd.__version__]. *)
Variable ARROW_LARGER_EQ_0130 : bool.
Variable ARROW_LARGER_EQ_0141 : bool.
Variable pd_version : string.

(** A loop over a Python set visits every element once, in an order the
    language leaves open: [set_iter s] is the sequence in which [s] is
    visited. *)
Variable set_iter : gset string → list string.
Hypothesis set_iter_elements : ∀ s, set_iter s ≡ₚ elements s.

(** Subscripting the parsed pandas metadata, which is [None] when the schema
    has none. *)
Definition subscript (pm : option PandasMetadata) : Result PandasMetadata :=
  match pm with
  | Some pm => Ok pm
  | None => Raise TypeError
  end.

Definition _pandas_meta_from_schema (schema : Schema) : Result (option PandasMetadata) :=
  if ARROW_LARGER_EQ_0130 then
    (* schema.pandas_metadata *)
    Ok (metadata schema ≫= pandas)
  else
    (* load_json(schema.metadata[b"pandas"].decode("utf8")) *)
    match metadata schema with
    | None => Raise TypeError
    | Some md =>
        match pandas md with
        | None => Raise KeyError
        | Some pm => Ok (Some pm)
        end
    end.

(** ** SchemaWrapper *)

Record SchemaWrapper := mkWrapper {
  internal : Schema;
  origin : gset string
}.

(** One round of the loop over [enumerate(index_cols)] in [_schema_compat]. *)
Definition compat_step (ix : nat) (col : IndexColumn)
    (st : Schema * PandasMetadata) : Result (Schema * PandasMetadata) :=
  let '(schema, pandas_metadata) := st in
  if ARROW_LARGER_EQ_0130 then
    match col with
    | IndexDict _ => Ok (schema, pandas_metadata)
    | IndexName col =>
        let index_level_ix := get_field_index schema col in
        if decide (index_level_ix >= 0) then
          schema ← schema_remove schema index_level_ix;
          Ok (schema, pandas_metadata)
        else Ok (schema, pandas_metadata)
    end
  else
    match col with
    | IndexDict _ =>
        let index_name := "__index_level_" +:+ pretty ix +:+ "__" in
        let schema := schema_append schema (mkField "index_name" int64 false) in
        Ok (schema,
            {| index_columns := <[ix := IndexName index_name]> (index_columns pandas_metadata);
               columns := columns pandas_metadata ++
                 [ {| c_name := Some index_name;
                      field_name := index_name;
                      pandas_type := Some "int64";
                      numpy_type := Some "int64";
                      c_metadata := None |} ];
               pandas_version := pandas_version pandas_metadata |})
    | IndexName _ => Ok (schema, pandas_metadata)
    end.

Fixpoint compat_loop (ix : nat) (index_cols : list IndexColumn)
    (st : Schema * PandasMetadata) : Result (Schema * PandasMetadata) :=
  match index_cols with
  | [] => Ok st
  | col :: rest =>
      st ← compat_step ix col st;
      compat_loop (S ix) rest st
  end.

Definition _schema_compat (schema0 : Schema) : Result Schema :=
  match metadata schema0 with
  | None => Ok schema0
  | Some _ =>
      pandas_metadata ← _pandas_meta_from_schema schema0;
      pandas_metadata ← subscript pandas_metadata;
      let index_cols := index_columns pandas_metadata in
      if decide (1 < length index_cols)%nat then Raise NotImplementedError
      else
        '(schema, pandas_metadata) ← compat_loop 0 index_cols (schema0, pandas_metadata);
        Ok (schema_add_pandas (schema_remove_metadata schema) pandas_metadata)
  end.

(** [SchemaWrapper(schema, origin)]. *)
Definition SchemaWrapper_init (schema : Schema) (origin : gset string)
    : Result SchemaWrapper :=
  schema ← _schema_compat schema;
  Ok {| internal := schema; origin := origin |}.

Definition with_origin (self : SchemaWrapper) (origin : gset string)
    : Result SchemaWrapper :=
  SchemaWrapper_init (internal self) origin.

Definition equals (self other : SchemaWrapper) (check_metadata : bool) : bool :=
  schema_equals (internal self) (internal other) check_metadata.

(** [__ne__]: [not self.equals(other)]. *)
Definition ne (self other : SchemaWrapper) : bool :=
  negb (equals self other false).

Definition remove (self : SchemaWrapper) (i : Z) : Result SchemaWrapper :=
  schema ← schema_remove (internal self) i;
  SchemaWrapper_init schema (origin self).

Definition remove_metadata (self : SchemaWrapper) : Result SchemaWrapper :=
  SchemaWrapper_init (schema_remove_metadata (internal self))
    (set_map (λ s, s +:+ "__no_metadata") (origin self)).

Definition set (self : SchemaWrapper) (i : Z) (f : option Field)
    : Result SchemaWrapper :=
  schema ← schema_set (internal self) i f;
  SchemaWrapper_init schema (origin self).

(** What the validators are handed: a [SchemaWrapper] or a bare
    [pyarrow.Schema]; attribute access on a wrapper goes to the wrapped
    schema ([__getattr__], [__getitem__]). *)
Inductive SchemaLike :=
| Wrapped (w : SchemaWrapper)
| Bare (s : Schema).

Definition pa_schema (s : SchemaLike) : Schema :=
  match s with
  | Wrapped w => internal w
  | Bare s => s
  end.

(** ** normalize_type *)

Definition is_signed_integer (t : DataType) : bool :=
  match t with int8 | int16 | int32 | int64 => true | _ => false end.
Definition is_unsigned_integer (t : DataType) : bool :=
  match t with uint8 | uint16 | uint32 | uint64 => true | _ => false end.
Definition is_floating (t : DataType) : bool :=
  match t with float16 | float32 | float64 => true | _ => false end.

(** [t_pd[len("list["):-1]]; [t_pd] may be [None], which has no slices. *)
Definition slice_list_tag (t_pd : option string) : Result (option string) :=
  match t_pd with
  | None => Raise TypeError
  | Some s => Ok (Some (String.substring 5 (String.length s - 1 - 5) s))
  end.

(** ["{}".format(x)] for a string or [None]. *)
Definition format (x : option string) : string := default "None" x.

Definition TypeTuple : Type :=
  DataType * option string * option string * option string.

Fixpoint normalize_type (t_pa : DataType) (t_pd t_np : option string)
    (metadata : option string) : Result TypeTuple :=
  if is_signed_integer t_pa then Ok (int64, Some "int64", Some "int64", None)
  else if is_unsigned_integer t_pa then Ok (uint64, Some "uint64", Some "uint64", None)
  else if is_floating t_pa then Ok (float64, Some "float64", Some "float64", None)
  else
    match t_pa with
    | list_ value_type =>
        t_pd_inner ← slice_list_tag t_pd;
        '(t_pa2, t_pd2, t_np2, metadata2) ← normalize_type value_type t_pd_inner None None;
        Ok (list_ t_pa2, Some ("list[" +:+ (format t_pd2 +:+ "]")), Some "object", None)
    | dictionary _ value_type _ =>
        if ARROW_LARGER_EQ_0141 then
          normalize_type value_type t_np t_np None
        else
          (* t_pa.dictionary.type: the type of the dictionary's values *)
          normalize_type value_type t_np t_np None
    | _ => Ok (t_pa, t_pd, t_np, metadata)
    end.

(** ** Serialisation *)

(** The bytes of a parquet footer are modelled by what the footer holds:
    the field list as stored and the key/value metadata. *)
Record Bytes := mkBytes {
  stored_fields : list Field;
  stored_metadata : option KeyValueMetadata
}.

(** [pq.write_metadata(schema, buf, version="2.0", coerce_timestamps=u)]
    followed by [buf.getvalue().to_pybytes()].  The writer is pyarrow's and
    is a parameter here.  It raises for a schema with a type parquet cannot
    hold, and may store a type as another one; what is assumed of it is that
    a footer it has written holds each timestamp field without a time zone
    at the field's position, under its name and at the resolution asked
    for. *)
Variable write_metadata : Schema → TimeUnit → Result Bytes.

Hypothesis write_metadata_timestamp :
  ∀ (schema : Schema) (coerce : TimeUnit) (data : Bytes)
    (i : nat) (f : Field) (u : TimeUnit),
    write_metadata schema coerce = Ok data →
    fields schema !! i = Some f →
    type f = timestamp u None →
    ∃ g, stored_fields data !! i = Some g ∧
         name g = name f ∧ type g = timestamp coerce None.

(** [pq.read_schema(reader)] *)
Definition read_schema (data : Bytes) : Schema :=
  {| fields := stored_fields data; metadata := stored_metadata data |}.


Definition _bytes2schema (data : Bytes) : Schema :=
  let schema := read_schema data in
  let fields :=
    (λ f, if decide (type f = timestamp unit_us None)
          then field (name f) (timestamp unit_ns None)
          else f) <$> fields schema in
  {| fields := fields; metadata := metadata schema |}.

(** ** The null-column reference resolver *)

Definition _pandas_in_schemas (schemas : list SchemaLike) : bool :=
  fold_left (λ has_pandas schema,
               if has_pandas_key (pa_schema schema) then true else has_pandas)
            schemas false.

(** [if not isinstance(schema, SchemaWrapper): schema = SchemaWrapper(schema, "__unknown__")] *)
Definition as_wrapper (schema : SchemaLike) : Result SchemaWrapper :=
  match schema with
  | Wrapped w => Ok w
  | Bare s => SchemaWrapper_init s {["__unknown__"]}
  end.

(** [{field.name for field in current if field.type == pa.null()}] *)
Definition null_columns_of (current : SchemaWrapper) : gset string :=
  list_to_set (name <$> filter (λ f, type f = null) (fields (internal current))).

Definition _swap_fields_by_name (reference current : SchemaWrapper)
    (field_name : string) : Result SchemaWrapper :=
  let current_field := field_by_name (internal current) field_name in
  let reference_index := get_field_index (internal reference) field_name in
  set reference reference_index current_field.

(** [s.remove(x)] on a Python set. *)
Definition set_remove (s : gset string) (x : string) : Result (gset string) :=
  if decide (x ∈ s) then Ok (s ∖ {[x]}) else Raise KeyError.

(** The loop [for col in null_cols_in_reference - null_columns]; [cols] is
    the difference, computed once before the loop, in iteration order. *)
Fixpoint heal_loop (cols : list string) (current reference : SchemaWrapper)
    (null_cols_in_reference : gset string)
    : Result (SchemaWrapper * gset string) :=
  match cols with
  | [] => Ok (reference, null_cols_in_reference)
  | col :: cols =>
      reference ← _swap_fields_by_name reference current col;
      null_cols_in_reference ← set_remove null_cols_in_reference col;
      heal_loop cols current reference null_cols_in_reference
  end.

(** The variables the resolver's loop carries from one schema to the next.
    The set that [remove] changes in place is always the one bound to
    [null_cols_in_reference] alone: whenever a set is put in
    [schemas_to_evaluate], [null_cols_in_reference] is, or is about to be,
    bound to another set object.  So the pairs already collected are never
    changed, and sets are given here by their values; the loop with the sets
    as shared objects follows below. *)
Record ResolverState := mkState {
  reference : option SchemaWrapper;
  null_cols_in_reference : gset string;
  schemas_to_evaluate : list (SchemaWrapper * gset string)
}.

(** The schema compared in place of [schema] when pandas metadata takes
    part: the same fields, the pandas version overwritten. *)
Definition current_schema (has_pandas : bool) (schema : SchemaWrapper)
    : Result SchemaWrapper :=
  if has_pandas then
    match metadata (internal schema) with
    | None => Raise (ValueError PandasNonPandas)
    | Some metadata =>
        match pandas metadata with
        | None => Raise (ValueError PandasNonPandas)
        | Some pandas_metadata =>
            let pandas_metadata :=
              {| index_columns := index_columns pandas_metadata;
                 columns := columns pandas_metadata;
                 pandas_version := pd_version |} in
            let metadata_clean :=
              {| pandas := Some pandas_metadata;
                 other_keys := other_keys metadata |} in
            SchemaWrapper_init
              {| fields := fields (internal schema);
                 metadata := Some metadata_clean |}
              (origin schema)
        end
    end
  else Ok schema.

(** The body of [for schema in schemas]. *)
Definition resolver_step (has_pandas : bool) (st : ResolverState)
    (schema : SchemaLike) : Result ResolverState :=
  schema ← as_wrapper schema;
  current ← current_schema has_pandas schema;
  let null_columns := null_columns_of current in
  match reference st with
  | None =>
      Ok {| reference := Some current;
            null_cols_in_reference := null_columns;
            schemas_to_evaluate := schemas_to_evaluate st |}
  | Some reference =>
      if decide (null_cols_in_reference st ⊆ null_columns) then
        Ok {| reference := Some reference;
              null_cols_in_reference := null_cols_in_reference st;
              schemas_to_evaluate :=
                schemas_to_evaluate st ++ [(current, null_columns)] |}
      else if decide (null_columns ⊆ null_cols_in_reference st) then
        Ok {| reference := Some current;
              null_cols_in_reference := null_columns;
              schemas_to_evaluate :=
                schemas_to_evaluate st ++ [(reference, null_cols_in_reference st)] |}
      else
        let '(reference, current, null_cols_in_reference, null_columns) :=
          if decide (size null_columns < size (null_cols_in_reference st))%nat
          then (current, reference, null_columns, null_cols_in_reference st)
          else (reference, current, null_cols_in_reference st, null_columns) in
        '(reference, null_cols_in_reference) ←
          heal_loop (set_iter (null_cols_in_reference ∖ null_columns))
                    current reference null_cols_in_reference;
        Ok {| reference := Some reference;
              null_cols_in_reference := null_cols_in_reference;
              schemas_to_evaluate :=
                schemas_to_evaluate st ++ [(current, null_columns)] |}
  end.

Fixpoint resolver_loop (has_pandas : bool) (schemas : list SchemaLike)
    (st : ResolverState) : Result ResolverState :=
  match schemas with
  | [] => Ok st
  | schema :: rest =>
      st ← resolver_step has_pandas st schema;
      resolver_loop has_pandas rest st
  end.

Definition _determine_schemas_to_compare (schemas : list SchemaLike)
    (ignore_pandas : bool)
    : Result (option SchemaWrapper * list (SchemaWrapper * gset string)) :=
  let has_pandas := _pandas_in_schemas schemas && negb ignore_pandas in
  st ← resolver_loop has_pandas schemas
         {| reference := None;
            null_cols_in_reference := ∅;  (* set() *)
            schemas_to_evaluate := [] |};
  if bool_decide (is_Some (reference st))
     || bool_decide (schemas_to_evaluate st = [])
  then Ok (reference st, schemas_to_evaluate st)
  else Raise AssertionError.

(** *** The resolver with its sets as objects

    The same loop with the Python sets kept in a store and named by their
    address, so that a [remove] is seen through every name of the set.
    [resolver_by_reference_agrees] shows that it computes what
    [_determine_schemas_to_compare] above computes. *)

Abbreviation Loc := nat (only parsing).
Abbreviation Store := (list (gset string)) (only parsing).

Definition load (h : Store) (l : Loc) : gset string := default ∅ (h !! l).

Record ResolverObjects := mkObjects {
  o_reference : option SchemaWrapper;
  o_null_cols_in_reference : Loc;
  o_schemas_to_evaluate : list (SchemaWrapper * Loc);
  o_store : Store
}.

Fixpoint heal_loop_obj (cols : list string) (current reference : SchemaWrapper)
    (null_cols_in_reference : Loc) (h : Store) : Result (SchemaWrapper * Store) :=
  match cols with
  | [] => Ok (reference, h)
  | col :: cols =>
      reference ← _swap_fields_by_name reference current col;
      s ← set_remove (load h null_cols_in_reference) col;
      heal_loop_obj cols current reference null_cols_in_reference
                    (<[null_cols_in_reference := s]> h)
  end.

Definition resolver_step_obj (has_pandas : bool) (st : ResolverObjects)
    (schema : SchemaLike) : Result ResolverObjects :=
  schema ← as_wrapper schema;
  current ← current_schema has_pandas schema;
  (* the set comprehension builds a new set *)
  let null_columns := length (o_store st) in
  let h := o_store st ++ [null_columns_of current] in
  match o_reference st with
  | None =>
      Ok {| o_reference := Some current;
            o_null_cols_in_reference := null_columns;
            o_schemas_to_evaluate := o_schemas_to_evaluate st;
            o_store := h |}
  | Some reference =>
      if decide (load h (o_null_cols_in_reference st) ⊆ load h null_columns) then
        Ok {| o_reference := Some reference;
              o_null_cols_in_reference := o_null_cols_in_reference st;
              o_schemas_to_evaluate :=
                o_schemas_to_evaluate st ++ [(current, null_columns)];
              o_store := h |}
      else if decide (load h null_columns ⊆ load h (o_null_cols_in_reference st)) then
        Ok {| o_reference := Some current;
              o_null_cols_in_reference := null_columns;
              o_schemas_to_evaluate :=
                o_schemas_to_evaluate st ++ [(reference, o_null_cols_in_reference st)];
              o_store := h |}
      else
        let '(reference, current, null_cols_in_reference, null_columns) :=
          if decide (size (load h null_columns)
                     < size (load h (o_null_cols_in_reference st)))%nat
          then (current, reference, null_columns, o_null_cols_in_reference st)
          else (reference, current, o_null_cols_in_reference st, null_columns) in
        '(reference, h) ←
          heal_loop_obj
            (set_iter (load h null_cols_in_reference ∖ load h null_columns))
            current reference null_cols_in_reference h;
        Ok {| o_reference := Some reference;
              o_null_cols_in_reference := null_cols_in_reference;
              o_schemas_to_evaluate :=
                o_schemas_to_evaluate st ++ [(current, null_columns)];
              o_store := h |}
  end.

Fixpoint resolver_loop_obj (has_pandas : bool) (schemas : list SchemaLike)
    (st : ResolverObjects) : Result ResolverObjects :=
  match schemas with
  | [] => Ok st
  | schema :: rest =>
      st ← resolver_step_obj has_pandas st schema;
      resolver_loop_obj has_pandas rest st
  end.

(** The loop's variables with every set read out of the store. *)
Definition read_out (st : ResolverObjects) : ResolverState :=
  {| reference := o_reference st;
     null_cols_in_reference := load (o_store st) (o_null_cols_in_reference st);
     schemas_to_evaluate :=
       (λ p, (p.1, load (o_store st) p.2)) <$> o_schemas_to_evaluate st |}.

Definition resolver_by_reference (schemas : list SchemaLike)
    (ignore_pandas : bool)
    : Result (option SchemaWrapper * list (SchemaWrapper * gset string)) :=
  let has_pandas := _pandas_in_schemas schemas && negb ignore_pandas in
  st ← resolver_loop_obj has_pandas schemas
         {| o_reference := None;
            o_null_cols_in_reference := 0%nat;
            o_schemas_to_evaluate := [];
            o_store := [∅] |};
  let st := read_out st in
  if bool_decide (is_Some (reference st))
     || bool_decide (schemas_to_evaluate st = [])
  then Ok (reference st, schemas_to_evaluate st)
  else Raise AssertionError.

(** ** Logging *)

Inductive LogRecord :=
| Warning_unexpected_field (name : string) (schema : SchemaWrapper)
    (* "Unexpected field `%s` encountered while trying to strip `null`
       columns.\nSchema was:\n\n`%s`" *).

(** A computation that may raise and that appends to the logger's output. *)
Definition Logged (A : Type) : Type := Result A * list LogRecord.

#[global] Instance Logged_ret : MRet Logged := λ A a, (Ok a, []).
#[global] Instance Logged_bind : MBind Logged := λ A B k m,
  match m.1 with
  | Ok a => let r := k a in (r.1, m.2 ++ r.2)
  | Raise e => (Raise e, m.2)
  end.

Definition lift {A} (r : Result A) : Logged A := (r, []).
Definition warning (r : LogRecord) : Logged unit := (Ok tt, [r]).

(** ** _strip_columns_from_schema *)

Fixpoint strip_loop (schema : SchemaWrapper) (field_names : list string)
    (stripped_schema : SchemaWrapper) : Logged SchemaWrapper :=
  match field_names with
  | [] => mret stripped_schema
  | name :: rest =>
      let ix := get_field_index (internal stripped_schema) name in
      if decide (ix >= 0) then
        stripped_schema ← lift (remove stripped_schema ix);
        strip_loop schema rest stripped_schema
      else
        (* the field is not in the schema: refuse to strip *)
        _ ← warning (Warning_unexpected_field name schema);
        mret schema
  end.

Definition _strip_columns_from_schema (schema : SchemaWrapper)
    (field_names : list string) : Logged SchemaWrapper :=
  strip_loop schema field_names schema.

(** ** The diff of the error message *)

(** Rendering done outside the module: pyarrow's printer (a wrapper prints
    as its schema), [pprint.pformat], [difflib.unified_diff] and
    [str.splitlines]. *)
Variable schema_repr : Schema → string.
Variable pformat : option PandasMetadata → string.
Variable unified_diff : list string → list string → list string.
Variable splitlines : string → list string.

(** [s.split(sep)] for a non-empty separator; [skip] counts the characters
    of a separator just matched that are still to be passed over. *)
Fixpoint split_go (sep : string) (skip : nat) (cur s : string) : list string :=
  match s with
  | EmptyString => [cur]
  | String c s' =>
      match skip with
      | S k => split_go sep k cur s'
      | O =>
          if String.prefix sep s
          then cur :: split_go sep (String.length sep - 1) "" s'
          else split_go sep 0 (cur +:+ String c "") s'
      end
  end.
Definition split (s sep : string) : list string := split_go sep 0 "" s.

(** [sep.join(parts)] *)
Fixpoint join (sep : string) (parts : list string) : string :=
  match parts with
  | [] => ""
  | [x] => x
  | x :: rest => x +:+ sep +:+ join sep rest
  end.

Fixpoint remove_header_from (diff rest : list string) : list string :=
  match rest with
  | [] => diff
  | el :: rest' =>
      (* the first actual entry of the diff, e.g. @@ -1,5 +2,5 @@ *)
      if String.prefix "@" el then rest else remove_header_from diff rest'
  end.
Definition _remove_diff_header (diff : list string) : list string :=
  remove_header_from diff diff.

(** [a, _ = parts] *)
Definition unpack_first (parts : list string) : Result string :=
  match parts with
  | [a; _] => Ok a
  | _ => Raise (ValueError UnpackError)
  end.

Definition _diff_schemas (first second : SchemaWrapper) : Result string :=
  first_pyarrow_info ←
    unpack_first (split (schema_repr (internal first)) "metadata
--------");
  second_pyarrow_info ←
    unpack_first (split (schema_repr (internal second)) "metadata
--------");
  let pyarrow_diff :=
    _remove_diff_header
      (unified_diff (splitlines first_pyarrow_info)
                    (splitlines second_pyarrow_info)) in
  first_pandas_info ← _pandas_meta_from_schema (internal first);
  second_pandas_info ← _pandas_meta_from_schema (internal second);
  let pandas_meta_diff :=
    _remove_diff_header
      (unified_diff (splitlines (pformat first_pandas_info))
                    (splitlines (pformat second_pandas_info))) in
  Ok ("Arrow schema:
" +:+ join "
" pyarrow_diff +:+ "

Pandas_metadata:
" +:+ join "
" pandas_meta_diff).

(** ** validate_compatible *)

(** [sorted(origin)]: strings are ordered by code points. *)
Definition str_le (a b : string) : Prop := Is_true (String.leb a b).
#[local] Instance str_le_dec : RelDecision str_le.
Proof. intros a b. unfold str_le. apply _. Defined.
Definition sorted (l : list string) : list string := merge_sort str_le l.

Definition _fmt_origin (origin : gset string) : string :=
  let origin := sorted (set_iter origin) in
  let max_len := 200%nat in
  let inner_msg := join ", " origin in
  let ellipsis := "..." in
  let inner_msg :=
    if decide (max_len + String.length ellipsis < String.length inner_msg)%nat
    then String.substring 0 max_len inner_msg +:+ ellipsis
    else inner_msg in
  "{" +:+ inner_msg +:+ "}".

(** A method call on [reference], which is [None] for an empty input. *)
Definition deref (reference : option SchemaWrapper) : Result SchemaWrapper :=
  match reference with
  | Some r => Ok r
  | None => Raise AttributeError
  end.

(** The body of [for current, null_columns in schemas_to_evaluate]. *)
Definition compare_step (reference : option SchemaWrapper)
    (current : SchemaWrapper) (null_columns : gset string) : Logged unit :=
  reference ← lift (deref reference);
  stripped ← _strip_columns_from_schema reference (set_iter null_columns);
  reference_to_compare ← lift (remove_metadata stripped);
  stripped ← _strip_columns_from_schema current (set_iter null_columns);
  current_to_compare ← lift (remove_metadata stripped);
  if ne reference_to_compare current_to_compare then
    schema_diff ← lift (_diff_schemas reference current);
    lift (Raise (ValueError
      (SchemaViolation (_fmt_origin (origin current))
                       (_fmt_origin (origin reference))
                       schema_diff
                       (schema_repr (internal reference)))))
  else mret tt.

Fixpoint compare_loop (reference : option SchemaWrapper)
    (schemas_to_evaluate : list (SchemaWrapper * gset string)) : Logged unit :=
  match schemas_to_evaluate with
  | [] => mret tt
  | (current, null_columns) :: rest =>
      _ ← compare_step reference current null_columns;
      compare_loop reference rest
  end.

Definition validate_compatible (schemas : list SchemaLike)
    (ignore_pandas : bool) : Logged (option SchemaWrapper) :=
  '(reference, schemas_to_evaluate) ←
    lift (_determine_schemas_to_compare schemas ignore_pandas);
  _ ← compare_loop reference schemas_to_evaluate;
  (* all origins are added to the result after error checking *)
  match reference with
  | None => mret None
  | Some reference =>
      result ← lift (with_origin reference
        (fold_left (∪) (origin ∘ fst <$> schemas_to_evaluate) (origin reference)));
      mret (Some result)
  end.

(** ** validate_shared_columns *)

(** The columns of one schema that take part in the check. *)
Definition shared_columns (has_pandas : bool) (schema : Schema)
    : Result (list string) :=
  if has_pandas then
    match metadata schema with
    | None => Raise (ValueError PandasNonPandas)
    | Some metadata =>
        match pandas metadata with
        | None => Raise (ValueError PandasNonPandas)
        | Some pandas_metadata =>
            Ok (omap (λ cmd, match c_name cmd with
                             | None => None
                             | Some _ => Some (field_name cmd)
                             end)
                     (columns pandas_metadata))
        end
    end
  else Ok (names schema).

(** The loop [for col in columns]; [seen] is the dict filled on the way. *)
Fixpoint check_columns (schema : Schema) (columns : list string)
    (seen : gmap string (Field * string))
    : Result (gmap string (Field * string)) :=
  match columns with
  | [] => Ok seen
  | col :: rest =>
      let field_idx := get_field_index schema col in
      field ← getitem schema field_idx;
      let obj := (field, col) in
      match seen !! col with
      | Some ref =>
          if decide (ref ≠ obj)
          then Raise (ValueError (IncompatibleEntries col ref obj))
          else check_columns schema rest seen
      | None => check_columns schema rest (<[col := obj]> seen)
      end
  end.

Fixpoint shared_columns_loop (has_pandas : bool) (schemas : list SchemaLike)
    (seen : gmap string (Field * string))
    : Result (gmap string (Field * string)) :=
  match schemas with
  | [] => Ok seen
  | schema :: rest =>
      columns ← shared_columns has_pandas (pa_schema schema);
      seen ← check_columns (pa_schema schema) columns seen;
      shared_columns_loop has_pandas rest seen
  end.

Definition validate_shared_columns (schemas : list SchemaLike)
    (ignore_pandas : bool) : Result unit :=
  let seen := ∅ in
  let has_pandas := _pandas_in_schemas schemas && negb ignore_pandas in
  _ ← shared_columns_loop has_pandas schemas seen;
  Ok tt.

(** ** Observers used in the statements *)

(** The state the resolver's loop starts from. *)
Definition resolver_init : ResolverState :=
  {| reference := None; null_cols_in_reference := ∅; schemas_to_evaluate := [] |}.

(** Whether the iteration for [schema], entered in state [st], takes the
    last branch of the loop body (the one that heals the reference). *)
Definition takes_healing_branch (has_pandas : bool) (st : ResolverState)
    (schema : SchemaLike) : bool :=
  match as_wrapper schema ≫= current_schema has_pandas, reference st with
  | Ok current, Some _ =>
      negb (bool_decide (null_cols_in_reference st ⊆ null_columns_of current))
      && negb (bool_decide (null_columns_of current ⊆ null_cols_in_reference st))
  | _, _ => false
  end.

(** The number of iterations of the resolver's loop that enter the healing
    branch. *)
Fixpoint healing_runs (has_pandas : bool) (schemas : list SchemaLike)
    (st : ResolverState) : nat :=
  match schemas with
  | [] => 0
  | schema :: rest =>
      ((if takes_healing_branch has_pandas st schema then 1 else 0) +
       match resolver_step has_pandas st schema with
       | Ok st' => healing_runs has_pandas rest st'
       | Raise _ => 0
       end)%nat
  end.

(** The exception is the schema-violation [ValueError] of
    [validate_compatible]. *)
Definition schema_violation (e : Exn) : bool :=
  match e with
  | ValueError (SchemaViolation _ _ _ _) => true
  | _ => false
  end.

Definition raises_schema_violation {A} (r : Result A) : bool :=
  match r with
  | Raise e => schema_violation e
  | Ok _ => false
  end.

(** A wrapper as [SchemaWrapper.__init__] leaves it: built again from its
    own schema and origin, it is unchanged.  Every wrapper the constructor
    returns is one ([SchemaWrapper_init_constructed] below). *)
Definition constructed (w : SchemaWrapper) : Prop :=
  SchemaWrapper_init (internal w) (origin w) = Ok w.

(** An index column on which [_schema_compat] does nothing. *)
Definition index_settled (s : Schema) (col : IndexColumn) : Prop :=
  if ARROW_LARGER_EQ_0130 then
    match col with
    | IndexName c => get_field_index s c < 0
    | IndexDict _ => True
    end
  else
    match col with
    | IndexName _ => True
    | IndexDict _ => False
    end.

(** A schema on which [_schema_compat] does nothing. *)
Definition compat_noop (s : Schema) : Prop :=
  match metadata s with
  | None => True
  | Some md =>
      other_keys md = [] ∧
      ∃ pm, pandas md = Some pm ∧
            (length (index_columns pm) ≤ 1)%nat ∧
            Forall (index_settled s) (index_columns pm)
  end.

(** The exception is a [ValueError]. *)
Definition value_error (e : Exn) : bool :=
  match e with
  | ValueError _ => true
  | _ => false
  end.

(** What [SchemaWrapper.__init__] asks of a list entry that is a wrapper
    already. *)
Definition constructed_like (s : SchemaLike) : Prop :=
  match s with
  | Wrapped w => constructed w
  | Bare _ => True
  end.

(** A wrapper of a batch in which every schema lists the field names [N]. *)
Definition same_columns (N : list string) (w : SchemaWrapper) : Prop :=
  constructed w ∧ names (internal w) = N.

(** Two schemas agree on a column when the fields they have for it are
    equal or one of them is null-typed. *)
Definition agree (a b : SchemaWrapper) : Prop :=
  ∀ (i : nat) fa fb,
    fields (internal a) !! i = Some fa → fields (internal b) !! i = Some fb →
    type fa ≠ null → type fb ≠ null → fa = fb.

(** The schemas of a list agree with each other. *)
Definition consistent (ws : list SchemaWrapper) : Prop :=
  ∀ a b, a ∈ ws → b ∈ ws → agree a b.

(** Every non-null field of [x] is, at the same position, a field of one of
    the schemas [P]. *)
Definition provenance (P : list SchemaWrapper) (x : SchemaWrapper) : Prop :=
  ∀ (i : nat) f, fields (internal x) !! i = Some f → type f ≠ null →
    ∃ w, w ∈ P ∧ fields (internal w) !! i = Some f.

(** What the resolver's loop has established after the schemas [P], all
    with the field names [N]: the reference and the collected schemas have
    these names, the null-column sets are the exact ones, the reference's is
    a subset of every collected one, every non-null field comes from [P],
    and every non-null field of [P] is in the reference or in a collected
    schema. *)
Definition resolver_run (N : list string) (P : list SchemaWrapper)
    (st : ResolverState) : Prop :=
  match reference st with
  | None => P = [] ∧ schemas_to_evaluate st = []
  | Some r =>
      same_columns N r ∧
      null_cols_in_reference st = null_columns_of r ∧
      provenance P r ∧
      Forall (λ p, same_columns N p.1 ∧ p.2 = null_columns_of p.1 ∧
                   null_cols_in_reference st ⊆ p.2 ∧ provenance P p.1)
             (schemas_to_evaluate st) ∧
      (∀ w (i : nat) f, w ∈ P → fields (internal w) !! i = Some f →
         type f ≠ null →
         fields (internal r) !! i = Some f ∨
         ∃ p, p ∈ schemas_to_evaluate st ∧ fields (internal p.1) !! i = Some f)
  end.

(** ** Concrete schemas *)

(** Renderers to evaluate the functions with: a schema prints as its field
    names followed by pyarrow's metadata heading. *)
Definition example_repr (s : Schema) : string :=
  join ", " (names s) +:+ "
metadata
--------
{}".
Definition example_pformat (pm : option PandasMetadata) : string := "".
Definition example_diff (a b : list string) : list string := a ++ b.
Definition example_splitlines (s : string) : list string := [s].

(** A wrapper without pandas metadata. *)
Definition arrow_only (fs : list Field) (label : string) : SchemaWrapper :=
  {| internal := {| fields := fs; metadata := None |}; origin := {[label]} |}.

Definition schema_x := arrow_only [field "x" null; field "y" int64] "x".
Definition schema_y := arrow_only [field "y" null; field "x" int64] "y".
Definition schema_z := arrow_only [field "x" int64; field "y" int64] "z".
Definition schema_x_healed :=
  arrow_only [field "x" int64; field "y" int64] "x".

(** A wrapper with pandas metadata for the given payload columns. *)
Definition pandas_column (n : string) (t : string) : ColumnMetadata :=
  {| c_name := Some n; field_name := n; pandas_type := Some t;
     numpy_type := Some t; c_metadata := None |}.
Definition with_pandas (fs : list Field) (index : list IndexColumn)
    (cols : list ColumnMetadata) : Schema :=
  {| fields := fs;
     metadata := Some {| pandas := Some {| index_columns := index;
                                           columns := cols;
                                           pandas_version := "0.25.3" |};
                         other_keys := [] |} |}.

Definition pandas_a : SchemaWrapper :=
  {| internal := with_pandas [field "x" int64] [] [pandas_column "x" "int64"];
     origin := {["a"]} |}.
Definition pandas_b : SchemaWrapper :=
  {| internal := with_pandas [field "x" string_] [] [pandas_column "x" "unicode"];
     origin := {["b"]} |}.
Definition arrow_c : SchemaWrapper := arrow_only [field "x" int64] "c".

(** A schema whose metadata has an entry, but none for pandas. *)
Definition bare_foo : Schema :=
  {| fields := [field "x" int64];
     metadata := Some {| pandas := None; other_keys := [("foo", "bar")] |} |}.

(** Two frames with an index named [idx], as pyarrow describes them: the
    index is a field and a named column of the pandas metadata. *)
Definition frame_1 : Schema :=
  with_pandas [field "a" int64; field "idx" int64] [IndexName "idx"]
    [pandas_column "a" "int64"; pandas_column "idx" "int64"].
Definition frame_2 : Schema :=
  with_pandas [field "b" string_; field "idx" int64] [IndexName "idx"]
    [pandas_column "b" "unicode"; pandas_column "idx" "int64"].

Definition columns_a := arrow_only [field "x" null; field "y" int64] "a".
Definition columns_b := arrow_only [field "x" int64; field "y" null] "b".
Definition columns_c := arrow_only [field "x" int64; field "y" int64] "c".

(** [frame_1] as the constructor (pyarrow >= 0.13) wraps it: the index
    field is gone. *)
Definition wrapped_frame_1 : SchemaWrapper :=
  {| internal := with_pandas [field "a" int64] [IndexName "idx"]
                   [pandas_column "a" "int64"; pandas_column "idx" "int64"];
     origin := {["t1"]} |}.

(** A wrapper written by another pandas version. *)
Definition pandas_old : SchemaWrapper :=
  {| internal :=
       {| fields := [field "x" int64];
          metadata :=
            Some {| pandas := Some {| index_columns := [];
                                      columns := [pandas_column "x" "int64"];
                                      pandas_version := "0.24.0" |};
                    other_keys := [] |} |};
     origin := {["old"]} |}.

(** A table with the partition column [p], before and after
    [normalize_column_order] with the partition key [p]. *)
Definition table_bap : SchemaWrapper :=
  {| internal := with_pandas [field "b" int64; field "a" int64; field "p" string_] []
                   [pandas_column "b" "int64"; pandas_column "a" "int64";
                    pandas_column "p" "unicode"];
     origin := {["t"]} |}.
Definition table_pab : SchemaWrapper :=
  {| internal := with_pandas [field "p" string_; field "a" int64; field "b" int64] []
                   [pandas_column "p" "unicode"; pandas_column "a" "int64";
                    pandas_column "b" "int64"];
     origin := {["t"]} |}.

(** The schema pyarrow derives from a frame with a 32-bit and a categorical
    column, and what [make_meta] makes of it. *)
Definition frame_narrow : Schema :=
  with_pandas [field "v" int32; field "d" (dictionary int8 string_ false)] []
    [pandas_column "v" "int32";
     {| c_name := Some "d"; field_name := "d"; pandas_type := Some "categorical";
        numpy_type := Some "int8"; c_metadata := Some "{...}" |}].
Definition meta_narrow : SchemaWrapper :=
  {| internal :=
       with_pandas [field "d" string_; field "v" int64] []
         [ {| c_name := Some "d"; field_name := "d"; pandas_type := Some "int8";
              numpy_type := Some "int8"; c_metadata := None |};
           {| c_name := Some "v"; field_name := "v"; pandas_type := Some "int64";
              numpy_type := Some "int64"; c_metadata := None |} ];
     origin := {["frame"]} |}.

(** ** Indexing a SchemaWrapper *)

(** [__getitem__] goes to the wrapped schema. *)
Definition __getitem__ (self : SchemaWrapper) (i : Z) : Result Field :=
  getitem (internal self) i.

(** ** normalize_column_order *)

(** [sorted(l, key=key)] for string keys: the stable sort, an element is
    put in front of the first element whose key is not smaller. *)
Fixpoint insert_by_key {A} (key : A → string) (x : A) (l : list A) : list A :=
  match l with
  | [] => [x]
  | y :: l' =>
      if decide (str_le (key x) (key y)) then x :: l
      else y :: insert_by_key key x l'
  end.
Definition sorted_by_key {A} (key : A → string) (l : list A) : list A :=
  foldr (insert_by_key key) [] l.

(** The dict [cols_partition] and the lists [cols_payload] and [cols_misc]
    that the loop over the pandas columns fills. *)
Record ColumnGroups := mkGroups {
  cols_partition : gmap string (ColumnMetadata * option Field);
  cols_payload : list (string * ColumnMetadata * option Field);
  cols_misc : list (ColumnMetadata * option Field)
}.

(** The body of [for cmd in pandas_metadata["columns"]]. *)
Definition group_column (schema : SchemaWrapper) (partition_keys : list string)
    (g : ColumnGroups) (cmd : ColumnMetadata) : Result ColumnGroups :=
  let name := c_name cmd in
  let field_name := field_name cmd in
  let field_idx := get_field_index (internal schema) field_name in
  field ← (if decide (field_idx >= 0)
           then f ← __getitem__ schema field_idx; Ok (Some f)
           else Ok None);
  match name with
  | None =>
      Ok {| cols_partition := cols_partition g;
            cols_payload := cols_payload g;
            cols_misc := cols_misc g ++ [(cmd, field)] |}
  | Some name =>
      if decide (name ∈ partition_keys) then
        Ok {| cols_partition := <[name := (cmd, field)]> (cols_partition g);
              cols_payload := cols_payload g;
              cols_misc := cols_misc g |}
      else
        Ok {| cols_partition := cols_partition g;
              cols_payload := cols_payload g ++ [(name, cmd, field)];
              cols_misc := cols_misc g |}
  end.

Fixpoint group_columns (schema : SchemaWrapper) (partition_keys : list string)
    (cmds : list ColumnMetadata) (g : ColumnGroups) : Result ColumnGroups :=
  match cmds with
  | [] => Ok g
  | cmd :: rest =>
      g ← group_column schema partition_keys g cmd;
      group_columns schema partition_keys rest g
  end.

(** The list [ordered]: the partition columns in the order of the keys, the
    payload columns by name, the unnamed columns last. *)
Definition ordered_columns (partition_keys : list string) (g : ColumnGroups)
    : list (ColumnMetadata * option Field) :=
  omap (λ k, cols_partition g !! k) partition_keys
  ++ ((λ x, (x.1.2, x.2)) <$> sorted_by_key (λ x, x.1.1) (cols_payload g))
  ++ cols_misc g.

Definition normalize_column_order (schema : SchemaLike)
    (partition_keys : option (list string)) : Result SchemaWrapper :=
  schema ← as_wrapper schema;
  let partition_keys := default [] partition_keys in
  pandas_metadata ← _pandas_meta_from_schema (internal schema);
  let origin := origin schema in
  pandas_metadata ← subscript pandas_metadata;
  g ← group_columns schema partition_keys (columns pandas_metadata)
        {| cols_partition := ∅; cols_payload := []; cols_misc := [] |};
  let ordered := ordered_columns partition_keys g in
  let pandas_metadata :=
    {| index_columns := index_columns pandas_metadata;
       columns := fst <$> ordered;
       pandas_version := pandas_version pandas_metadata |} in
  let fields := omap snd ordered in
  match metadata (internal schema) with
  | None => Raise TypeError
  | Some metadata =>
      SchemaWrapper_init
        {| fields := fields;
           metadata := Some {| pandas := Some pandas_metadata;
                               other_keys := other_keys metadata |} |}
        origin
  end.

(** ** make_meta *)

(** A pandas frame is known here by the schema pyarrow derives from it:
    [pa.Schema.from_pandas(obj)], and [pa.Table.from_pandas(obj).schema]
    with an older pyarrow. *)
Variable DataFrame : Type.
Variable Schema_from_pandas : DataFrame → Result Schema.
Variable Table_from_pandas : DataFrame → Result Schema.

(** The kinds of [obj] that [make_meta] tells apart. *)
Inductive MetaInput :=
| MetaWrapper (w : SchemaWrapper)
| MetaSchema (s : Schema)
| MetaFrame (df : DataFrame)
| MetaOther.

(** What a call of [make_meta] comes to: the [ValueError] for an input of
    another kind, or what the rest of the function returns or raises. *)
Inductive MetaOutcome :=
| InputMustBeSchemaOrFrame
    (* ValueError("Input must be a pyarrow schema, or a pandas dataframe") *)
| Meta (r : Result SchemaWrapper).

(** [d[k] = v] on a dict, kept as its items in insertion order. *)
Fixpoint dict_set (d : list (string * DataType)) (k : string) (v : DataType)
    : list (string * DataType) :=
  match d with
  | [] => [(k, v)]
  | (k', v') :: d' =>
      if decide (k' = k) then (k, v) :: d' else (k', v') :: dict_set d' k v
  end.

(** [dict([(field.name, field.type) for field in schema])] *)
Definition fields_dict (schema : Schema) : list (string * DataType) :=
  foldl (λ d f, dict_set d (name f) (type f)) [] (fields schema).

(** The body of the loop that normalises the types; [cmds] holds the
    columns already passed, as the loop has left them. *)
Definition normalize_column (schema : Schema)
    (st : list (string * DataType) * list ColumnMetadata) (cmd : ColumnMetadata)
    : Result (list (string * DataType) * list ColumnMetadata) :=
  let '(fields, cmds) := st in
  match c_name cmd with
  | None => Ok (fields, cmds ++ [cmd])
  | Some _ =>
      let field_name := field_name cmd in
      let field_idx := get_field_index schema field_name in
      field ← getitem schema field_idx;
      '(t_pa, t_pd, t_np, md) ←
        normalize_type (type field) (pandas_type cmd) (numpy_type cmd) (c_metadata cmd);
      Ok (dict_set fields field_name t_pa,
          cmds ++ [ {| c_name := c_name cmd;
                       field_name := field_name;
                       pandas_type := t_pd;
                       numpy_type := t_np;
                       c_metadata := md |} ])
  end.

Fixpoint normalize_columns (schema : Schema) (cmds : list ColumnMetadata)
    (st : list (string * DataType) * list ColumnMetadata)
    : Result (list (string * DataType) * list ColumnMetadata) :=
  match cmds with
  | [] => Ok st
  | cmd :: rest =>
      st ← normalize_column schema st cmd;
      normalize_columns schema rest st
  end.

Definition make_meta (obj : MetaInput) (origin : string)
    (partition_keys : option (list string)) : MetaOutcome :=
  match obj with
  | MetaWrapper w => Meta (Ok w)
  | MetaSchema s => Meta (SchemaWrapper_init s {[origin]})
  | MetaOther => InputMustBeSchemaOrFrame
  | MetaFrame df =>
      Meta (
        schema ← (if ARROW_LARGER_EQ_0130 then Schema_from_pandas df
                  else Table_from_pandas df);
        pandas_metadata ← _pandas_meta_from_schema schema;
        (* normalize types *)
        let fields := fields_dict schema in
        pandas_metadata ← subscript pandas_metadata;
        '(fields, cmds) ←
          normalize_columns schema (columns pandas_metadata) (fields, []);
        let pandas_metadata :=
          {| index_columns := index_columns pandas_metadata;
             columns := cmds;
             pandas_version := pandas_version pandas_metadata |} in
        match metadata schema with
        | None => Raise TypeError
        | Some metadata =>
            let schema :=
              {| fields := (λ p, field p.1 p.2) <$> fields;
                 metadata := Some {| pandas := Some pandas_metadata;
                                     other_keys := other_keys metadata |} |} in
            w ← SchemaWrapper_init schema {[origin]};
            normalize_column_order (Wrapped w) partition_keys
        end)
  end.

(** ** The key of a schema in a store *)

(** [naming.TABLE_METADATA_FILE] *)
Variable TABLE_METADATA_FILE : string.

Definition _get_common_metadata_key (dataset_uuid table : string) : string :=
  dataset_uuid +:+ "/" +:+ table +:+ "/" +:+ TABLE_METADATA_FILE.

(** ** Observers for the properties of the rest of the module *)

(** A type as [normalize_type] leaves it: 64-bit numbers only, no
    dictionary, at every depth of a list. *)
Fixpoint normalized (t : DataType) : bool :=
  match t with
  | int8 | int16 | int32 | uint8 | uint16 | uint32 | float16 | float32 => false
  | dictionary _ _ _ => false
  | list_ v => normalized v
  | _ => true
  end.

Fixpoint dictionary_free (t : DataType) : bool :=
  match t with
  | dictionary _ _ _ => false
  | list_ v => dictionary_free v
  | _ => true
  end.

(** The schema the resolver works with in place of a list entry. *)
Definition compared_as (has_pandas : bool) (schema : SchemaLike)
    : Result SchemaWrapper :=
  schema ← as_wrapper schema;
  current_schema has_pandas schema.

(** No field of the schema has the null type. *)
Definition null_free (s : Schema) : Prop :=
  Forall (λ f, type f ≠ null) (fields s).

(** The field that [validate_shared_columns] records for a column of a
    schema, when the column is one of those it walks through. *)
Definition recorded_field (has_pandas : bool) (s : Schema) (col : string)
    : option Field :=
  match shared_columns has_pandas s with
  | Ok cols =>
      if decide (col ∈ cols) then
        match getitem s (get_field_index s col) with
        | Ok f => Some f
        | Raise _ => None
        end
      else None
  | Raise _ => None
  end.

(** Every column that [validate_shared_columns] walks through for the
    schema is a field of it. *)
Definition columns_found (has_pandas : bool) (s : Schema) : Prop :=
  ∃ cols, shared_columns has_pandas s = Ok cols ∧
          ∀ col, col ∈ cols → get_field_index s col >= 0.

(** * Properties *)

(** Proofs are kept from touching the parts of the environment their
    statement does not depend on. *)
Ltac clear_env :=
  try clear set_iter_elements; try clear set_iter;
  try clear write_metadata_timestamp; try clear write_metadata;
  try clear schema_repr; try clear pformat;
  try clear unified_diff; try clear splitlines;
  try clear TABLE_METADATA_FILE;
  try clear Table_from_pandas; try clear Schema_from_pandas;
  try clear pd_version; try clear ARROW_LARGER_EQ_0141;
  try clear ARROW_LARGER_EQ_0130.
Ltac solve_set := clear_env; set_solver.

(** ** Loops over sets *)

Lemma elem_of_set_iter (s : gset string) x : x ∈ set_iter s ↔ x ∈ s.
Proof using Type*. by rewrite set_iter_elements, elem_of_elements. Qed.

Lemma NoDup_set_iter (s : gset string) : NoDup (set_iter s).
Proof using Type*. rewrite set_iter_elements. apply NoDup_elements. Qed.

Lemma list_to_set_set_iter (s : gset string) :
  list_to_set (set_iter s) = s.
Proof using Type*.
  apply set_eq. intros x. by rewrite elem_of_list_to_set, elem_of_set_iter.
Qed.

(** ** Reasoning about calls that may raise *)

Lemma bind_Ok {A B} (m : Result A) (k : A → Result B) (b : B) :
  m ≫= k = Ok b ↔ ∃ a, m = Ok a ∧ k a = Ok b.
Proof.
  destruct m as [a|e]; simpl; split.
  - eauto.
  - intros (a' & [= <-] & Hk). exact Hk.
  - discriminate.
  - intros (a' & [=] & _).
Qed.

Lemma bind_Raise {A B} (m : Result A) (k : A → Result B) (e : Exn) :
  m ≫= k = Raise e ↔ m = Raise e ∨ ∃ a, m = Ok a ∧ k a = Raise e.
Proof.
  destruct m as [a|e']; simpl; split.
  - eauto.
  - intros [[=]|(a' & [= <-] & Hk)]. exact Hk.
  - intros [= <-]. by left.
  - intros [[= <-]|(a' & [=] & _)]. done.
Qed.

Lemma Result_bind_Ok {A B} (a : A) (k : A → Result B) : Ok a ≫= k = k a.
Proof. done. Qed.

(** ** Field positions *)

Lemma field_indices_spec n i fs j :
  j ∈ field_indices n i fs ↔
  ∃ (k : nat) f, fs !! k = Some f ∧ name f = n ∧ j = i + Z.of_nat k.
Proof.
  revert i. induction fs as [|f fs IH]; intros i; simpl.
  - split; [by intros ?%elem_of_nil | by intros (k & g & ? & _)].
  - assert (Hrest : j ∈ field_indices n (i + 1) fs ↔
      ∃ (k : nat) g, (f :: fs) !! S k = Some g ∧ name g = n ∧ j = i + Z.of_nat (S k)).
    { rewrite IH. split; intros (k & g & Hk & Hn & ->); exists k, g;
        (split; [exact Hk | split; [exact Hn | lia]]). }
    destruct (decide (name f = n)) as [Hf|Hf].
    + rewrite elem_of_cons, Hrest. split.
      * intros [->|(k & g & ? & ? & ?)]; [exists 0%nat, f | exists (S k), g];
          (split; [done | split; [done | lia]]).
      * intros ([|k] & g & Hk & Hn & ->); [left; lia | right; eauto 6].
    + rewrite Hrest. split.
      * intros (k & g & ? & ? & ?). exists (S k), g. done.
      * intros ([|k] & g & Hk & Hn & ->); [| eauto 6].
        simpl in Hk. by injection Hk as ->.
Qed.

Lemma field_indices_length n i fs :
  length (field_indices n i fs) = length (filter (λ f, name f = n) fs).
Proof.
  revert i. induction fs as [|f fs IH]; intros i; simpl; [done|].
  rewrite filter_cons. destruct (decide (name f = n)); simpl; by rewrite IH.
Qed.

(** A non-negative result of [get_field_index] is the position of the only
    field of that name. *)
Lemma get_field_index_found s n i :
  get_field_index s n = i → i >= 0 →
  0 <= i < Z.of_nat (length (fields s)) ∧
  (∃ f, fields s !! Z.to_nat i = Some f ∧ name f = n) ∧
  (∀ (k : nat) f, fields s !! k = Some f → name f = n → k = Z.to_nat i).
Proof.
  unfold get_field_index. intros Hi Hge.
  pose proof (field_indices_spec n 0 (fields s)) as Hspec.
  destruct (field_indices n 0 (fields s)) as [|i' [|? ?]] eqn:Hidx; [lia | | lia].
  subst i'.
  destruct (proj1 (Hspec i) (list_elem_of_here _ _)) as (k & f & Hk & Hn & Hik).
  assert (Z.to_nat i = k) as Hki by lia.
  split; [|split].
  - apply lookup_lt_Some in Hk. lia.
  - exists f. by rewrite Hki.
  - intros k' f' Hk' Hn'.
    assert (0 + Z.of_nat k' ∈ [i]) as Hin by (apply Hspec; eauto).
    apply list_elem_of_singleton in Hin. lia.
Qed.

Lemma get_field_index_range s n :
  get_field_index s n = -1 ∨ 0 <= get_field_index s n < Z.of_nat (length (fields s)).
Proof.
  destruct (decide (get_field_index s n >= 0)) as [Hge|Hlt].
  - right. by apply (get_field_index_found s n).
  - left. unfold get_field_index in *.
    pose proof (field_indices_spec n 0 (fields s)) as Hspec.
    destruct (field_indices n 0 (fields s)) as [|i' [|? ?]] eqn:Hidx; [lia | | lia].
    destruct (proj1 (Hspec i') (list_elem_of_here _ _)) as (k & f & _ & _ & ->). lia.
Qed.

(** [set] at the index of a name never adds a field: the index is [-1]
    or that of a field. *)
Lemma schema_set_by_name s n (f : option Field) :
  schema_set s (get_field_index s n) f =
  match f with
  | None => Raise AttributeError
  | Some f =>
      if decide (0 <= get_field_index s n < Z.of_nat (length (fields s))) then
        Ok {| fields := <[Z.to_nat (get_field_index s n) := f]> (fields s);
              metadata := metadata s |}
      else Raise ArrowInvalid
  end.
Proof.
  unfold schema_set. destruct f as [f|]; [|done].
  destruct (decide (0 <= _ < _)); [done|].
  rewrite decide_False; [done|].
  destruct (get_field_index_range s n); lia.
Qed.

Lemma field_by_name_Some s n f :
  field_by_name s n = Some f → f ∈ fields s ∧ name f = n.
Proof.
  unfold field_by_name. intros H.
  destruct (filter _ (fields s)) as [|g [|? ?]] eqn:Hfl; try discriminate.
  injection H as ->.
  assert (f ∈ filter (λ f, name f = n) (fields s)) as Hin by (rewrite Hfl; solve_set).
  by apply list_elem_of_filter in Hin as [? ?].
Qed.

(** ** Null columns *)

Lemma elem_of_null_columns_of w x :
  x ∈ null_columns_of w ↔
  ∃ f, f ∈ fields (internal w) ∧ type f = null ∧ name f = x.
Proof.
  unfold null_columns_of. rewrite elem_of_list_to_set, list_elem_of_fmap.
  split.
  - intros (f & -> & Hf). apply list_elem_of_filter in Hf as [? ?]. eauto.
  - intros (f & Hf & Ht & <-). exists f. split; [done|].
    by apply list_elem_of_filter.
Qed.

(** Building a wrapper never adds a null-typed field: [_schema_compat] drops
    an index field or appends an [int64] one. *)
Lemma compat_step_null_fields ix col st st' f :
  compat_step ix col st = Ok st' →
  f ∈ fields st'.1 → type f = null → f ∈ fields st.1.
Proof.
  destruct st as [schema pm]. unfold compat_step.
  destruct ARROW_LARGER_EQ_0130, col as [c|d]; simpl.
  - destruct (decide (get_field_index schema c >= 0)); simpl.
    + unfold schema_remove. case_decide; simpl; [|discriminate].
      intros [= <-] Hf _. simpl in Hf. by eapply list_elem_of_delete_inv.
    + by intros [= <-].
  - by intros [= <-].
  - by intros [= <-].
  - intros [= <-]. simpl. intros Hf Ht.
    apply elem_of_app in Hf as [Hf|Hf]; [done|].
    apply list_elem_of_singleton in Hf. subst f. discriminate.
Qed.

Lemma compat_loop_null_fields cols ix st st' f :
  compat_loop ix cols st = Ok st' →
  f ∈ fields st'.1 → type f = null → f ∈ fields st.1.
Proof.
  revert ix st. induction cols as [|col cols IH]; intros ix st; simpl.
  - by intros [= <-].
  - intros H Hf Ht. apply bind_Ok in H as (st1 & Hstep & Hloop).
    eapply compat_step_null_fields; eauto.
Qed.

Lemma _schema_compat_null_fields s s' f :
  _schema_compat s = Ok s' →
  f ∈ fields s' → type f = null → f ∈ fields s.
Proof.
  unfold _schema_compat. destruct (metadata s) as [md|]; [|by intros [= <-]].
  intros H. apply bind_Ok in H as (pm0 & _ & H).
  apply bind_Ok in H as (pm & _ & H). simpl in H.
  case_decide; [discriminate|].
  apply bind_Ok in H as ([schema pm'] & Hloop & H). injection H as <-.
  simpl. intros Hf Ht.
  by apply (compat_loop_null_fields _ _ _ _ f Hloop).
Qed.

Lemma SchemaWrapper_init_null_columns s o w :
  SchemaWrapper_init s o = Ok w →
  null_columns_of w ⊆ null_columns_of {| internal := s; origin := o |}.
Proof.
  unfold SchemaWrapper_init. intros H.
  apply bind_Ok in H as (s' & Hc & [= <-]).
  intros x. rewrite !elem_of_null_columns_of. simpl.
  intros (f & Hf & Ht & Hn). exists f.
  split; [|done]. by eapply _schema_compat_null_fields.
Qed.

(** Healing one column: the reference loses it as a null column and gains
    none. *)
Lemma _swap_fields_by_name_null_columns reference current col r' :
  _swap_fields_by_name reference current col = Ok r' →
  col ∉ null_columns_of current →
  null_columns_of r' ⊆ null_columns_of reference ∖ {[col]}.
Proof.
  unfold _swap_fields_by_name, set. intros H Hcol.
  apply bind_Ok in H as (s' & Hset & Hinit).
  apply SchemaWrapper_init_null_columns in Hinit.
  etrans; [exact Hinit|]. clear Hinit r'.
  rewrite schema_set_by_name in Hset.
  destruct (field_by_name (internal current) col) as [f|] eqn:Hf; [|discriminate].
  apply field_by_name_Some in Hf as [Hfin Hfname].
  case_decide as Hrange; [|discriminate]. injection Hset as <-.
  assert (type f ≠ null) as Hft.
  { intros Ht. apply Hcol, elem_of_null_columns_of. eauto. }
  destruct (get_field_index_found (internal reference) col _ eq_refl ltac:(lia))
    as (_ & _ & Huniq).
  intros x. rewrite elem_of_difference, !elem_of_null_columns_of. simpl.
  intros (g & Hg & Hgt & Hgn).
  apply list_elem_of_lookup in Hg as [j Hj].
  destruct (decide (j = Z.to_nat (get_field_index (internal reference) col))) as [->|Hne].
  - rewrite list_lookup_insert_eq in Hj by lia. by injection Hj as ->.
  - rewrite list_lookup_insert_ne in Hj by done. split.
    + exists g. split; [by eapply list_elem_of_lookup_2 | done].
    + intros Hx%elem_of_singleton. subst x. by apply Hne, (Huniq j g).
Qed.

Lemma set_remove_Ok nr col nr' :
  set_remove nr col = Ok nr' → nr' = nr ∖ {[col]}.
Proof. unfold set_remove. case_decide; [by intros [= <-] | discriminate]. Qed.

Lemma heal_loop_spec cols current reference nr r' nr' :
  heal_loop cols current reference nr = Ok (r', nr') →
  (∀ col, col ∈ cols → col ∉ null_columns_of current) →
  null_columns_of reference ⊆ nr →
  null_columns_of r' ⊆ nr' ∧ nr' = nr ∖ list_to_set cols.
Proof.
  revert reference nr.
  induction cols as [|col cols IH]; intros reference nr; simpl.
  - intros [= <- <-] _ Hsub. split; [done | solve_set].
  - intros H Hcols Hsub.
    apply bind_Ok in H as (ref1 & Hswap & H).
    apply bind_Ok in H as (nr1 & Hrem & H).
    apply set_remove_Ok in Hrem. subst nr1.
    apply _swap_fields_by_name_null_columns in Hswap; [|apply Hcols; solve_set].
    apply IH in H as [Hr' ->]; [| intros c Hc; apply Hcols; solve_set | solve_set].
    split; [done | solve_set].
Qed.

(** ** The resolver's loop invariant *)

(** [null_cols_in_reference] covers the null columns of [reference] and is a
    subset of the null-column set recorded with every schema already in
    [schemas_to_evaluate]. *)
Definition resolver_inv (st : ResolverState) : Prop :=
  (∀ r, reference st = Some r → null_columns_of r ⊆ null_cols_in_reference st) ∧
  (∀ c nc, (c, nc) ∈ schemas_to_evaluate st → null_cols_in_reference st ⊆ nc) ∧
  (reference st = None → schemas_to_evaluate st = []).

Lemma resolver_inv_init :
  resolver_inv {| reference := None; null_cols_in_reference := ∅;
                  schemas_to_evaluate := [] |}.
Proof. split; [done | split; [|done]]. simpl. by intros ? ? ?%elem_of_nil. Qed.

Lemma resolver_step_inv has_pandas st schema st' :
  resolver_step has_pandas st schema = Ok st' →
  resolver_inv st → resolver_inv st'.
Proof using Type*.
  unfold resolver_step. intros H (Href & Hpend & Hnone).
  apply bind_Ok in H as (w & _ & H).
  apply bind_Ok in H as (current & _ & H). simpl in H.
  destruct (reference st) as [ref|] eqn:Eref.
  - specialize (Href ref eq_refl).
    destruct (decide (null_cols_in_reference st ⊆ null_columns_of current)) as [Hsub|Hnsub].
    { injection H as <-. split; [|split]; simpl.
      - by intros r [= <-].
      - intros c nc [Hin|Hin%list_elem_of_singleton]%elem_of_app; [by eapply Hpend|].
        by injection Hin as -> ->.
      - done. }
    destruct (decide (null_columns_of current ⊆ null_cols_in_reference st)) as [Hsub'|Hnsub'].
    { injection H as <-. split; [|split]; simpl.
      - by intros r [= <-].
      - intros c nc [Hin|Hin%list_elem_of_singleton]%elem_of_app.
        + etrans; [exact Hsub'|]. by eapply Hpend.
        + by injection Hin as -> ->.
      - done. }
    destruct (decide (size (null_columns_of current) < size (null_cols_in_reference st))%nat).
    + apply bind_Ok in H as ([r' nr'] & Hheal & [= <-]).
      apply heal_loop_spec in Hheal as [Hr' Hnr'].
      * rewrite list_to_set_set_iter in Hnr'.
        split; [|split]; simpl; [by intros r [= <-] | | done].
        intros c nc [Hin|Hin%list_elem_of_singleton]%elem_of_app.
        -- specialize (Hpend c nc Hin). solve_set.
        -- injection Hin as -> ->. subst nr'. solve_set.
      * intros col Hcol%elem_of_set_iter. solve_set.
      * done.
    + apply bind_Ok in H as ([r' nr'] & Hheal & [= <-]).
      apply heal_loop_spec in Hheal as [Hr' Hnr'].
      * rewrite list_to_set_set_iter in Hnr'.
        split; [|split]; simpl; [by intros r [= <-] | | done].
        intros c nc [Hin|Hin%list_elem_of_singleton]%elem_of_app.
        -- specialize (Hpend c nc Hin). solve_set.
        -- injection Hin as -> ->. subst nr'.
           intros x Hx. apply elem_of_difference in Hx as [Hx Hnx].
           destruct (decide (x ∈ null_columns_of current)); [done|].
           exfalso. apply Hnx. by apply elem_of_difference.
      * intros col Hcol%elem_of_set_iter. solve_set.
      * done.
  - injection H as <-. rewrite (Hnone eq_refl). split; [|split]; simpl.
    + by intros r [= <-].
    + by intros ? ? ?%elem_of_nil.
    + done.
Qed.

Lemma resolver_loop_inv has_pandas schemas st st' :
  resolver_loop has_pandas schemas st = Ok st' →
  resolver_inv st → resolver_inv st'.
Proof using Type*.
  revert st. induction schemas as [|schema rest IH]; intros st; simpl.
  - by intros [= <-].
  - intros H Hinv. apply bind_Ok in H as (st1 & Hstep & Hloop).
    eauto using resolver_step_inv.
Qed.

Lemma _determine_schemas_to_compare_Ok schemas ignore_pandas ref pending :
  _determine_schemas_to_compare schemas ignore_pandas = Ok (ref, pending) →
  ∃ st, resolver_loop (_pandas_in_schemas schemas && negb ignore_pandas) schemas
          {| reference := None; null_cols_in_reference := ∅;
             schemas_to_evaluate := [] |} = Ok st
        ∧ reference st = ref ∧ schemas_to_evaluate st = pending.
Proof.
  unfold _determine_schemas_to_compare. intros H.
  apply bind_Ok in H as (st & Hloop & H).
  destruct (_ || _); [|discriminate]. injection H as <- <-. eauto.
Qed.

(** C1. Whatever the input list and the [ignore_pandas] flag, when the
    resolver returns, the set of null columns of the reference it returns is
    a subset of the null-column set paired with every schema of the list it
    returns. *)
Theorem resolver_reference_nulls_subset
    (schemas : list SchemaLike) (ignore_pandas : bool)
    (reference : SchemaWrapper) (pending : list (SchemaWrapper * gset string)) :
  _determine_schemas_to_compare schemas ignore_pandas = Ok (Some reference, pending) →
  ∀ candidate nullCols, (candidate, nullCols) ∈ pending →
    null_columns_of reference ⊆ nullCols.
Proof using Type*.
  intros H candidate nullCols Hin.
  apply _determine_schemas_to_compare_Ok in H as (st & Hloop & Href & <-).
  apply resolver_loop_inv in Hloop as (Hr & Hp & _); [|apply resolver_inv_init].
  etrans; [by apply Hr | by eapply Hp].
Qed.

(** ** The shape of the resolver's result *)

Lemma resolver_step_shape has_pandas st schema st' :
  resolver_step has_pandas st schema = Ok st' →
  is_Some (reference st') ∧
  length (schemas_to_evaluate st') =
    match reference st with
    | Some _ => S (length (schemas_to_evaluate st))
    | None => length (schemas_to_evaluate st)
    end.
Proof.
  unfold resolver_step. intros H.
  apply bind_Ok in H as (w & _ & H).
  apply bind_Ok in H as (current & _ & H). simpl in H.
  destruct (reference st) as [ref|].
  - repeat case_decide;
      try (apply bind_Ok in H as ([r' nr'] & _ & H));
      injection H as <-; simpl;
      (split; [by eexists | rewrite length_app; simpl; lia]).
  - injection H as <-. simpl. split; [by eexists | done].
Qed.

Lemma resolver_loop_shape has_pandas schemas st st' :
  resolver_loop has_pandas schemas st = Ok st' →
  is_Some (reference st) →
  is_Some (reference st') ∧
  length (schemas_to_evaluate st') =
    (length (schemas_to_evaluate st) + length schemas)%nat.
Proof.
  revert st. induction schemas as [|schema rest IH]; intros st; simpl.
  - intros [= <-] ?. split; [done | lia].
  - intros H [ref Href]. apply bind_Ok in H as (st1 & Hstep & Hloop).
    apply resolver_step_shape in Hstep as [Hsome Hlen]. rewrite Href in Hlen.
    apply IH in Hloop as [? ->]; [|done]. split; [done | lia].
Qed.

(** Building a wrapper fails with pyarrow's or Python's own errors, never
    with the module's schema-violation error. *)
Lemma compat_loop_raise cols ix st e :
  compat_loop ix cols st = Raise e → e = ArrowInvalid.
Proof.
  revert ix st. induction cols as [|col cols IH]; intros ix st; simpl; [done|].
  intros [Hstep|(st1 & _ & Hloop)]%bind_Raise; [|eauto].
  destruct st as [schema pm]. unfold compat_step in Hstep.
  destruct ARROW_LARGER_EQ_0130, col as [c|d]; simpl in Hstep; try done.
  case_decide; [|done]. unfold schema_remove in Hstep.
  case_decide; simpl in Hstep; [done | by injection Hstep as <-].
Qed.

Lemma SchemaWrapper_init_value_error s o e :
  SchemaWrapper_init s o = Raise e → value_error e = false.
Proof.
  unfold SchemaWrapper_init, _schema_compat.
  intros [H|(s' & _ & [=])]%bind_Raise.
  destruct (metadata s) as [md|] eqn:Hmd; [|done].
  apply bind_Raise in H as [H|(pm0 & _ & H)].
  { unfold _pandas_meta_from_schema in H. rewrite Hmd in H.
    destruct ARROW_LARGER_EQ_0130; [done|].
    destruct (pandas md); [done | by injection H as <-]. }
  apply bind_Raise in H as [H|(pm & _ & H)].
  { destruct pm0; [done | by injection H as <-]. }
  simpl in H. case_decide; [by injection H as <-|].
  apply bind_Raise in H as [H|([? ?] & _ & [=])].
  by apply compat_loop_raise in H as ->.
Qed.

Lemma not_value_error_schema_violation e :
  value_error e = false → schema_violation e = false.
Proof. by destruct e. Qed.

Lemma SchemaWrapper_init_raise s o e :
  SchemaWrapper_init s o = Raise e → schema_violation e = false.
Proof.
  intros H. by eapply not_value_error_schema_violation, SchemaWrapper_init_value_error.
Qed.

Lemma resolver_first_step_raise has_pandas schema e :
  resolver_step has_pandas resolver_init schema = Raise e →
  schema_violation e = false.
Proof.
  unfold resolver_step.
  intros [H|(w & _ & H)]%bind_Raise.
  { destruct schema as [w|s]; [done|]. by eapply SchemaWrapper_init_raise. }
  apply bind_Raise in H as [H|(current & _ & [=])].
  unfold current_schema in H. destruct has_pandas; [|done].
  destruct (metadata (internal w)) as [md|]; [|by injection H as <-].
  destruct (pandas md); [|by injection H as <-].
  by eapply SchemaWrapper_init_raise.
Qed.

(** C10. For a non-empty list of [n] schemas from which the resolver
    returns, the reference is not [None] and the list of pairs has exactly
    [n - 1] entries.  For a single schema, [validate_compatible] never raises
    the schema-violation error. *)
Theorem resolver_result_shape
    (schemas : list SchemaLike) (ignore_pandas : bool)
    (ref : option SchemaWrapper) (pending : list (SchemaWrapper * gset string)) :
  schemas ≠ [] →
  _determine_schemas_to_compare schemas ignore_pandas = Ok (ref, pending) →
  (is_Some ref ∧ length pending = (length schemas - 1)%nat) ∧
  (∀ schema ignore,
     raises_schema_violation (validate_compatible [schema] ignore).1 = false).
Proof.
  intros Hne H. split.
  - apply _determine_schemas_to_compare_Ok in H as (st & Hloop & <- & <-).
    destruct schemas as [|schema rest]; [done|]. simpl in Hloop.
    apply bind_Ok in Hloop as (st1 & Hstep & Hloop).
    apply resolver_step_shape in Hstep as [Hsome Hlen]. simpl in Hlen.
    apply resolver_loop_shape in Hloop as [? ->]; [|done].
    split; [done | simpl; lia].
  - clear. intros schema ignore.
    unfold validate_compatible, _determine_schemas_to_compare.
    set (hp := _pandas_in_schemas [schema] && negb ignore). simpl.
    fold resolver_init.
    destruct (resolver_step hp resolver_init schema) as [st|e] eqn:Hstep; simpl.
    + pose proof Hstep as Hshape.
      apply resolver_step_shape in Hshape as [[r Hr] Hlen]. simpl in Hlen.
      destruct (schemas_to_evaluate st); [|done]. rewrite Hr. simpl.
      destruct (with_origin r (origin r)) as [r'|e] eqn:Hwo; simpl; [done|].
      by eapply SchemaWrapper_init_raise.
    + by eapply resolver_first_step_raise.
Qed.

(** C9. On the empty list [validate_compatible] returns [None] and logs
    nothing, [validate_shared_columns] returns with nothing recorded in
    [seen], and the resolver returns [(None, [])] without an iteration that
    enters the healing branch. *)
Theorem empty_input (ignore_pandas : bool) :
  validate_compatible [] ignore_pandas = (Ok None, []) ∧
  validate_shared_columns [] ignore_pandas = Ok tt ∧
  shared_columns_loop (_pandas_in_schemas [] && negb ignore_pandas) [] ∅ = Ok ∅ ∧
  _determine_schemas_to_compare [] ignore_pandas = Ok (None, []) ∧
  healing_runs (_pandas_in_schemas [] && negb ignore_pandas) [] resolver_init = 0%nat.
Proof. repeat split. Qed.

(** ** normalize_type *)

Lemma substring_0_app s t :
  String.substring 0 (String.length s) (s +:+ t) = s.
Proof.
  induction s as [|c s IH]; simpl.
  - by destruct t.
  - by rewrite IH.
Qed.

Lemma length_app_bracket s :
  String.length (s +:+ "]") = S (String.length s).
Proof. induction s as [|c s IH]; simpl; [done | by rewrite IH]. Qed.

(** Slicing the tag that the list case builds gives back the inner tag. *)
Lemma slice_list_tag_format inner :
  slice_list_tag (Some ("list[" +:+ (inner +:+ "]"))) = Ok (Some inner).
Proof.
  unfold slice_list_tag. do 2 f_equal.
  change (String.length ("list[" +:+ (inner +:+ "]")))
    with (5 + String.length (inner +:+ "]"))%nat.
  rewrite length_app_bracket.
  replace (5 + S (String.length inner) - 1 - 5)%nat with (String.length inner) by lia.
  change (String.substring 5 (String.length inner) ("list[" +:+ (inner +:+ "]")))
    with (String.substring 0 (String.length inner) (inner +:+ "]")).
  apply substring_0_app.
Qed.

Lemma format_Some s : format (Some s) = s.
Proof. done. Qed.

Lemma normalize_type_list v t_pd t_np md :
  normalize_type (list_ v) t_pd t_np md =
  (t_pd_inner ← slice_list_tag t_pd;
   '(t_pa2, t_pd2, t_np2, metadata2) ← normalize_type v t_pd_inner None None;
   Ok (list_ t_pa2, Some ("list[" +:+ (format t_pd2 +:+ "]")), Some "object", None)).
Proof. done. Qed.

(** Normalising a normalised type under its own tag changes neither. *)
Lemma normalize_type_tag_stable t_pa t_pd t_np md t' pd' np' md' :
  normalize_type t_pa t_pd t_np md = Ok (t', pd', np', md') →
  ∃ pd2 np2 md2,
    normalize_type t' (Some (format pd')) None None = Ok (t', pd2, np2, md2) ∧
    format pd2 = format pd'.
Proof.
  revert t_pd t_np md t' pd' np' md'.
  induction t_pa as [ | | | | | | | | | | | | | | | | | u tz | v IH | i _ v IH o];
    intros t_pd t_np md t' pd' np' md' H; simpl in H;
    try (injection H as <- <- <- <-; simpl; by eauto).
  - apply bind_Ok in H as (inner & Hslice & H).
    apply bind_Ok in H as ([[[t3 pd3] np3] md3] & Hv & [= <- <- <- <-]).
    apply IH in Hv as (pd4 & np4 & md4 & Hv & Hfmt).
    rewrite normalize_type_list, format_Some, slice_list_tag_format.
    simpl. rewrite Hv. simpl. rewrite Hfmt. eauto.
  - destruct ARROW_LARGER_EQ_0141; by eapply IH.
Qed.

(** C7. [normalize_type] is idempotent: applied to the tuple it returned,
    it returns that tuple, lists nested to any depth included. *)
Theorem normalize_type_idempotent
    (t_pa : DataType) (t_pd t_np metadata : option string)
    (t' : DataType) (pd' np' md' : option string) :
  normalize_type t_pa t_pd t_np metadata = Ok (t', pd', np', md') →
  normalize_type t' pd' np' md' = Ok (t', pd', np', md').
Proof.
  revert t_pd t_np metadata t' pd' np' md'.
  induction t_pa as [ | | | | | | | | | | | | | | | | | u tz | v IH | i _ v IH o];
    intros t_pd t_np md t' pd' np' md' H; simpl in H;
    try (by injection H as <- <- <- <-).
  - apply bind_Ok in H as (inner & Hslice & H).
    apply bind_Ok in H as ([[[t3 pd3] np3] md3] & Hv & [= <- <- <- <-]).
    apply normalize_type_tag_stable in Hv as (pd4 & np4 & md4 & Hv & Hfmt).
    rewrite normalize_type_list, slice_list_tag_format.
    simpl. rewrite Hv. simpl. by rewrite Hfmt.
  - destruct ARROW_LARGER_EQ_0141; by eapply IH.
Qed.

(** ** Serialisation round trip *)



(** ** Wrappers the constructor returns *)

Lemma filter_length_delete {A} (P : A → Prop) `{∀ x, Decision (P x)}
    (l : list A) (i : nat) (x : A) :
  l !! i = Some x →
  length (filter P (delete i l)) =
    (length (filter P l) - (if decide (P x) then 1 else 0))%nat.
Proof.
  revert i. induction l as [|y l IH]; intros [|i] Hi; simpl in *; try done.
  - injection Hi as ->. rewrite filter_cons.
    destruct (decide (P x)); simpl; lia.
  - rewrite !filter_cons. specialize (IH i Hi).
    destruct (decide (P y)); simpl; [|done].
    rewrite IH. destruct (decide (P x)); [|lia].
    assert (x ∈ filter P l) as Hin.
    { apply list_elem_of_filter. split; [done|]. by eapply list_elem_of_lookup_2. }
    destruct (filter P l); [by apply elem_of_nil in Hin | simpl; lia].
Qed.

Lemma filter_length_insert {A} (P : A → Prop) `{∀ x, Decision (P x)}
    (l : list A) (i : nat) (x y : A) :
  l !! i = Some x → (P x ↔ P y) →
  length (filter P (<[i:=y]> l)) = length (filter P l).
Proof. clear_env.
  revert i. induction l as [|z l IH]; intros [|i] Hi Hxy; simpl in *; try done.
  - injection Hi as ->. rewrite !filter_cons.
    destruct (decide (P x)), (decide (P y)); simpl; tauto || done.
  - rewrite !filter_cons. specialize (IH i Hi Hxy).
    destruct (decide (P z)); simpl; by rewrite IH.
Qed.

(** [get_field_index] answers [-1] exactly when the name does not occur
    once. *)
Lemma get_field_index_neg s c :
  get_field_index s c < 0 ↔
  length (filter (λ f, name f = c) (fields s)) ≠ 1%nat.
Proof.
  rewrite <- (field_indices_length c 0).
  destruct (get_field_index_range s c) as [Hm|Hr].
  - rewrite Hm. split; [|lia]. intros _. unfold get_field_index in Hm.
    pose proof (field_indices_spec c 0 (fields s)) as Hspec.
    destruct (field_indices c 0 (fields s)) as [|i' [|? ?]] eqn:Hidx; [done | | done].
    destruct (proj1 (Hspec i') (list_elem_of_here _ _)) as (k & f & _ & _ & ->). lia.
  - split; [lia|]. intros Hlen. exfalso. apply Hlen.
    unfold get_field_index in Hr.
    destruct (field_indices c 0 (fields s)) as [|i' [|? ?]]; [lia | done | lia].
Qed.

Lemma index_settled_ext s s' col :
  (∀ c, get_field_index s c < 0 → get_field_index s' c < 0) →
  index_settled s col → index_settled s' col.
Proof.
  unfold index_settled. intros Hext.
  destruct ARROW_LARGER_EQ_0130, col; auto.
Qed.

Lemma compat_noop_ext s s' :
  metadata s' = metadata s →
  (∀ c, get_field_index s c < 0 → get_field_index s' c < 0) →
  compat_noop s → compat_noop s'.
Proof.
  unfold compat_noop. intros -> Hext.
  destruct (metadata s) as [md|]; [|done].
  intros (Hother & pm & Hpm & Hlen & Hall).
  split; [done|]. exists pm. split; [done|]. split; [done|].
  eapply Forall_impl; [exact Hall|]. intros col. by apply index_settled_ext.
Qed.

Lemma compat_loop_settled cols ix s pm :
  Forall (index_settled s) cols → compat_loop ix cols (s, pm) = Ok (s, pm).
Proof.
  revert ix. induction cols as [|col cols IH]; intros ix Hall; [done|].
  apply Forall_cons in Hall as [Hcol Hall]. cbn [compat_loop].
  assert (compat_step ix col (s, pm) = Ok (s, pm)) as ->; [|by apply IH].
  unfold compat_step, index_settled in *.
  destruct ARROW_LARGER_EQ_0130, col as [c|d]; try done.
  by rewrite decide_False by lia.
Qed.

Lemma compat_noop_fix s : compat_noop s → _schema_compat s = Ok s.
Proof.
  unfold compat_noop, _schema_compat, _pandas_meta_from_schema.
  destruct s as [fs [md|]]; simpl; [|done].
  intros (Hother & pm & Hpm & Hlen & Hall).
  assert ((if ARROW_LARGER_EQ_0130 then Ok (pandas md)
           else match pandas md with
                | Some pm => Ok (Some pm)
                | None => Raise KeyError
                end) = Ok (Some pm)) as ->.
  { rewrite Hpm. by destruct ARROW_LARGER_EQ_0130. }
  simpl. rewrite decide_False by lia.
  rewrite compat_loop_settled by done. simpl.
  unfold schema_add_pandas, schema_remove_metadata. simpl.
  destruct md as [p o]. simpl in *. by subst.
Qed.

Lemma get_field_index_deleted s c i :
  get_field_index s c = i → i >= 0 →
  get_field_index {| fields := delete (Z.to_nat i) (fields s);
                     metadata := metadata s |} c < 0.
Proof.
  intros Hi Hge. apply get_field_index_neg. simpl.
  destruct (get_field_index_found s c i Hi Hge) as (_ & (f & Hf & Hname) & _).
  rewrite (filter_length_delete _ _ _ _ Hf). rewrite decide_True by done.
  assert (¬ get_field_index s c < 0) as Hn by lia.
  rewrite get_field_index_neg in Hn.
  destruct (decide (length (filter (λ f, name f = c) (fields s)) = 1%nat)) as [->|]; done.
Qed.

Lemma compat_step_noop ix col s pm s1 pm1 :
  compat_step ix col (s, pm) = Ok (s1, pm1) →
  index_columns pm = [col] → ix = 0%nat →
  metadata s1 = metadata s ∧
  (length (index_columns pm1) ≤ 1)%nat ∧
  Forall (index_settled {| fields := fields s1; metadata := None |})
         (index_columns pm1).
Proof.
  unfold compat_step, index_settled. intros H Hcols ->.
  destruct ARROW_LARGER_EQ_0130, col as [c|d]; simpl in H.
  - case_decide as Hge.
    + apply bind_Ok in H as (s' & Hrem & [= <- <-]).
      unfold schema_remove in Hrem. case_decide; [|done]. injection Hrem as <-.
      rewrite Hcols. simpl. split; [done|]. split; [lia|].
      apply Forall_singleton.
      by apply (get_field_index_deleted s c _ eq_refl).
    + injection H as <- <-. rewrite Hcols. split; [done|]. split; [simpl; lia|].
      apply Forall_singleton. unfold get_field_index in *. simpl. lia.
  - injection H as <- <-. rewrite Hcols. split; [done|]. split; [simpl; lia|].
    by apply Forall_singleton.
  - injection H as <- <-. rewrite Hcols. split; [done|]. split; [simpl; lia|].
    by apply Forall_singleton.
  - injection H as <- <-. rewrite Hcols. simpl. split; [done|]. split; [lia|].
    by apply Forall_singleton.
Qed.

(** [_schema_compat] is idempotent. *)
Lemma _schema_compat_noop s s' : _schema_compat s = Ok s' → compat_noop s'.
Proof.
  unfold _schema_compat.
  destruct (metadata s) as [md|] eqn:Hmd.
  2:{ intros [= <-]. unfold compat_noop. by rewrite Hmd. }
  intros H. apply bind_Ok in H as (pm0 & _ & H).
  apply bind_Ok in H as (pm & _ & H). simpl in H.
  case_decide as Hlen; [done|].
  apply bind_Ok in H as ([s1 pm1] & Hloop & [= <-]).
  unfold compat_noop. simpl. split; [done|]. exists pm1. split; [done|].
  destruct (index_columns pm) as [|col [|? ?]] eqn:Hcols; [| |simpl in Hlen; lia].
  - injection Hloop as <- <-. rewrite Hcols. split; [simpl; lia | done].
  - simpl in Hloop. apply bind_Ok in Hloop as ([s2 pm2] & Hstep & [= <- <-]).
    apply compat_step_noop in Hstep as (_ & ? & Hall); [|done..].
    split; [done|]. eapply Forall_impl; [exact Hall|].
    intros c. by apply index_settled_ext.
Qed.

Lemma constructed_noop w : constructed w ↔ compat_noop (internal w).
Proof.
  unfold constructed, SchemaWrapper_init. split.
  - intros H. apply bind_Ok in H as (s' & Hc & [= Hw]).
    destruct w as [s o]. simpl in *. injection Hw as ->.
    by eapply _schema_compat_noop.
  - intros H%compat_noop_fix. rewrite H. by destruct w.
Qed.

Lemma SchemaWrapper_init_constructed s o w :
  SchemaWrapper_init s o = Ok w → constructed w.
Proof.
  unfold SchemaWrapper_init. intros H.
  apply bind_Ok in H as (s' & Hc & [= <-]).
  apply constructed_noop. simpl. by eapply _schema_compat_noop.
Qed.

Lemma SchemaWrapper_init_noop s o :
  compat_noop s → SchemaWrapper_init s o = Ok {| internal := s; origin := o |}.
Proof. intros H%compat_noop_fix. unfold SchemaWrapper_init. by rewrite H. Qed.

Lemma remove_constructed w n :
  constructed w → get_field_index (internal w) n >= 0 →
  remove w (get_field_index (internal w) n) =
    Ok {| internal :=
            {| fields := delete (Z.to_nat (get_field_index (internal w) n))
                                (fields (internal w));
               metadata := metadata (internal w) |};
          origin := origin w |}.
Proof.
  intros Hw%constructed_noop Hge.
  destruct (get_field_index_found (internal w) n _ eq_refl Hge)
    as (Hrange & (f & Hf & Hname) & _).
  unfold remove, schema_remove. rewrite decide_True by done. simpl.
  apply SchemaWrapper_init_noop.
  eapply compat_noop_ext; [| |exact Hw]; [done|].
  intros c Hc. apply get_field_index_neg. apply get_field_index_neg in Hc.
  simpl. rewrite (filter_length_delete _ _ _ _ Hf).
  destruct (decide (name f = c)) as [<-|]; [|lia].
  exfalso. subst n. assert (¬ get_field_index (internal w) (name f) < 0) as Hn by lia.
  by apply Hn, get_field_index_neg.
Qed.

Lemma set_constructed w n f :
  constructed w → get_field_index (internal w) n >= 0 → name f = n →
  set w (get_field_index (internal w) n) (Some f) =
    Ok {| internal :=
            {| fields := <[Z.to_nat (get_field_index (internal w) n) := f]>
                           (fields (internal w));
               metadata := metadata (internal w) |};
          origin := origin w |}.
Proof.
  intros Hw%constructed_noop Hge Hfn.
  destruct (get_field_index_found (internal w) n _ eq_refl Hge)
    as (Hrange & (g & Hg & Hname) & _).
  unfold set. rewrite schema_set_by_name, decide_True by done. simpl.
  apply SchemaWrapper_init_noop.
  eapply compat_noop_ext; [| |exact Hw]; [done|].
  intros c. rewrite !get_field_index_neg. simpl.
  rewrite (filter_length_insert _ _ _ g f Hg); [done|]. by rewrite Hfn, Hname.
Qed.

Lemma remove_metadata_Ok w :
  remove_metadata w =
    Ok {| internal := schema_remove_metadata (internal w);
          origin := set_map (λ s, s +:+ "__no_metadata") (origin w) |}.
Proof. done. Qed.

Lemma with_origin_constructed w o :
  constructed w → with_origin w o = Ok {| internal := internal w; origin := o |}.
Proof. intros Hw%constructed_noop. by apply SchemaWrapper_init_noop. Qed.

(** ** Computations that log *)

Lemma Logged_bind_lift_Ok {A B} (a : A) (k : A → Logged B) :
  lift (Ok a) ≫= k = k a.
Proof. unfold mbind, Logged_bind, lift. simpl. by destruct (k a). Qed.

Lemma Logged_bind_fst {A B} (m : Logged A) (k : A → Logged B) :
  (m ≫= k).1 = match m.1 with
               | Ok a => (k a).1
               | Raise e => Raise e
               end.
Proof. unfold mbind, Logged_bind. by destruct m.1. Qed.

(** ** _strip_columns_from_schema *)

Lemma strip_loop_refused schema field_names stripped :
  constructed stripped →
  names (internal stripped) ⊆ names (internal schema) →
  (∃ n, n ∈ field_names ∧ n ∉ names (internal schema)) →
  ∃ n, n ∈ field_names ∧
       strip_loop schema field_names stripped =
         (Ok schema, [Warning_unexpected_field n schema]).
Proof.
  revert stripped.
  induction field_names as [|name0 rest IH]; intros stripped Hc Hsub (n & Hn & Habs).
  { by apply elem_of_nil in Hn. }
  cbn [strip_loop].
  destruct (decide (get_field_index (internal stripped) name0 >= 0)) as [Hge|Hneg].
  - rewrite (remove_constructed _ _ Hc Hge), Logged_bind_lift_Ok.
    destruct (get_field_index_found _ name0 _ eq_refl Hge) as (? & (f & Hf & Hname) & _).
    destruct (IH {| internal :=
                      {| fields := delete (Z.to_nat (get_field_index (internal stripped) name0))
                                          (fields (internal stripped));
                         metadata := metadata (internal stripped) |};
                    origin := origin stripped |})
      as (n' & Hn' & Hres).
    + apply SchemaWrapper_init_constructed with
        (s := {| fields := delete (Z.to_nat (get_field_index (internal stripped) name0))
                                  (fields (internal stripped));
                 metadata := metadata (internal stripped) |})
        (o := origin stripped).
      rewrite <- (remove_constructed _ _ Hc Hge). unfold remove, schema_remove.
      by rewrite decide_True by done.
    + intros x Hx. apply Hsub. unfold names in *. simpl in Hx.
      apply list_elem_of_fmap in Hx as (g & -> & Hg).
      apply list_elem_of_fmap. exists g. split; [done|].
      by eapply list_elem_of_delete_inv.
    + exists n. split; [|done]. apply elem_of_cons in Hn as [->|]; [|done].
      exfalso. apply Habs, Hsub. unfold names. apply list_elem_of_fmap.
      exists f. split; [done|]. by eapply list_elem_of_lookup_2.
    + exists n'. split; [by right | done].
  - exists name0. split; [by left | done].
Qed.

(** C4. When a name in the list is not a field of the schema,
    [_strip_columns_from_schema] returns the schema it was given, with no
    field removed, and logs one warning; it does not raise. *)
Theorem strip_refused_returns_original
    (schema : SchemaWrapper) (field_names : list string) :
  constructed schema →
  (∃ n, n ∈ field_names ∧ n ∉ names (internal schema)) →
  ∃ n, n ∈ field_names ∧
       _strip_columns_from_schema schema field_names =
         (Ok schema, [Warning_unexpected_field n schema]).
Proof. intros Hc Habs. by apply strip_loop_refused. Qed.

(** ** validate_compatible: origins *)

Lemma fold_left_union (l : list (gset string)) (a : gset string) :
  fold_left (∪) l a = a ∪ ⋃ l.
Proof.
  revert a. induction l as [|x l IH]; intros a; simpl.
  - solve_set.
  - rewrite IH. solve_set.
Qed.

Lemma strip_loop_raise schema field_names stripped e :
  (strip_loop schema field_names stripped).1 = Raise e → value_error e = false.
Proof.
  revert stripped. induction field_names as [|n rest IH]; intros stripped; [done|].
  cbn [strip_loop]. case_decide; [|done].
  rewrite Logged_bind_fst. simpl.
  destruct (remove stripped _) as [w|e'] eqn:Hrem.
  - apply IH.
  - intros [= <-]. unfold remove in Hrem.
    apply bind_Raise in Hrem as [Hrem|(s' & _ & Hinit)].
    + unfold schema_remove in Hrem. case_decide; [done|]. by injection Hrem as <-.
    + by eapply SchemaWrapper_init_value_error.
Qed.

Lemma unpack_first_raise parts e :
  unpack_first parts = Raise e → schema_violation e = false.
Proof.
  destruct parts as [|a [|b [|c l]]]; simpl; intros H;
    first [discriminate | by injection H as <-].
Qed.

Lemma _diff_schemas_raise first second e :
  _diff_schemas first second = Raise e → schema_violation e = false.
Proof.
  unfold _diff_schemas. intros H.
  repeat match type of H with
  | _ ≫= _ = Raise _ => apply bind_Raise in H as [H|(? & _ & H)]
  end; try done.
  - by eapply unpack_first_raise.
  - by eapply unpack_first_raise.
  - unfold _pandas_meta_from_schema in H.
    destruct ARROW_LARGER_EQ_0130; [done|].
    destruct (metadata _) as [md|]; [|by injection H as <-].
    destruct (pandas md); [done | by injection H as <-].
  - unfold _pandas_meta_from_schema in H.
    destruct ARROW_LARGER_EQ_0130; [done|].
    destruct (metadata _) as [md|]; [|by injection H as <-].
    destruct (pandas md); [done | by injection H as <-].
Qed.

(** A schema violation raised for one pair names the origins of that pair's
    schema and of the resolver's reference. *)
Lemma compare_step_violation ref c nc os or d r :
  (compare_step (Some ref) c nc).1 = Raise (ValueError (SchemaViolation os or d r)) →
  os = _fmt_origin (origin c) ∧ or = _fmt_origin (origin ref).
Proof.
  unfold compare_step, deref. rewrite Logged_bind_lift_Ok.
  unfold _strip_columns_from_schema.
  rewrite Logged_bind_fst.
  destruct (strip_loop ref (set_iter nc) ref).1 as [s1|e] eqn:Hs1.
  2:{ intros [= ->]. by apply strip_loop_raise in Hs1. }
  rewrite remove_metadata_Ok, Logged_bind_lift_Ok, Logged_bind_fst.
  destruct (strip_loop c (set_iter nc) c).1 as [s2|e] eqn:Hs2.
  2:{ intros [= ->]. by apply strip_loop_raise in Hs2. }
  rewrite remove_metadata_Ok, Logged_bind_lift_Ok.
  destruct (ne _ _); [|done].
  destruct (_diff_schemas ref c) as [diff|e] eqn:Hdiff.
  - rewrite Logged_bind_lift_Ok. simpl. by intros [= -> -> _ _].
  - simpl. intros [= ->]. by apply _diff_schemas_raise in Hdiff.
Qed.

Lemma compare_loop_violation ref pending os or d r :
  (compare_loop (Some ref) pending).1 = Raise (ValueError (SchemaViolation os or d r)) →
  ∃ c nc, (c, nc) ∈ pending ∧
          os = _fmt_origin (origin c) ∧ or = _fmt_origin (origin ref).
Proof.
  induction pending as [|[c nc] rest IH]; [done|].
  cbn [compare_loop]. rewrite Logged_bind_fst.
  destruct (compare_step (Some ref) c nc).1 as [[]|e] eqn:Hstep.
  - intros (c' & nc' & Hin & Heq)%IH. exists c', nc'. split; [by right | done].
  - intros [= ->]. apply compare_step_violation in Hstep.
    exists c, nc. split; [by left | done].
Qed.

(** The reference the resolver's loop carries is a constructed wrapper. *)
Lemma heal_loop_constructed cols current ref nr r' nr' :
  heal_loop cols current ref nr = Ok (r', nr') → constructed ref → constructed r'.
Proof.
  revert ref nr. induction cols as [|col cols IH]; intros ref nr; simpl.
  - by intros [= <- <-].
  - intros H _. apply bind_Ok in H as (ref1 & Hswap & H).
    apply bind_Ok in H as (nr1 & _ & H).
    eapply IH; [exact H|].
    unfold _swap_fields_by_name, set in Hswap.
    apply bind_Ok in Hswap as (s' & _ & Hinit).
    by eapply SchemaWrapper_init_constructed.
Qed.

Lemma as_wrapper_constructed schema w :
  as_wrapper schema = Ok w → constructed_like schema → constructed w.
Proof.
  destruct schema as [w'|s]; simpl.
  - by intros [= <-].
  - intros H _. by eapply SchemaWrapper_init_constructed.
Qed.

Lemma current_schema_constructed has_pandas w current :
  current_schema has_pandas w = Ok current → constructed w → constructed current.
Proof.
  unfold current_schema. destruct has_pandas; [|by intros [= <-]].
  destruct (metadata (internal w)) as [md|]; [|done].
  destruct (pandas md); [|done].
  intros H _. by eapply SchemaWrapper_init_constructed.
Qed.

Definition resolver_constructed (st : ResolverState) : Prop :=
  (∀ r, reference st = Some r → constructed r) ∧
  Forall (λ p, constructed p.1) (schemas_to_evaluate st).

Lemma resolver_step_constructed has_pandas st schema st' :
  resolver_step has_pandas st schema = Ok st' →
  constructed_like schema →
  resolver_constructed st → resolver_constructed st'.
Proof.
  unfold resolver_step. intros H Hlike [Href Hpend].
  apply bind_Ok in H as (w & Hw & H).
  apply bind_Ok in H as (current & Hcur & H). simpl in H.
  assert (constructed current) as Hc
    by eauto using as_wrapper_constructed, current_schema_constructed.
  destruct (reference st) as [ref|] eqn:Eref.
  - specialize (Href ref eq_refl).
    repeat case_decide;
      try (apply bind_Ok in H as ([r' nr'] & Hheal & H);
           apply heal_loop_constructed in Hheal; [|done]);
      injection H as <-; (split; simpl;
        [by intros r [= <-] | apply Forall_app; split; [done | by apply Forall_singleton]]).
  - injection H as <-. split; simpl; [by intros r [= <-] | done].
Qed.

Lemma resolver_loop_constructed has_pandas schemas st st' :
  resolver_loop has_pandas schemas st = Ok st' →
  Forall constructed_like schemas →
  resolver_constructed st → resolver_constructed st'.
Proof.
  revert st. induction schemas as [|schema rest IH]; intros st; simpl.
  - by intros [= <-].
  - intros H [Hs Hrest]%Forall_cons Hinv.
    apply bind_Ok in H as (st1 & Hstep & Hloop).
    eauto using resolver_step_constructed.
Qed.

(** C5. When the resolver returns a reference and every comparison passes,
    [validate_compatible] returns the reference's schema with, as origin,
    the union of the reference's origin and the origins of the schemas in the
    resolver's list.  The union is taken after the comparisons: a schema
    violation raised by one of them names the origin of the pair's schema and
    the origin the resolver's reference has. *)
Theorem validate_compatible_origin
    (schemas : list SchemaLike) (ignore_pandas : bool)
    (ref : SchemaWrapper) (pending : list (SchemaWrapper * gset string)) :
  Forall constructed_like schemas →
  _determine_schemas_to_compare schemas ignore_pandas = Ok (Some ref, pending) →
  ((compare_loop (Some ref) pending).1 = Ok tt →
   (validate_compatible schemas ignore_pandas).1 =
     Ok (Some {| internal := internal ref;
                 origin := origin ref ∪ ⋃ (origin ∘ fst <$> pending) |})) ∧
  (∀ os or d r,
     (validate_compatible schemas ignore_pandas).1 =
       Raise (ValueError (SchemaViolation os or d r)) →
     ∃ c nc, (c, nc) ∈ pending ∧
             os = _fmt_origin (origin c) ∧ or = _fmt_origin (origin ref)).
Proof.
  intros Hlike H.
  assert (constructed ref) as Hc.
  { apply _determine_schemas_to_compare_Ok in H as (st & Hloop & Href & _).
    apply resolver_loop_constructed in Hloop as [Hr _]; [by apply Hr | done |].
    split; [done | by apply Forall_nil]. }
  unfold validate_compatible. rewrite H, Logged_bind_lift_Ok.
  rewrite Logged_bind_fst.
  rewrite (with_origin_constructed _ _ Hc), Logged_bind_lift_Ok, fold_left_union.
  split.
  - by intros ->.
  - intros os or d r.
    destruct (compare_loop (Some ref) pending).1 as [[]|e] eqn:Hcmp; [done|].
    intros [= ->]. by apply compare_loop_violation in Hcmp.
Qed.

(** ** The mixed-descriptor error *)

Lemma has_pandas_key_spec s :
  has_pandas_key s =
  match metadata s with
  | Some md => match pandas md with Some _ => true | None => false end
  | None => false
  end.
Proof.
  unfold has_pandas_key. destruct (metadata s) as [md|]; [|done].
  destruct (pandas md); [by apply bool_decide_eq_true | ].
  apply bool_decide_eq_false. by intros [? ?].
Qed.

Lemma _schema_compat_keeps_pandas s s' :
  _schema_compat s = Ok s' → has_pandas_key s' = false → metadata s = None.
Proof.
  unfold _schema_compat. destruct (metadata s) as [md|]; [|done].
  intros H. apply bind_Ok in H as (pm0 & _ & H).
  apply bind_Ok in H as (pm & _ & H). simpl in H.
  case_decide; [done|].
  by apply bind_Ok in H as ([s1 pm1] & _ & [= <-]).
Qed.

Lemma current_schema_raise has_pandas w e :
  current_schema has_pandas w = Raise e →
  value_error e = true →
  e = ValueError PandasNonPandas ∧ has_pandas_key (internal w) = false.
Proof.
  unfold current_schema, has_pandas_key. destruct has_pandas; [|done].
  destruct (metadata (internal w)) as [md|]; [|by intros [= <-]].
  destruct (pandas md); [|by intros [= <-]].
  intros H%SchemaWrapper_init_value_error. congruence.
Qed.

Lemma heal_loop_raise cols current ref nr e :
  heal_loop cols current ref nr = Raise e → value_error e = false.
Proof.
  revert ref nr. induction cols as [|col cols IH]; intros ref nr; simpl; [done|].
  intros [H|(ref1 & _ & H)]%bind_Raise.
  - unfold _swap_fields_by_name, set in H.
    apply bind_Raise in H as [H|(s' & _ & H)].
    + rewrite schema_set_by_name in H.
      destruct (field_by_name _ _); [|by injection H as <-].
      case_decide; [done | by injection H as <-].
    + by eapply SchemaWrapper_init_value_error.
  - apply bind_Raise in H as [H|(nr1 & _ & H)]; [|eauto].
    unfold set_remove in H. case_decide; [done | by injection H as <-].
Qed.

Lemma resolver_step_raise has_pandas st schema e :
  resolver_step has_pandas st schema = Raise e →
  value_error e = true →
  e = ValueError PandasNonPandas ∧ has_pandas_key (pa_schema schema) = false.
Proof.
  unfold resolver_step. intros H Hve.
  apply bind_Raise in H as [H|(w & Hw & H)].
  { destruct schema as [w|s]; [done|].
    apply SchemaWrapper_init_value_error in H. congruence. }
  apply bind_Raise in H as [H|(current & _ & H)].
  - apply current_schema_raise in H as [-> Hkey]; [|done]. split; [done|].
    destruct schema as [w'|s]; simpl in *; [by injection Hw as ->|].
    unfold SchemaWrapper_init in Hw. apply bind_Ok in Hw as (s' & Hc & [= <-]).
    apply _schema_compat_keeps_pandas in Hc; [|done].
    unfold has_pandas_key. by rewrite Hc.
  - simpl in H. destruct (reference st); [|done].
    repeat case_decide; try done;
      apply bind_Raise in H as [H|([? ?] & _ & [=])];
      apply heal_loop_raise in H; congruence.
Qed.

Lemma compare_step_raise ref c nc e :
  (compare_step ref c nc).1 = Raise e → e ≠ ValueError PandasNonPandas.
Proof.
  unfold compare_step, deref. destruct ref as [ref|]; [|simpl; by intros [= <-]].
  rewrite Logged_bind_lift_Ok. unfold _strip_columns_from_schema.
  rewrite Logged_bind_fst.
  destruct (strip_loop ref (set_iter nc) ref).1 as [s1|e1] eqn:Hs1.
  2:{ intros [= ->] ->. by apply strip_loop_raise in Hs1. }
  rewrite remove_metadata_Ok, Logged_bind_lift_Ok, Logged_bind_fst.
  destruct (strip_loop c (set_iter nc) c).1 as [s2|e2] eqn:Hs2.
  2:{ intros [= ->] ->. by apply strip_loop_raise in Hs2. }
  rewrite remove_metadata_Ok, Logged_bind_lift_Ok.
  destruct (ne _ _); [|done].
  destruct (_diff_schemas ref c) as [diff|e'] eqn:Hdiff.
  - rewrite Logged_bind_lift_Ok. simpl. by intros [= <-].
  - simpl. intros [= ->] ->. unfold _diff_schemas in Hdiff.
    repeat match type of Hdiff with
    | _ ≫= _ = Raise _ => apply bind_Raise in Hdiff as [Hdiff|(? & _ & Hdiff)]
    end; try done.
    + by destruct (split _ _) as [|? [|? [|? ?]]] in Hdiff.
    + by destruct (split _ _) as [|? [|? [|? ?]]] in Hdiff.
    + unfold _pandas_meta_from_schema in Hdiff.
      destruct ARROW_LARGER_EQ_0130; [done|].
      destruct (metadata _) as [md|]; [|done]. by destruct (pandas md).
    + unfold _pandas_meta_from_schema in Hdiff.
      destruct ARROW_LARGER_EQ_0130; [done|].
      destruct (metadata _) as [md|]; [|done]. by destruct (pandas md).
Qed.

Lemma compare_loop_raise ref pending e :
  (compare_loop ref pending).1 = Raise e → e ≠ ValueError PandasNonPandas.
Proof.
  induction pending as [|[c nc] rest IH]; [done|].
  cbn [compare_loop]. rewrite Logged_bind_fst.
  destruct (compare_step ref c nc).1 as [[]|e'] eqn:Hstep; [done|].
  intros [= ->]. by eapply compare_step_raise.
Qed.

Lemma resolver_step_lacking st schema :
  has_pandas_key (pa_schema schema) = false →
  is_raise (resolver_step true st schema) = true.
Proof.
  unfold resolver_step. rewrite has_pandas_key_spec. intros Hkey.
  destruct (as_wrapper schema) as [w|e] eqn:Hw; [|done]. rewrite Result_bind_Ok.
  assert (current_schema true w = Raise (ValueError PandasNonPandas)) as ->; [|done].
  unfold current_schema.
  destruct schema as [w'|s]; simpl in *.
  - injection Hw as ->. destruct (metadata (internal w)) as [md|]; [|done].
    by destruct (pandas md).
  - unfold SchemaWrapper_init, _schema_compat, _pandas_meta_from_schema in Hw.
    destruct (metadata s) as [md|] eqn:Hmd.
    + exfalso. destruct (pandas md) as [pm|] eqn:Hpm; [done|].
      destruct ARROW_LARGER_EQ_0130; simpl in Hw; rewrite ?Hpm in Hw; done.
    + injection Hw as <-. simpl. by rewrite Hmd.
Qed.

Lemma resolver_loop_lacking schemas st :
  (∃ s, s ∈ schemas ∧ has_pandas_key (pa_schema s) = false) →
  is_raise (resolver_loop true schemas st) = true.
Proof.
  revert st. induction schemas as [|schema rest IH]; intros st (s & Hin & Hkey).
  { by apply elem_of_nil in Hin. }
  cbn [resolver_loop].
  destruct (resolver_step true st schema) as [st1|e] eqn:Hstep; [|done].
  rewrite Result_bind_Ok. apply IH. exists s. split; [|done].
  apply elem_of_cons in Hin as [->|]; [|done].
  apply (resolver_step_lacking st) in Hkey. by rewrite Hstep in Hkey.
Qed.

Lemma check_columns_raise schema cols seen e :
  check_columns schema cols seen = Raise e → e ≠ ValueError PandasNonPandas.
Proof.
  revert seen. induction cols as [|col rest IH]; intros seen; simpl; [done|].
  intros [H|(f & _ & H)]%bind_Raise.
  - unfold getitem in H.
    repeat case_decide; try (by injection H as <-);
      destruct (_ !! _) in H; first [discriminate | by injection H as <-].
  - destruct (seen !! col); [|eauto]. case_decide; [by injection H as <- | eauto].
Qed.

Lemma shared_columns_loop_lacking schemas seen :
  (∃ s, s ∈ schemas ∧ has_pandas_key (pa_schema s) = false) →
  is_raise (shared_columns_loop true schemas seen) = true.
Proof.
  revert seen. induction schemas as [|schema rest IH]; intros seen (s & Hin & Hkey).
  { by apply elem_of_nil in Hin. }
  cbn [shared_columns_loop].
  destruct (shared_columns true (pa_schema schema)) as [cols|e] eqn:Hcols; [|done].
  rewrite Result_bind_Ok.
  destruct (check_columns _ cols seen) as [seen'|e]; [|done].
  rewrite Result_bind_Ok. apply IH. exists s. split; [|done].
  apply elem_of_cons in Hin as [->|]; [|done].
  exfalso. rewrite has_pandas_key_spec in Hkey. unfold shared_columns in Hcols.
  destruct (metadata (pa_schema schema)) as [md|]; [|done].
  by destruct (pandas md).
Qed.

(** A schema without pandas metadata that can be wrapped stops the
    resolver with the mixed-descriptor error, and nothing else does. *)
Lemma resolver_step_mixed st schema :
  resolver_step true st schema = Raise (ValueError PandasNonPandas) ↔
  has_pandas_key (pa_schema schema) = false ∧ is_raise (as_wrapper schema) = false.
Proof.
  split.
  - intros H. split; [by apply resolver_step_raise in H as [_ ?]|].
    unfold resolver_step in H.
    destruct (as_wrapper schema) as [w|e] eqn:Hw; [done|].
    simpl in H. injection H as ->.
    destruct schema as [w|s]; [done|].
    by apply SchemaWrapper_init_value_error in Hw.
  - intros [Hkey Hw]. unfold resolver_step.
    rewrite has_pandas_key_spec in Hkey.
    destruct (as_wrapper schema) as [w|e] eqn:Hwrap; [|done].
    rewrite Result_bind_Ok.
    assert (current_schema true w = Raise (ValueError PandasNonPandas)) as ->; [|done].
    unfold current_schema.
    destruct schema as [w'|s]; simpl in *.
    + injection Hwrap as ->. destruct (metadata (internal w)) as [md|]; [|done].
      by destruct (pandas md).
    + unfold SchemaWrapper_init, _schema_compat, _pandas_meta_from_schema in Hwrap.
      destruct (metadata s) as [md|] eqn:Hmd.
      * exfalso. destruct (pandas md) as [pm|] eqn:Hpm; [done|].
        destruct ARROW_LARGER_EQ_0130; simpl in Hwrap; rewrite ?Hpm in Hwrap; done.
      * injection Hwrap as <-. simpl. by rewrite Hmd.
Qed.

Lemma resolver_loop_mixed schemas st :
  resolver_loop true schemas st = Raise (ValueError PandasNonPandas) ↔
  ∃ pre s post, schemas = pre ++ s :: post ∧
    is_raise (resolver_loop true pre st) = false ∧
    has_pandas_key (pa_schema s) = false ∧
    is_raise (as_wrapper s) = false.
Proof.
  revert st. induction schemas as [|schema rest IH]; intros st.
  { split; [done|]. by intros ([|? ?] & ? & ? & ? & _). }
  cbn [resolver_loop].
  destruct (resolver_step true st schema) as [st1|e] eqn:Hstep.
  - rewrite Result_bind_Ok, IH. split.
    + intros (pre & s & post & -> & Hpre & Hkey & Hw).
      exists (schema :: pre), s, post. split; [done|].
      cbn [resolver_loop]. by rewrite Hstep, Result_bind_Ok.
    + intros ([|x pre] & s & post & Heq & Hpre & Hkey & Hw).
      * injection Heq as <- <-.
        pose proof (proj2 (resolver_step_mixed st schema) (conj Hkey Hw)) as Hm.
        congruence.
      * injection Heq as <- ->. exists pre, s, post. split; [done|].
        cbn [resolver_loop] in Hpre. by rewrite Hstep, Result_bind_Ok in Hpre.
  - simpl. split.
    + intros [= ->]. apply resolver_step_mixed in Hstep as [Hkey Hw].
      by exists [], schema, rest.
    + intros ([|x pre] & s & post & Heq & Hpre & Hkey & Hw).
      * injection Heq as <- <-.
        pose proof (proj2 (resolver_step_mixed st schema) (conj Hkey Hw)) as Hm.
        congruence.
      * injection Heq as <- ->. cbn [resolver_loop] in Hpre.
        by rewrite Hstep in Hpre.
Qed.

Lemma validate_compatible_mixed_resolver schemas :
  _pandas_in_schemas schemas = true →
  (validate_compatible schemas false).1 = Raise (ValueError PandasNonPandas) ↔
  resolver_loop true schemas resolver_init = Raise (ValueError PandasNonPandas).
Proof.
  intros Hp. unfold validate_compatible.
  destruct (_determine_schemas_to_compare schemas false)
    as [[ref pending]|e] eqn:Hres.
  - assert (resolver_loop true schemas resolver_init ≠
              Raise (ValueError PandasNonPandas)) as Hne.
    { unfold _determine_schemas_to_compare in Hres. rewrite Hp in Hres.
      simpl in Hres. unfold resolver_init. intros Hr. by rewrite Hr in Hres. }
    split; [|done]. intros H. exfalso. revert H.
    rewrite Logged_bind_lift_Ok, Logged_bind_fst.
    destruct (compare_loop ref pending).1 as [[]|e] eqn:Hcmp.
    + destruct ref as [ref|]; [|done]. rewrite Logged_bind_fst. simpl.
      destruct (with_origin ref _) as [r|e] eqn:Hwo; [done|].
      intros [= ->]. by apply SchemaWrapper_init_value_error in Hwo.
    + intros [= ->]. by apply compare_loop_raise in Hcmp.
  - simpl. unfold _determine_schemas_to_compare in Hres. rewrite Hp in Hres.
    simpl in Hres. unfold resolver_init.
    destruct (resolver_loop true schemas _) as [st|e'] eqn:Hloop.
    + rewrite Result_bind_Ok in Hres. destruct (_ || _); [done|].
      injection Hres as <-. by split.
    + simpl in Hres. injection Hres as ->. by split; intros [= ->].
Qed.

Lemma shared_columns_mixed schema :
  shared_columns true schema = Raise (ValueError PandasNonPandas) ↔
  has_pandas_key schema = false.
Proof.
  rewrite has_pandas_key_spec. unfold shared_columns.
  destruct (metadata schema) as [md|]; [|done].
  by destruct (pandas md).
Qed.

Lemma shared_columns_loop_mixed_iff schemas seen :
  shared_columns_loop true schemas seen = Raise (ValueError PandasNonPandas) ↔
  ∃ pre s post, schemas = pre ++ s :: post ∧
    is_raise (shared_columns_loop true pre seen) = false ∧
    has_pandas_key (pa_schema s) = false.
Proof.
  revert seen. induction schemas as [|schema rest IH]; intros seen.
  { split; [done|]. by intros ([|? ?] & ? & ? & ? & _). }
  cbn [shared_columns_loop].
  destruct (shared_columns true (pa_schema schema)) as [cols|e] eqn:Hcols.
  - assert (has_pandas_key (pa_schema schema) = true) as Hhas.
    { destruct (has_pandas_key (pa_schema schema)) eqn:Hk; [done|].
      apply shared_columns_mixed in Hk. congruence. }
    rewrite Result_bind_Ok.
    destruct (check_columns (pa_schema schema) cols seen) as [seen1|e] eqn:Hchk.
    + rewrite Result_bind_Ok, IH. split.
      * intros (pre & s & post & -> & Hpre & Hkey).
        exists (schema :: pre), s, post. split; [done|].
        cbn [shared_columns_loop]. by rewrite Hcols, Result_bind_Ok, Hchk, Result_bind_Ok.
      * intros ([|x pre] & s & post & Heq & Hpre & Hkey).
        -- injection Heq as <- <-. congruence.
        -- injection Heq as <- ->. exists pre, s, post. split; [done|].
           cbn [shared_columns_loop] in Hpre.
           by rewrite Hcols, Result_bind_Ok, Hchk, Result_bind_Ok in Hpre.
    + simpl. split.
      * intros [= ->]. by apply check_columns_raise in Hchk.
      * intros ([|x pre] & s & post & Heq & Hpre & Hkey).
        -- injection Heq as <- <-. congruence.
        -- injection Heq as <- ->. cbn [shared_columns_loop] in Hpre.
           by rewrite Hcols, Result_bind_Ok, Hchk in Hpre.
  - simpl. split.
    + intros [= ->]. apply shared_columns_mixed in Hcols.
      by exists [], schema, rest.
    + intros ([|x pre] & s & post & Heq & Hpre & Hkey).
      * injection Heq as <- <-. apply shared_columns_mixed in Hkey. congruence.
      * injection Heq as <- ->. cbn [shared_columns_loop] in Hpre.
        by rewrite Hcols in Hpre.
Qed.

(** C8 (amended). With [ignore_pandas] false and pandas metadata on at least
    one schema: [validate_compatible] raises the mixed-descriptor error
    exactly when the list has a schema without pandas metadata that the
    resolver's loop reaches (no iteration for an earlier schema raises) and
    that can be wrapped (the schema is a wrapper, or the wrapper's
    constructor accepts it); [validate_shared_columns] raises it exactly
    when the list has a schema without pandas metadata that its loop
    reaches; and if some schema has no pandas metadata, both validators
    raise. *)
Theorem mixed_descriptor_error (schemas : list SchemaLike) :
  _pandas_in_schemas schemas = true →
  ((validate_compatible schemas false).1 = Raise (ValueError PandasNonPandas) ↔
   ∃ pre s post, schemas = pre ++ s :: post ∧
     is_raise (resolver_loop true pre resolver_init) = false ∧
     has_pandas_key (pa_schema s) = false ∧
     is_raise (as_wrapper s) = false) ∧
  (validate_shared_columns schemas false = Raise (ValueError PandasNonPandas) ↔
   ∃ pre s post, schemas = pre ++ s :: post ∧
     is_raise (shared_columns_loop true pre ∅) = false ∧
     has_pandas_key (pa_schema s) = false) ∧
  ((∃ s, s ∈ schemas ∧ has_pandas_key (pa_schema s) = false) →
   is_raise (validate_compatible schemas false).1 = true ∧
   is_raise (validate_shared_columns schemas false) = true).
Proof.
  intros Hp. split; [|split].
  - by rewrite (validate_compatible_mixed_resolver _ Hp), resolver_loop_mixed.
  - rewrite <- shared_columns_loop_mixed_iff.
    unfold validate_shared_columns. rewrite Hp. simpl.
    destruct (shared_columns_loop true schemas ∅) as [seen|e]; simpl.
    + by split.
    + by split; intros [= ->].
  - intros Hlack. split.
    + unfold validate_compatible, _determine_schemas_to_compare.
      rewrite Hp. simpl.
      pose proof (resolver_loop_lacking schemas
        {| reference := None; null_cols_in_reference := ∅;
           schemas_to_evaluate := [] |} Hlack) as Hr.
      by destruct (resolver_loop true schemas _).
    + unfold validate_shared_columns. rewrite Hp. simpl.
      pose proof (shared_columns_loop_lacking schemas ∅ Hlack) as Hr.
      by destruct (shared_columns_loop true schemas ∅).
Qed.

(** ** Sets as shared objects *)

Lemma load_app_l (h : Store) x (l : Loc) :
  (l < length h)%nat → load (h ++ [x]) l = load h l.
Proof. intros Hl. unfold load. by rewrite lookup_app_l. Qed.

Lemma load_app_new (h : Store) x : load (h ++ [x]) (length h) = x.
Proof. unfold load. by rewrite list_lookup_middle. Qed.

Lemma load_insert_eq (h : Store) (l : Loc) v :
  (l < length h)%nat → load (<[l := v]> h) l = v.
Proof. intros Hl. unfold load. by rewrite list_lookup_insert_eq. Qed.

Lemma load_insert_ne (h : Store) (l l' : Loc) v :
  l ≠ l' → load (<[l := v]> h) l' = load h l'.
Proof. intros Hl. unfold load. by rewrite list_lookup_insert_ne. Qed.

Lemma insert_load (h : Store) (l : Loc) :
  (l < length h)%nat → <[l := load h l]> h = h.
Proof.
  intros Hl. apply list_insert_id. unfold load.
  destruct (lookup_lt_is_Some_2 h l Hl) as [v Hv]. by rewrite Hv.
Qed.

Lemma heal_loop_obj_agrees cols current ref (l : Loc) (h : Store) :
  (l < length h)%nat →
  heal_loop_obj cols current ref l h =
    match heal_loop cols current ref (load h l) with
    | Ok (r, v) => Ok (r, <[l := v]> h)
    | Raise e => Raise e
    end.
Proof.
  clear_env. revert ref h. induction cols as [|col cols IH]; intros ref h Hl.
  { cbn [heal_loop_obj heal_loop]. by rewrite insert_load. }
  cbn [heal_loop_obj heal_loop].
  destruct (_swap_fields_by_name ref current col) as [ref1|e]; [|done].
  rewrite !Result_bind_Ok.
  destruct (set_remove (load h l) col) as [s|e]; [|done].
  rewrite !Result_bind_Ok.
  rewrite IH by (by rewrite length_insert).
  rewrite load_insert_eq by done.
  destruct (heal_loop cols current ref1 s) as [[r v]|e]; [|done].
  by rewrite list_insert_insert_eq.
Qed.

(** No collected pair names the set bound to [null_cols_in_reference]. *)
Definition separate (st : ResolverObjects) : Prop :=
  (o_null_cols_in_reference st < length (o_store st))%nat ∧
  Forall (λ p, (p.2 < length (o_store st))%nat ∧ p.2 ≠ o_null_cols_in_reference st)
         (o_schemas_to_evaluate st).

Lemma read_pairs_ext (h h' : Store) (pending : list (SchemaWrapper * Loc)) :
  Forall (λ p, load h' p.2 = load h p.2) pending →
  (λ p, (p.1, load h' p.2)) <$> pending = (λ p, (p.1, load h p.2)) <$> pending.
Proof.
  clear_env. induction 1 as [|p pending Hp _ IH]; [done|].
  rewrite !fmap_cons. by rewrite Hp, IH.
Qed.

Lemma resolver_step_obj_agrees has_pandas st schema :
  separate st →
  match resolver_step_obj has_pandas st schema with
  | Ok st' => resolver_step has_pandas (read_out st) schema = Ok (read_out st')
              ∧ separate st'
  | Raise e => resolver_step has_pandas (read_out st) schema = Raise e
  end.
Proof.
  intros [Hl Hpend]. unfold resolver_step_obj, resolver_step.
  destruct (as_wrapper schema) as [w|e]; [|done]. rewrite !Result_bind_Ok.
  destruct (current_schema has_pandas w) as [current|e]; [|done].
  rewrite !Result_bind_Ok. cbv zeta.
  set (h := o_store st ++ [null_columns_of current]).
  assert (Hold : ∀ l, (l < length (o_store st))%nat → load h l = load (o_store st) l)
    by (intros; by apply load_app_l).
  assert (Hnew : load h (length (o_store st)) = null_columns_of current)
    by apply load_app_new.
  assert (Hlen : length h = S (length (o_store st)))
    by (unfold h; rewrite length_app; simpl; lia).
  assert (Hread : (λ p, (p.1, load h p.2)) <$> o_schemas_to_evaluate st =
                  (λ p, (p.1, load (o_store st) p.2)) <$> o_schemas_to_evaluate st).
  { apply read_pairs_ext. eapply Forall_impl; [exact Hpend|].
    intros p [? _]. by apply Hold. }
  assert (Hgrow : Forall (λ p, (p.2 < length h)%nat) (o_schemas_to_evaluate st)).
  { eapply Forall_impl; [exact Hpend|]. intros p [? _]. lia. }
  cbn [read_out reference null_cols_in_reference schemas_to_evaluate].
  rewrite Hnew, (Hold _ Hl).
  destruct (o_reference st) as [ref|].
  2:{ split.
      - unfold read_out. cbn [o_reference o_null_cols_in_reference
          o_schemas_to_evaluate o_store]. by rewrite Hnew, Hread.
      - split; cbn [o_null_cols_in_reference o_store o_schemas_to_evaluate]; [lia|].
        eapply Forall_impl; [exact Hpend|]. intros p [? _]. lia. }
  destruct (decide (load (o_store st) (o_null_cols_in_reference st)
                    ⊆ null_columns_of current)).
  { split.
    - unfold read_out. cbn [o_reference o_null_cols_in_reference
        o_schemas_to_evaluate o_store].
      rewrite (Hold _ Hl), fmap_app, Hread. cbn [fmap list_fmap fst snd].
      by rewrite Hnew.
    - split; cbn [o_null_cols_in_reference o_store o_schemas_to_evaluate]; [lia|].
      apply Forall_app. split.
      + eapply Forall_impl; [exact Hpend|]. intros p [? ?]. split; [lia | done].
      + apply Forall_singleton. cbn [snd]. lia. }
  destruct (decide (null_columns_of current
                    ⊆ load (o_store st) (o_null_cols_in_reference st))).
  { split.
    - unfold read_out. cbn [o_reference o_null_cols_in_reference
        o_schemas_to_evaluate o_store].
      rewrite Hnew, fmap_app, Hread. cbn [fmap list_fmap fst snd].
      by rewrite (Hold _ Hl).
    - split; cbn [o_null_cols_in_reference o_store o_schemas_to_evaluate]; [lia|].
      apply Forall_app. split.
      + eapply Forall_impl; [exact Hpend|]. intros p [? ?]. split; lia.
      + apply Forall_singleton. cbn [snd]. lia. }
  destruct (decide (size (null_columns_of current)
                    < size (load (o_store st) (o_null_cols_in_reference st)))%nat).
  - cbv beta iota. rewrite Hnew, (Hold _ Hl).
    rewrite heal_loop_obj_agrees by lia. rewrite Hnew.
    destruct (heal_loop _ ref current (null_columns_of current)) as [[r v]|e]; [|done].
    rewrite !Result_bind_Ok. split.
    + unfold read_out. cbn [o_reference o_null_cols_in_reference
        o_schemas_to_evaluate o_store].
      rewrite load_insert_eq by lia. rewrite fmap_app. cbn [fmap list_fmap fst snd].
      rewrite load_insert_ne by lia. rewrite (Hold _ Hl). do 3 f_equal.
      rewrite <- Hread. apply read_pairs_ext.
      eapply Forall_impl; [exact Hpend|]. intros p [? _].
      symmetry. apply load_insert_ne. lia.
    + split; cbn [o_null_cols_in_reference o_store o_schemas_to_evaluate];
        rewrite length_insert; [lia|].
      apply Forall_app. split.
      * eapply Forall_impl; [exact Hpend|]. intros p [? ?]. split; lia.
      * apply Forall_singleton. cbn [snd]. lia.
  - cbv beta iota. rewrite Hnew, (Hold _ Hl).
    rewrite heal_loop_obj_agrees by lia. rewrite (Hold _ Hl).
    destruct (heal_loop _ current ref _) as [[r v]|e]; [|done].
    rewrite !Result_bind_Ok. split.
    + unfold read_out. cbn [o_reference o_null_cols_in_reference
        o_schemas_to_evaluate o_store].
      rewrite load_insert_eq by lia. rewrite fmap_app. cbn [fmap list_fmap fst snd].
      rewrite load_insert_ne by lia. rewrite Hnew. do 3 f_equal.
      rewrite <- Hread. apply read_pairs_ext.
      eapply Forall_impl; [exact Hpend|]. intros p [? ?].
      symmetry. apply load_insert_ne. lia.
    + split; cbn [o_null_cols_in_reference o_store o_schemas_to_evaluate];
        rewrite length_insert; [lia|].
      apply Forall_app. split.
      * eapply Forall_impl; [exact Hpend|]. intros p [? ?]. split; lia.
      * apply Forall_singleton. cbn [snd]. lia.
Qed.

Lemma resolver_loop_obj_agrees has_pandas schemas st :
  separate st →
  match resolver_loop_obj has_pandas schemas st with
  | Ok st' => resolver_loop has_pandas schemas (read_out st) = Ok (read_out st')
  | Raise e => resolver_loop has_pandas schemas (read_out st) = Raise e
  end.
Proof.
  revert st. induction schemas as [|schema rest IH]; intros st Hsep; [done|].
  cbn [resolver_loop_obj resolver_loop].
  pose proof (resolver_step_obj_agrees has_pandas st schema Hsep) as Hstep.
  destruct (resolver_step_obj has_pandas st schema) as [st1|e].
  - destruct Hstep as [-> Hsep1]. rewrite !Result_bind_Ok. by apply IH.
  - by rewrite Hstep.
Qed.

(** Keeping the sets by value loses nothing: the loop over set objects
    returns the same reference and the same pairs. *)
Lemma resolver_by_reference_agrees schemas ignore_pandas :
  resolver_by_reference schemas ignore_pandas =
  _determine_schemas_to_compare schemas ignore_pandas.
Proof.
  unfold resolver_by_reference, _determine_schemas_to_compare.
  pose proof (resolver_loop_obj_agrees
    (_pandas_in_schemas schemas && negb ignore_pandas) schemas
    {| o_reference := None; o_null_cols_in_reference := 0%nat;
       o_schemas_to_evaluate := []; o_store := [∅] |}) as H.
  destruct (resolver_loop_obj _ schemas _) as [st|e].
  - unfold read_out at 1 in H. cbn in H. rewrite H; [done|].
    split; [simpl; lia | by apply Forall_nil].
  - unfold read_out in H. cbn in H. rewrite H; [done|].
    split; [simpl; lia | by apply Forall_nil].
Qed.

(** ** Schemas with one field per name *)

Lemma filter_name_unique (fs : list Field) (p : nat) (f : Field) :
  NoDup (name <$> fs) → fs !! p = Some f →
  filter (λ g, name g = name f) fs = [f].
Proof.
  clear_env.
  revert p. induction fs as [|g fs IH]; intros p Hnd Hp; [done|].
  rewrite fmap_cons in Hnd. apply NoDup_cons in Hnd as [Hg Hnd].
  destruct p as [|p]; simpl in Hp.
  - injection Hp as ->. rewrite filter_cons_True by done. f_equal.
    destruct (filter (λ g, name g = name f) fs) as [|h l] eqn:Hfl; [done|].
    exfalso. apply Hg.
    assert (h ∈ filter (λ g, name g = name f) fs) as Hh
      by (rewrite Hfl; apply list_elem_of_here).
    apply list_elem_of_filter in Hh as [Hhn Hh].
    apply list_elem_of_fmap. exists h. by split.
  - rewrite filter_cons_False; [by eapply IH|].
    intros Heq. apply Hg. rewrite Heq. apply list_elem_of_fmap.
    exists f. split; [done|]. by eapply list_elem_of_lookup_2.
Qed.

Lemma get_field_index_unique s (p : nat) f :
  NoDup (names s) → fields s !! p = Some f →
  get_field_index s (name f) = Z.of_nat p.
Proof.
  clear_env.
  intros Hnd Hp. unfold get_field_index.
  pose proof (field_indices_length (name f) 0 (fields s)) as Hlen.
  rewrite (filter_name_unique _ _ _ Hnd Hp) in Hlen.
  pose proof (field_indices_spec (name f) 0 (fields s)) as Hspec.
  destruct (field_indices (name f) 0 (fields s)) as [|j [|? ?]]; try done.
  destruct (proj1 (Hspec j) (list_elem_of_here _ _)) as (k & g & Hk & Hname & ->).
  assert (k = p); [|lia].
  eapply (NoDup_lookup (names s)); [done| |].
  - unfold names. rewrite list_lookup_fmap, Hk. simpl. by rewrite Hname.
  - unfold names. by rewrite list_lookup_fmap, Hp.
Qed.

Lemma field_by_name_unique s (p : nat) f :
  NoDup (names s) → fields s !! p = Some f →
  field_by_name s (name f) = Some f.
Proof.
  intros Hnd Hp. unfold field_by_name.
  by rewrite (filter_name_unique _ _ _ Hnd Hp).
Qed.

Lemma filter_other_names (fs : list Field) (n : string) :
  n ∉ name <$> fs → filter (λ g, name g ≠ n) fs = fs.
Proof.
  clear_env.
  induction fs as [|h fs IH]; intros Hn; [done|].
  rewrite fmap_cons in Hn. apply not_elem_of_cons in Hn as [Hh Hn].
  rewrite filter_cons_True by done. f_equal. by apply IH.
Qed.

Lemma delete_name_unique (fs : list Field) (p : nat) (f : Field) :
  NoDup (name <$> fs) → fs !! p = Some f →
  delete p fs = filter (λ g, name g ≠ name f) fs.
Proof.
  clear_env.
  revert p. induction fs as [|g fs IH]; intros p Hnd Hp; [done|].
  rewrite fmap_cons in Hnd. apply NoDup_cons in Hnd as [Hg Hnd].
  destruct p as [|p]; simpl in Hp.
  - injection Hp as ->. rewrite filter_cons_False by (by intros ?). simpl.
    by rewrite filter_other_names.
  - rewrite filter_cons_True.
    + simpl. f_equal. by apply IH.
    + intros Heq. apply Hg. rewrite Heq. apply list_elem_of_fmap.
      exists f. split; [done|]. by eapply list_elem_of_lookup_2.
Qed.

(** Two field lists with the same names agree after filtering by name
    exactly when they agree at every position the filter keeps. *)
Lemma filter_by_name_eq (P : string → Prop)
    `{∀ f : Field, Decision (P (name f))} (a b : list Field) :
  name <$> a = name <$> b →
  filter (λ f, P (name f)) a = filter (λ f, P (name f)) b ↔
  ∀ (i : nat) fa fb, a !! i = Some fa → b !! i = Some fb → P (name fa) → fa = fb.
Proof.
  clear_env.
  revert b. induction a as [|x a IH]; intros [|y b] Hn; try done.
  rewrite !fmap_cons in Hn. injection Hn as Hxy Hn.
  rewrite !filter_cons. specialize (IH b Hn).
  destruct (decide (P (name x))) as [Hx|Hx].
  - rewrite decide_True by (by rewrite <- Hxy). split.
    + intros [= -> Hfl] [|i] fa fb Ha Hb Hp; simpl in *; [congruence|].
      by eapply IH.
    + intros Hall. f_equal.
      * by apply (Hall 0%nat).
      * apply IH. intros i fa fb Ha Hb. by apply (Hall (S i)).
  - rewrite decide_False by (by rewrite <- Hxy). rewrite IH. split.
    + intros Hall [|i] fa fb Ha Hb Hp; simpl in *; [|by eapply Hall].
      injection Ha as ->. done.
    + intros Hall i fa fb Ha Hb. by apply (Hall (S i)).
Qed.

Lemma remove_Ok_constructed w i w' : remove w i = Ok w' → constructed w'.
Proof.
  unfold remove. intros H. apply bind_Ok in H as (s' & _ & H).
  by eapply SchemaWrapper_init_constructed.
Qed.

(** Stripping names that are all fields of a schema with one field per
    name removes exactly those fields and logs nothing. *)
Lemma strip_loop_unique schema l w :
  constructed w → NoDup (names (internal w)) → NoDup l →
  (∀ n, n ∈ l → n ∈ names (internal w)) →
  ∃ w', strip_loop schema l w = (Ok w', []) ∧
        fields (internal w') = filter (λ f, name f ∉ l) (fields (internal w)).
Proof. clear_env.
  revert w. induction l as [|n l IH]; intros w Hc Hnd Hl Hin.
  { exists w. split; [done|]. symmetry.
    clear. induction (fields (internal w)) as [|f fs IHfs]; [done|].
    rewrite filter_cons_True by apply not_elem_of_nil. by f_equal. }
  apply NoDup_cons in Hl as [Hn Hl].
  destruct (proj1 (list_elem_of_fmap _ _ _) (Hin n (list_elem_of_here _ _)))
    as (f & -> & Hf).
  apply list_elem_of_lookup in Hf as [p Hp].
  pose proof (get_field_index_unique _ _ _ Hnd Hp) as Hix.
  cbn [strip_loop]. rewrite decide_True by lia.
  pose proof (remove_constructed w (name f) Hc ltac:(lia)) as Hrem.
  rewrite Hrem, Logged_bind_lift_Ok.
  rewrite Hix, Nat2Z.id in *.
  rewrite (delete_name_unique _ _ _ Hnd Hp) in *.
  destruct (IH {| internal :=
                    {| fields := filter (λ g, name g ≠ name f) (fields (internal w));
                       metadata := metadata (internal w) |};
                  origin := origin w |}) as (w' & Hstrip & Hfields).
  - by eapply remove_Ok_constructed.
  - unfold names. simpl. unfold names in Hnd.
    rewrite <- (delete_name_unique _ _ _ Hnd Hp), list_fmap_delete.
    eapply sublist_NoDup; [exact Hnd | apply sublist_delete].
  - done.
  - intros n' Hn'. unfold names. simpl.
    destruct (proj1 (list_elem_of_fmap _ _ _) (Hin n' (list_elem_of_further _ _ _ Hn')))
      as (g & -> & Hg).
    apply list_elem_of_fmap. exists g. split; [done|].
    apply list_elem_of_filter. split; [|done]. intros Heq. apply Hn. by rewrite <- Heq.
  - exists w'. split; [done|]. rewrite Hfields. simpl.
    rewrite list_filter_filter. apply list_filter_iff. intros g.
    rewrite not_elem_of_cons. naive_solver.
Qed.

Lemma null_columns_of_names w n :
  n ∈ null_columns_of w → n ∈ names (internal w).
Proof.
  intros (f & Hf & _ & <-)%elem_of_null_columns_of.
  apply list_elem_of_fmap. eauto.
Qed.

(** For two schemas with the field names [N], each once, the comparison of
    one pair fails exactly when the fields outside [null_columns] differ. *)
Lemma compare_step_unique N ref c nc :
  NoDup N → same_columns N ref → same_columns N c →
  (∀ n, n ∈ nc → n ∈ N) →
  is_raise (compare_step (Some ref) c nc).1 =
    negb (bool_decide (filter (λ f, name f ∉ nc) (fields (internal ref)) =
                       filter (λ f, name f ∉ nc) (fields (internal c)))).
Proof using Type*.
  intros HN [Hcr Hnr] [Hcc Hnc] Hsub.
  destruct (strip_loop_unique ref (set_iter nc) ref) as (r' & Hr' & Hfr);
    [done | by rewrite Hnr | apply NoDup_set_iter
     | intros n Hn%elem_of_set_iter; rewrite Hnr; auto |].
  destruct (strip_loop_unique c (set_iter nc) c) as (c' & Hc' & Hfc);
    [done | by rewrite Hnc | apply NoDup_set_iter
     | intros n Hn%elem_of_set_iter; rewrite Hnc; auto |].
  unfold compare_step, deref, _strip_columns_from_schema.
  rewrite Logged_bind_lift_Ok, Hr'.
  change (Ok r', []) with (lift (Ok r')). rewrite Logged_bind_lift_Ok.
  rewrite remove_metadata_Ok, Logged_bind_lift_Ok, Hc'.
  change (Ok c', []) with (lift (Ok c')). rewrite Logged_bind_lift_Ok.
  rewrite remove_metadata_Ok, Logged_bind_lift_Ok.
  unfold ne, equals, schema_equals. simpl. rewrite andb_true_r.
  rewrite Hfr, Hfc.
  rewrite (list_filter_iff (λ f, name f ∉ set_iter nc) (λ f, name f ∉ nc)
             (fields (internal ref))) by (intros; by rewrite elem_of_set_iter).
  rewrite (list_filter_iff (λ f, name f ∉ set_iter nc) (λ f, name f ∉ nc)
             (fields (internal c))) by (intros; by rewrite elem_of_set_iter).
  destruct (bool_decide _); simpl; [done|].
  by destruct (_diff_schemas ref c).
Qed.

Lemma compare_loop_unique N ref pending :
  NoDup N → same_columns N ref →
  Forall (λ p, same_columns N p.1 ∧ ∀ n, n ∈ p.2 → n ∈ N) pending →
  is_raise (compare_loop (Some ref) pending).1 = false ↔
  Forall (λ p, filter (λ f, name f ∉ p.2) (fields (internal ref)) =
               filter (λ f, name f ∉ p.2) (fields (internal p.1))) pending.
Proof using Type*.
  intros HN Href. induction pending as [|[c nc] rest IH]; intros Hall.
  { split; [by constructor | done]. }
  apply Forall_cons in Hall as [[Hc Hnc] Hall]. simpl in Hc, Hnc.
  cbn [compare_loop]. rewrite Logged_bind_fst, Forall_cons. cbn [fst snd].
  pose proof (compare_step_unique N ref c nc HN Href Hc Hnc) as Hstep.
  destruct (compare_step (Some ref) c nc).1 as [[]|e]; cbn [is_raise] in Hstep.
  - symmetry in Hstep. apply negb_false_iff, bool_decide_eq_true in Hstep.
    rewrite (IH Hall). naive_solver.
  - symmetry in Hstep. apply negb_true_iff, bool_decide_eq_false in Hstep.
    cbn [is_raise]. naive_solver.
Qed.

Lemma same_columns_lookup N w (i : nat) f :
  same_columns N w → fields (internal w) !! i = Some f → N !! i = Some (name f).
Proof.
  intros [_ <-] Hf. unfold names. by rewrite list_lookup_fmap, Hf.
Qed.

Lemma same_columns_field N w (i : nat) n :
  same_columns N w → N !! i = Some n →
  ∃ f, fields (internal w) !! i = Some f ∧ name f = n.
Proof.
  intros [_ <-]. unfold names. rewrite list_lookup_fmap.
  destruct (fields (internal w) !! i) as [f|]; [|done].
  intros [= <-]. eauto.
Qed.

(** In a schema with one field per name, a column is a null column exactly
    when its field is null-typed. *)
Lemma null_columns_of_unique N w (i : nat) f :
  NoDup N → same_columns N w → fields (internal w) !! i = Some f →
  name f ∈ null_columns_of w ↔ type f = null.
Proof.
  intros HN Hw Hf. rewrite elem_of_null_columns_of. split.
  - intros (g & Hg & Hgt & Hgn).
    apply list_elem_of_lookup in Hg as [j Hj].
    assert (j = i) as ->; [|by congruence].
    eapply (NoDup_lookup N); [done | |].
    + rewrite (same_columns_lookup N w j g Hw Hj). by rewrite Hgn.
    + by apply (same_columns_lookup N w i f).
  - intros Ht. exists f. split; [by eapply list_elem_of_lookup_2 | done].
Qed.

Lemma _swap_fields_by_name_unique N ref cur (p : nat) fc :
  NoDup N → same_columns N ref → same_columns N cur →
  fields (internal cur) !! p = Some fc →
  _swap_fields_by_name ref cur (name fc) =
    Ok {| internal := {| fields := <[p := fc]> (fields (internal ref));
                         metadata := metadata (internal ref) |};
          origin := origin ref |}.
Proof.
  intros HN Href Hcur Hfc.
  pose proof (same_columns_lookup N cur p fc Hcur Hfc) as HNp.
  destruct (same_columns_field N ref p _ Href HNp) as (fr & Hfr & Hname).
  destruct Href as [Hcr Hnr], Hcur as [Hcc Hnc].
  unfold _swap_fields_by_name.
  rewrite (field_by_name_unique (internal cur) p fc) by (by rewrite ?Hnc).
  assert (get_field_index (internal ref) (name fc) = Z.of_nat p) as Hix.
  { rewrite <- Hname. apply get_field_index_unique; [by rewrite Hnr | done]. }
  pose proof (set_constructed ref (name fc) fc Hcr ltac:(lia) eq_refl) as Hset.
  rewrite Hix, Nat2Z.id in Hset. by rewrite Hix.
Qed.

Lemma same_columns_insert N w (p : nat) f :
  same_columns N w → N !! p = Some (name f) →
  same_columns N {| internal := {| fields := <[p := f]> (fields (internal w));
                                   metadata := metadata (internal w) |};
                    origin := origin w |}.
Proof.
  intros [Hc Hn] HNp.
  destruct (same_columns_field N w p _ (conj Hc Hn) HNp) as (g & Hg & Hgn).
  split.
  - apply constructed_noop. simpl. apply constructed_noop in Hc.
    eapply compat_noop_ext; [| |exact Hc]; [done|].
    intros c. rewrite !get_field_index_neg. simpl.
    rewrite (filter_length_insert _ _ _ g f Hg); [done|]. by rewrite Hgn.
  - unfold names in *. simpl. rewrite list_fmap_insert, Hn.
    by apply list_insert_id.
Qed.

(** The healing loop in a batch with one field per name: every column of
    [cols] takes the field of [current], the others keep theirs. *)
Lemma heal_loop_unique N cols cur ref nr :
  NoDup N → same_columns N ref → same_columns N cur → NoDup cols →
  (∀ c, c ∈ cols → c ∈ N ∧ c ∈ nr) →
  ∃ r', heal_loop cols cur ref nr = Ok (r', nr ∖ list_to_set cols) ∧
        same_columns N r' ∧
        ∀ (i : nat) n, N !! i = Some n →
          fields (internal r') !! i =
            if decide (n ∈ cols) then fields (internal cur) !! i
            else fields (internal ref) !! i.
Proof. clear_env.
  intros HN Href Hcur. revert ref nr Href.
  induction cols as [|col cols IH]; intros ref nr Href Hcols Hin.
  { exists ref. split; [|split; [done|]].
    - simpl. do 2 f_equal. solve_set.
    - intros i n _. by rewrite decide_False by apply not_elem_of_nil. }
  apply NoDup_cons in Hcols as [Hcol Hcols].
  destruct (Hin col (list_elem_of_here _ _)) as [HcolN Hcolnr].
  apply list_elem_of_lookup in HcolN as [p Hp].
  destruct (same_columns_field N cur p col Hcur Hp) as (fc & Hfc & <-).
  cbn [heal_loop].
  rewrite (_swap_fields_by_name_unique N ref cur p fc) by done.
  rewrite Result_bind_Ok. unfold set_remove. rewrite decide_True by done.
  rewrite Result_bind_Ok.
  destruct (IH {| internal := {| fields := <[p := fc]> (fields (internal ref));
                                 metadata := metadata (internal ref) |};
                  origin := origin ref |} (nr ∖ {[name fc]}))
    as (r' & Hheal & Hr' & Hpt).
  - by apply same_columns_insert.
  - done.
  - intros c Hc. destruct (Hin c (list_elem_of_further _ _ _ Hc)) as [? ?].
    split; [done|]. apply elem_of_difference. split; [done|].
    intros ->%elem_of_singleton. done.
  - exists r'. split; [|split; [done|]].
    + rewrite Hheal. do 2 f_equal. solve_set.
    + intros i n Hi. rewrite (Hpt i n Hi). simpl.
      destruct (decide (n = name fc)) as [->|Hne].
      * assert (i = p) as -> by (by eapply (NoDup_lookup N)).
        rewrite decide_False by done.
        rewrite (decide_True (P := name fc ∈ name fc :: cols)) by apply list_elem_of_here.
        destruct (same_columns_field N ref p _ Href Hp) as (fr & Hfr & _).
        rewrite list_lookup_insert_eq; [done|]. by eapply lookup_lt_Some.
      * assert (i ≠ p) as Hip by (intros ->; congruence).
        rewrite list_lookup_insert_ne by done.
        apply decide_ext. rewrite elem_of_cons. naive_solver.
Qed.

(** The healing branch as a whole, for two schemas [R0] (the one that
    becomes the reference) and [C0] with the field names [N]. *)
Lemma heal_unique N R0 C0 :
  NoDup N → same_columns N R0 → same_columns N C0 →
  ∃ r', heal_loop (set_iter (null_columns_of R0 ∖ null_columns_of C0)) C0 R0
                  (null_columns_of R0) = Ok (r', null_columns_of r') ∧
        same_columns N r' ∧
        null_columns_of r' ⊆ null_columns_of R0 ∧
        null_columns_of r' ⊆ null_columns_of C0 ∧
        (∀ (i : nat) f, fields (internal r') !! i = Some f →
           fields (internal R0) !! i = Some f ∨ fields (internal C0) !! i = Some f) ∧
        (∀ (i : nat) f, fields (internal R0) !! i = Some f → type f ≠ null →
           fields (internal r') !! i = Some f).
Proof using Type*.
  intros HN HR HC.
  destruct (heal_loop_unique N (set_iter (null_columns_of R0 ∖ null_columns_of C0))
              C0 R0 (null_columns_of R0)) as (r' & Hheal & Hr' & Hpt);
    [done.. | apply NoDup_set_iter | |].
  { intros c [Hc _]%elem_of_set_iter%elem_of_difference. split; [|done].
    destruct HR as [_ <-]. by apply null_columns_of_names. }
  assert (Hnulls : null_columns_of r' =
            null_columns_of R0 ∖
              list_to_set (set_iter (null_columns_of R0 ∖ null_columns_of C0))).
  { apply set_eq. intros x. rewrite elem_of_difference, elem_of_list_to_set,
      elem_of_set_iter, elem_of_difference. split.
    - intros (f & Hf & Ht & <-)%elem_of_null_columns_of.
      apply list_elem_of_lookup in Hf as [i Hi].
      pose proof (same_columns_lookup N r' i f Hr' Hi) as HNi.
      rewrite (Hpt i _ HNi) in Hi. case_decide as Hcol.
      + apply elem_of_set_iter, elem_of_difference in Hcol as [_ Hcol].
        exfalso. apply Hcol.
        assert (name f = name f) as Hnf by done.
        by apply (null_columns_of_unique N C0 i f).
      + split.
        * by apply (null_columns_of_unique N R0 i f).
        * intros [_ Hx]. apply Hcol, elem_of_set_iter, elem_of_difference.
          split; [|done]. by apply (null_columns_of_unique N R0 i f).
    - intros [HxR Hx].
      apply elem_of_null_columns_of in HxR as (f & Hf & Ht & <-).
      apply list_elem_of_lookup in Hf as [i Hi].
      pose proof (same_columns_lookup N R0 i f HR Hi) as HNi.
      apply elem_of_null_columns_of. exists f. split; [|done].
      apply list_elem_of_lookup. exists i. rewrite (Hpt i _ HNi).
      rewrite decide_False; [done|].
      intros [HfR HfC]%elem_of_set_iter%elem_of_difference. apply Hx. split; [done|].
      done. }
  exists r'. rewrite Hnulls at 1. split; [done|]. split; [done|].
  split; [rewrite Hnulls; solve_set|].
  split.
  { rewrite Hnulls. intros x [HxR Hx]%elem_of_difference.
    destruct (decide (x ∈ null_columns_of C0)); [done|].
    exfalso. apply Hx, elem_of_list_to_set, elem_of_set_iter, elem_of_difference.
    done. }
  split.
  - intros i f Hi.
    pose proof (same_columns_lookup N r' i f Hr' Hi) as HNi.
    rewrite (Hpt i _ HNi) in Hi. case_decide; auto.
  - intros i f Hi Ht.
    pose proof (same_columns_lookup N R0 i f HR Hi) as HNi.
    rewrite (Hpt i _ HNi). rewrite decide_False; [done|].
    intros [HfR _]%elem_of_set_iter%elem_of_difference.
    by apply (null_columns_of_unique N R0 i f) in HfR.
Qed.

(** The schema the loop compares in place of a wrapper of the batch has
    the wrapper's fields. *)
Lemma current_schema_same N has_pandas w :
  same_columns N w →
  (has_pandas = true → has_pandas_key (internal w) = true) →
  ∃ c, current_schema has_pandas w = Ok c ∧ same_columns N c ∧
       fields (internal c) = fields (internal w).
Proof.
  intros [Hc Hn] Hkey. unfold current_schema.
  destruct has_pandas; [|by exists w].
  specialize (Hkey eq_refl). rewrite has_pandas_key_spec in Hkey.
  pose proof (proj1 (constructed_noop w) Hc) as Hnoop. unfold compat_noop in Hnoop.
  destruct (metadata (internal w)) as [md|] eqn:Hmd; [|done].
  destruct Hnoop as (Hother & pm & Hpm & Hlen & Hall). rewrite Hpm.
  set (s' := {| fields := fields (internal w);
                metadata := Some {| pandas := Some {| index_columns := index_columns pm;
                                                      columns := columns pm;
                                                      pandas_version := pd_version |};
                                    other_keys := other_keys md |} |}).
  assert (compat_noop s') as Hs'.
  { unfold compat_noop. simpl. split; [done|]. eexists. split; [done|]. simpl.
    split; [done|]. eapply Forall_impl; [exact Hall|].
    intros col. by apply index_settled_ext. }
  exists {| internal := s'; origin := origin w |}.
  split; [by apply SchemaWrapper_init_noop|]. split; [|done].
  split; [by apply constructed_noop | done].
Qed.

Lemma provenance_mono P P' x :
  (∀ w, w ∈ P → w ∈ P') → provenance P x → provenance P' x.
Proof. intros Hsub Hx i f Hi Ht. destruct (Hx i f Hi Ht) as (w & ? & ?). eauto. Qed.

Lemma resolver_step_run N P has_pandas st w :
  NoDup N → resolver_run N P st → same_columns N w →
  (has_pandas = true → has_pandas_key (internal w) = true) →
  ∃ st', resolver_step has_pandas st (Wrapped w) = Ok st' ∧
         resolver_run N (P ++ [w]) st'.
Proof using Type*.
  intros HN Hrun Hw Hkey.
  destruct (current_schema_same N has_pandas w Hw Hkey) as (c & Hcur & Hc & Hfc).
  assert (Hprov_c : provenance (P ++ [w]) c).
  { intros i f Hi Ht. exists w. split; [|by rewrite <- Hfc].
    apply elem_of_app. right. apply list_elem_of_here. }
  assert (Hmono : ∀ x, provenance P x → provenance (P ++ [w]) x).
  { intros x. apply provenance_mono. intros w' ?. apply elem_of_app. by left. }
  unfold resolver_step. cbn [as_wrapper]. rewrite Result_bind_Ok, Hcur, Result_bind_Ok.
  cbv zeta. unfold resolver_run in Hrun.
  destruct (reference st) as [r|] eqn:Href.
  2:{ destruct Hrun as [-> Hpend]. eexists. split; [done|].
      unfold resolver_run. cbn [reference null_cols_in_reference schemas_to_evaluate].
      rewrite Hpend. split; [done|]. split; [done|]. split; [done|].
      split; [by apply Forall_nil|].
      intros w' i f Hin Hi Ht. left.
      apply list_elem_of_singleton in Hin as ->. by rewrite Hfc. }
  destruct Hrun as (Hr & Hnr & Hpr & Hpend & Hcov).
  destruct (decide (null_cols_in_reference st ⊆ null_columns_of c)) as [Hsub|Hnsub].
  { eexists. split; [done|].
    unfold resolver_run. cbn [reference null_cols_in_reference schemas_to_evaluate].
    split; [done|]. split; [done|]. split; [by apply Hmono|]. split.
    - apply Forall_app. split.
      + eapply Forall_impl; [exact Hpend|]. intros p (? & ? & ? & ?). auto.
      + apply Forall_singleton. auto.
    - intros w' i f [Hin|Hin]%elem_of_app Hi Ht.
      + destruct (Hcov w' i f Hin Hi Ht) as [?|(p & Hp & ?)]; [by left|].
        right. exists p. split; [|done]. apply elem_of_app. by left.
      + apply list_elem_of_singleton in Hin as ->. right. exists (c, null_columns_of c).
        split; [|cbn [fst]; by rewrite Hfc]. apply elem_of_app. right. apply list_elem_of_here. }
  destruct (decide (null_columns_of c ⊆ null_cols_in_reference st)) as [Hsub'|Hnsub'].
  { eexists. split; [done|].
    unfold resolver_run. cbn [reference null_cols_in_reference schemas_to_evaluate].
    split; [done|]. split; [done|]. split; [done|]. split.
    - apply Forall_app. split.
      + eapply Forall_impl; [exact Hpend|]. intros p (? & ? & ? & ?).
        split; [done|]. split; [done|]. split; [by etrans | auto].
      + apply Forall_singleton. auto.
    - intros w' i f [Hin|Hin]%elem_of_app Hi Ht.
      + right. destruct (Hcov w' i f Hin Hi Ht) as [?|(p & Hp & ?)].
        * exists (r, null_cols_in_reference st). split; [|done].
          apply elem_of_app. right. apply list_elem_of_here.
        * exists p. split; [|done]. apply elem_of_app. by left.
      + apply list_elem_of_singleton in Hin as ->. left. by rewrite Hfc. }
  destruct (decide (size (null_columns_of c) < size (null_cols_in_reference st))%nat).
  - (* the current schema becomes the reference *)
    cbv beta iota. rewrite Hnr.
    destruct (heal_unique N c r HN Hc Hr)
      as (r' & Hheal & Hr' & HsubR & HsubC & Hfrom & Hkeep).
    rewrite Hheal, Result_bind_Ok. eexists. split; [done|].
    unfold resolver_run. cbn [reference null_cols_in_reference schemas_to_evaluate].
    split; [done|]. split; [done|]. split.
    { intros i f Hi Ht. destruct (Hfrom i f Hi) as [?|?]; [by apply (Hprov_c i f) | by apply (Hmono r Hpr i f)]. }
    split.
    + apply Forall_app. split.
      * eapply Forall_impl; [exact Hpend|]. intros p (? & ? & Hp & ?).
        split; [done|]. split; [done|]. split; [|auto].
        etrans; [exact HsubC|]. by rewrite <- Hnr.
      * apply Forall_singleton. cbn [fst snd]. auto.
    + intros w' i f [Hin|Hin]%elem_of_app Hi Ht.
      * right. destruct (Hcov w' i f Hin Hi Ht) as [?|(p & Hp & ?)].
        -- exists (r, null_columns_of r). split; [|done].
           apply elem_of_app. right. apply list_elem_of_here.
        -- exists p. split; [|done]. apply elem_of_app. by left.
      * apply list_elem_of_singleton in Hin as ->. left.
        apply Hkeep; [by rewrite Hfc | done].
  - (* the reference stays *)
    cbv beta iota. rewrite Hnr.
    destruct (heal_unique N r c HN Hr Hc)
      as (r' & Hheal & Hr' & HsubR & HsubC & Hfrom & Hkeep).
    rewrite Hheal, Result_bind_Ok. eexists. split; [done|].
    unfold resolver_run. cbn [reference null_cols_in_reference schemas_to_evaluate].
    split; [done|]. split; [done|]. split.
    { intros i f Hi Ht. destruct (Hfrom i f Hi) as [?|?]; [by apply (Hmono r Hpr i f) | by apply (Hprov_c i f)]. }
    split.
    + apply Forall_app. split.
      * eapply Forall_impl; [exact Hpend|]. intros p (? & ? & Hp & ?).
        split; [done|]. split; [done|]. split; [|auto].
        etrans; [exact HsubR|]. by rewrite <- Hnr.
      * apply Forall_singleton. cbn [fst snd]. auto.
    + intros w' i f [Hin|Hin]%elem_of_app Hi Ht.
      * destruct (Hcov w' i f Hin Hi Ht) as [?|(p & Hp & ?)].
        -- left. by apply Hkeep.
        -- right. exists p. split; [|done]. apply elem_of_app. by left.
      * apply list_elem_of_singleton in Hin as ->. right.
        exists (c, null_columns_of c). split; [|cbn [fst]; by rewrite Hfc].
        apply elem_of_app. right. apply list_elem_of_here.
Qed.

Lemma resolver_loop_run N P has_pandas st ws :
  NoDup N → resolver_run N P st → Forall (same_columns N) ws →
  (has_pandas = true → Forall (λ w, has_pandas_key (internal w) = true) ws) →
  ∃ st', resolver_loop has_pandas (Wrapped <$> ws) st = Ok st' ∧
         resolver_run N (P ++ ws) st'.
Proof using Type*.
  intros HN. revert P st. induction ws as [|w ws IH]; intros P st Hrun Hall Hkey.
  { exists st. rewrite app_nil_r. done. }
  apply Forall_cons in Hall as [Hw Hall].
  destruct (resolver_step_run N P has_pandas st w HN Hrun Hw) as (st1 & Hstep & Hrun1).
  { intros Hp. specialize (Hkey Hp). by apply Forall_cons in Hkey as [? _]. }
  destruct (IH (P ++ [w]) st1 Hrun1 Hall) as (st' & Hloop & Hrun').
  { intros Hp. specialize (Hkey Hp). by apply Forall_cons in Hkey as [_ ?]. }
  exists st'. rewrite fmap_cons. cbn [resolver_loop].
  rewrite Hstep, Result_bind_Ok. split; [done|].
  by rewrite <- app_assoc in Hrun'.
Qed.

(** ** validate_compatible and the order of the schemas *)

Lemma _pandas_in_schemas_spec schemas :
  _pandas_in_schemas schemas = true ↔
  ∃ s, s ∈ schemas ∧ has_pandas_key (pa_schema s) = true.
Proof.
  clear_env. unfold _pandas_in_schemas.
  assert (∀ acc, fold_left (λ has_pandas schema,
                    if has_pandas_key (pa_schema schema) then true else has_pandas)
                    schemas acc = true ↔
                 acc = true ∨ ∃ s, s ∈ schemas ∧ has_pandas_key (pa_schema s) = true)
    as Hgen.
  { induction schemas as [|s rest IH]; intros acc; simpl.
    - split; [by left|]. intros [?|(s & Hs & _)]; [done|]. by apply elem_of_nil in Hs.
    - rewrite IH. split.
      + intros [Hacc|(s' & ? & ?)].
        * destruct (has_pandas_key (pa_schema s)) eqn:Hk; [|by left].
          right. exists s. split; [by left | done].
        * right. exists s'. split; [by right | done].
      + intros [->|(s' & [->|Hin]%elem_of_cons & Hk)].
        * left. by destruct (has_pandas_key _).
        * left. by rewrite Hk.
        * right. eauto. }
  rewrite Hgen. naive_solver.
Qed.

(** After a run over schemas with the same field names, all comparisons
    pass exactly when the schemas agree with each other. *)
Lemma resolver_run_consistent N ws st r :
  NoDup N → resolver_run N ws st → reference st = Some r →
  Forall (λ p, filter (λ f, name f ∉ p.2) (fields (internal r)) =
               filter (λ f, name f ∉ p.2) (fields (internal p.1)))
         (schemas_to_evaluate st) ↔
  consistent ws.
Proof.
  intros HN Hrun Href. unfold resolver_run in Hrun. rewrite Href in Hrun.
  destruct Hrun as (Hr & Hnr & Hpr & Hpend & Hcov).
  assert (Hnames : ∀ p, same_columns N p →
            name <$> fields (internal r) = name <$> fields (internal p)).
  { intros p [_ Hp]. destruct Hr as [_ Hrn]. unfold names in *. congruence. }
  rewrite Forall_forall in Hpend. split.
  - intros Hall. rewrite Forall_forall in Hall.
    assert (Hin_r : ∀ w (i : nat) f, w ∈ ws → fields (internal w) !! i = Some f →
              type f ≠ null → fields (internal r) !! i = Some f).
    { intros w i f Hw Hi Ht.
      destruct (Hcov w i f Hw Hi Ht) as [?|(p & Hp & Hpi)]; [done|].
      destruct (Hpend p Hp) as (Hsame & Hnulls & _ & _).
      pose proof (same_columns_lookup N _ i f Hsame Hpi) as HNi.
      destruct (same_columns_field N r i _ Hr HNi) as (fr & Hfr & Hfrn).
      rewrite Hfr. f_equal.
      eapply (proj1 (filter_by_name_eq (λ n, n ∉ p.2) _ _ (Hnames _ Hsame)) (Hall p Hp));
        [done..|].
      rewrite Hfrn, Hnulls. by rewrite (null_columns_of_unique N p.1 i f). }
    intros a b Ha Hb i fa fb Hia Hib Hta Htb.
    pose proof (Hin_r a i fa Ha Hia Hta) as H1.
    pose proof (Hin_r b i fb Hb Hib Htb) as H2. congruence.
  - intros Hcons. apply Forall_forall. intros p Hp.
    destruct (Hpend p Hp) as (Hsame & Hnulls & Hsub & Hprov).
    apply (proj2 (filter_by_name_eq (λ n, n ∉ p.2) _ _ (Hnames _ Hsame))).
    intros i fr fp Hir Hip Hnot.
    assert (name fp = name fr) as Hn.
    { pose proof (same_columns_lookup N _ i fr Hr Hir).
      pose proof (same_columns_lookup N _ i fp Hsame Hip). congruence. }
    assert (type fp ≠ null) as Htp.
    { intros Ht. apply Hnot. rewrite Hnulls, <- Hn.
      by apply (null_columns_of_unique N p.1 i fp). }
    assert (type fr ≠ null) as Htr.
    { intros Ht. apply Hnot, Hsub. rewrite Hnr.
      by apply (null_columns_of_unique N r i fr). }
    destruct (Hpr i fr Hir Htr) as (a & Ha & Hia).
    destruct (Hprov i fp Hip Htp) as (b & Hb & Hib).
    by apply (Hcons a b Ha Hb i).
Qed.

Lemma resolver_run_init N : resolver_run N [] resolver_init.
Proof. done. Qed.

(** For schemas with the same field names, each once, [validate_compatible]
    raises exactly when pandas metadata is in play and missing from a schema,
    or two schemas disagree on a column. *)
Lemma validate_compatible_unique N ws ignore_pandas :
  NoDup N → Forall (same_columns N) ws →
  is_raise (validate_compatible (Wrapped <$> ws) ignore_pandas).1 = true ↔
  (_pandas_in_schemas (Wrapped <$> ws) && negb ignore_pandas = true ∧
   ∃ w, w ∈ ws ∧ has_pandas_key (internal w) = false) ∨
  ¬ consistent ws.
Proof using Type*.
  intros HN Hall.
  set (hp := _pandas_in_schemas (Wrapped <$> ws) && negb ignore_pandas).
  destruct (decide (hp = true ∧
              Exists (λ w, has_pandas_key (internal w) = false) ws)) as [[Hhp Hex]|Hno].
  - apply Exists_exists in Hex as (w & Hw & Hk). split.
    + intros _. left. split; [done|]. eauto.
    + intros _. unfold validate_compatible, _determine_schemas_to_compare.
      fold hp. rewrite Hhp.
      pose proof (resolver_loop_lacking (Wrapped <$> ws)
        {| reference := None; null_cols_in_reference := ∅;
           schemas_to_evaluate := [] |}) as Hr.
      destruct (resolver_loop true (Wrapped <$> ws) _); [|done].
      exfalso. cbn [is_raise] in Hr. enough (false = true) by done. apply Hr.
      exists (Wrapped w). split; [|done]. apply list_elem_of_fmap. eauto.
  - assert (hp = true → Forall (λ w, has_pandas_key (internal w) = true) ws) as Hkeys.
    { intros Hhp. apply Forall_forall. intros w Hw.
      destruct (has_pandas_key (internal w)) eqn:Hk; [done|].
      exfalso. apply Hno. split; [done|]. apply Exists_exists. eauto. }
    destruct (resolver_loop_run N [] hp resolver_init ws HN (resolver_run_init N) Hall Hkeys)
      as (st & Hloop & Hrun).
    rewrite app_nil_l in Hrun.
    unfold validate_compatible, _determine_schemas_to_compare.
    fold hp. fold resolver_init. rewrite Hloop, Result_bind_Ok.
    pose proof Hrun as Hrun'. unfold resolver_run in Hrun'.
    destruct (reference st) as [r|] eqn:Href.
    + destruct Hrun' as (Hr & Hnr & Hpr & Hpend & Hcov).
      cbn [bool_decide orb]. rewrite bool_decide_eq_true_2 by (by eexists).
      cbn [orb]. rewrite Logged_bind_lift_Ok, Logged_bind_fst.
      rewrite (with_origin_constructed r _ (proj1 Hr)), Logged_bind_lift_Ok.
      assert (Hchar : is_raise (compare_loop (Some r) (schemas_to_evaluate st)).1 = false ↔
                consistent ws).
      { rewrite (compare_loop_unique N r _ HN Hr).
        - by apply (resolver_run_consistent N).
        - eapply Forall_impl; [exact Hpend|]. intros p (Hs & -> & _ & _).
          split; [done|]. intros n Hn%null_columns_of_names.
          destruct Hs as [_ <-]. done. }
      destruct (compare_loop (Some r) (schemas_to_evaluate st)).1 as [[]|e];
        cbn [is_raise] in *.
      * split; [done|]. intros [[Hhp (w & Hw & Hk)]|Hnc].
        -- exfalso. apply Hno. split; [done|]. apply Exists_exists. eauto.
        -- exfalso. by apply Hnc, Hchar.
      * split; [|done]. intros _. right. intros Hc. by apply Hchar in Hc.
    + destruct Hrun' as [-> Hpend]. rewrite Hpend.
      cbn. split; [done|]. intros [[Hhp (w & Hw & _)]|Hnc].
      * by apply elem_of_nil in Hw.
      * exfalso. apply Hnc. intros a b Ha. by apply elem_of_nil in Ha.
Qed.

(** C2 (amended). For schemas that all list the same field names in the
    same order, each name once, [validate_compatible] raises on a permutation
    of the list exactly when it raises on the list. *)
Theorem validate_compatible_order_independent
    (N : list string) (ws ws' : list SchemaWrapper) (ignore_pandas : bool) :
  NoDup N → Forall (same_columns N) ws → ws ≡ₚ ws' →
  is_raise (validate_compatible (Wrapped <$> ws) ignore_pandas).1 =
  is_raise (validate_compatible (Wrapped <$> ws') ignore_pandas).1.
Proof using Type*.
  intros HN Hall Hperm.
  assert (Hall' : Forall (same_columns N) ws') by (by rewrite <- Hperm).
  assert (Hin : ∀ w, w ∈ ws ↔ w ∈ ws') by (intros w; by rewrite Hperm).
  pose proof (validate_compatible_unique N ws ignore_pandas HN Hall) as H1.
  pose proof (validate_compatible_unique N ws' ignore_pandas HN Hall') as H2.
  assert (Hp : _pandas_in_schemas (Wrapped <$> ws) = _pandas_in_schemas (Wrapped <$> ws')).
  { apply eq_true_iff_eq. rewrite !_pandas_in_schemas_spec.
    split; intros (s & Hs & Hk); exists s; (split; [|done]).
    - by rewrite <- Hperm.
    - by rewrite Hperm. }
  assert (Hcons : consistent ws ↔ consistent ws').
  { unfold consistent. split; intros Hc a b Ha Hb; apply Hc; by apply Hin. }
  apply eq_true_iff_eq. rewrite H1, H2, Hp, Hcons.
  split; (intros [[? (w & Hw & ?)]|?]; [left; split; [done|]; exists w; split; [by apply Hin | done] | by right]).
Qed.

(** * Further properties of the module *)

(** ** normalize_type *)

Lemma normalize_type_dictionary i v o t_pd t_np md :
  normalize_type (dictionary i v o) t_pd t_np md = normalize_type v t_np t_np None.
Proof. cbn [normalize_type is_signed_integer is_unsigned_integer is_floating].
  by destruct ARROW_LARGER_EQ_0141. Qed.

Lemma normalize_type_normal
    (t_pa : DataType) (t_pd t_np metadata : option string)
    (t' : DataType) (pd' np' md' : option string) :
  normalize_type t_pa t_pd t_np metadata = Ok (t', pd', np', md') →
  normalized t' = true.
Proof.
  revert t_pd t_np metadata t' pd' np' md'.
  induction t_pa as [| | | | | | | | | | | | | | | | | u tz | v IH | i IHi v IHv o];
    intros t_pd t_np md t' pd' np' md' H;
    try (cbn in H; injection H as <- _ _ _; reflexivity).
  - rewrite normalize_type_list in H.
    apply bind_Ok in H as (inner & _ & H).
    apply bind_Ok in H as ([[[t2 pd2] np2] md2] & Hn & H).
    injection H as <- _ _ _. cbn [normalized]. by eapply IH.
  - rewrite normalize_type_dictionary in H. by eapply IHv.
Qed.

(** X1. Whatever [normalize_type] returns is a normalised type: no integer
    or float narrower than 64 bits and no dictionary type is left in it, at
    any depth of a list. *)
Theorem normalize_type_normalized
    (t_pa : DataType) (t_pd t_np metadata : option string)
    (t' : DataType) (pd' np' md' : option string) :
  normalize_type t_pa t_pd t_np metadata = Ok (t', pd', np', md') →
  normalized t' = true.
Proof. apply normalize_type_normal. Qed.

(** X2. [normalize_type] returns, and returns a string as the pandas tag,
    for every type without a dictionary in it when the pandas tag it is
    given is a string (only [None] has no slice to take the inner tag of a
    list from). *)
Theorem normalize_type_returns
    (t_pa : DataType) (t_pd : string) (t_np metadata : option string) :
  dictionary_free t_pa = true →
  ∃ t' pd' np' md',
    normalize_type t_pa (Some t_pd) t_np metadata = Ok (t', Some pd', np', md').
Proof.
  revert t_pd t_np metadata.
  induction t_pa as [| | | | | | | | | | | | | | | | | u tz | v IH | i IHi v IHv o];
    intros t_pd t_np md Hfree;
    try (cbn; by eauto).
  - rewrite normalize_type_list. cbn [slice_list_tag]. rewrite Result_bind_Ok.
    destruct (IH (String.substring 5 (String.length t_pd - 1 - 5) t_pd) None None)
      as (t2 & pd2 & np2 & md2 & ->); [done|].
    rewrite Result_bind_Ok. by eauto.
Qed.

(** ** The constructor *)

Lemma compat_step_returns ix col st : ∃ st', compat_step ix col st = Ok st'.
Proof.
  destruct st as [s pm]. unfold compat_step.
  destruct ARROW_LARGER_EQ_0130, col as [c|d]; try by eauto.
  destruct (decide (get_field_index s c >= 0)) as [Hge|]; [|by eauto].
  unfold schema_remove. rewrite decide_True; [by eauto|].
  destruct (get_field_index_range s c); lia.
Qed.

Lemma compat_loop_returns cols ix st : ∃ st', compat_loop ix cols st = Ok st'.
Proof.
  revert ix st. induction cols as [|col cols IH]; intros ix st; [by eexists|].
  cbn [compat_loop]. destruct (compat_step_returns ix col st) as [st1 ->].
  rewrite Result_bind_Ok. apply IH.
Qed.

(** X3. The outcome of [SchemaWrapper(schema, origin)]: a schema without
    metadata is wrapped as it is; metadata without a pandas entry makes the
    constructor raise ([TypeError] with pyarrow >= 0.13, [KeyError] before);
    more than one index column raises [NotImplementedError]; in every other
    case the constructor returns. *)
Theorem SchemaWrapper_init_outcome (schema : Schema) (origin : gset string) :
  match metadata schema with
  | None =>
      SchemaWrapper_init schema origin = Ok {| internal := schema; origin := origin |}
  | Some md =>
      match pandas md with
      | None =>
          SchemaWrapper_init schema origin =
            Raise (if ARROW_LARGER_EQ_0130 then TypeError else KeyError)
      | Some pm =>
          if decide (1 < length (index_columns pm))%nat
          then SchemaWrapper_init schema origin = Raise NotImplementedError
          else is_raise (SchemaWrapper_init schema origin) = false
      end
  end.
Proof.
  unfold SchemaWrapper_init, _schema_compat, _pandas_meta_from_schema.
  destruct (metadata schema) as [md|] eqn:Hmd; [|done].
  destruct (pandas md) as [pm|] eqn:Hpm.
  - assert (Hsub : (if ARROW_LARGER_EQ_0130
                    then Ok (Some md ≫= pandas)
                    else Ok (Some pm)) = Ok (Some pm) :> Result (option PandasMetadata)).
    { destruct ARROW_LARGER_EQ_0130; [|done]. simpl. by rewrite Hpm. }
    rewrite Hsub, Result_bind_Ok. cbn [subscript]. rewrite Result_bind_Ok.
    destruct (decide (1 < length (index_columns pm))%nat); [done|].
    destruct (compat_loop_returns (index_columns pm) 0 (schema, pm)) as [[s1 pm1] ->].
    done.
  - destruct ARROW_LARGER_EQ_0130; [|done]. simpl. by rewrite Hpm.
Qed.

(** X4. With pyarrow >= 0.13, the schema of a wrapper the constructor
    returns keeps a part of the fields it was given, in their order; the
    name of its index column finds no field in it any more, and only the
    pandas entry is left of the metadata. *)
Theorem SchemaWrapper_init_index_removed
    (schema : Schema) (origin : gset string) (w : SchemaWrapper)
    (md : KeyValueMetadata) (pm : PandasMetadata) (c : string) :
  ARROW_LARGER_EQ_0130 = true →
  SchemaWrapper_init schema origin = Ok w →
  metadata schema = Some md → pandas md = Some pm →
  IndexName c ∈ index_columns pm →
  get_field_index (internal w) c < 0 ∧
  fields (internal w) `sublist_of` fields schema ∧
  metadata (internal w) = Some {| pandas := Some pm; other_keys := [] |}.
Proof.
  intros Harrow Hinit Hmd Hpm Hc.
  pose proof (SchemaWrapper_init_constructed _ _ _ Hinit) as Hcon.
  apply constructed_noop in Hcon.
  unfold SchemaWrapper_init in Hinit.
  apply bind_Ok in Hinit as (s' & Hcompat & [= <-]). cbn [internal] in *.
  unfold _schema_compat, _pandas_meta_from_schema in Hcompat.
  rewrite Hmd, Harrow in Hcompat. cbn in Hcompat. rewrite Hpm in Hcompat.
  cbn in Hcompat.
  destruct (decide (1 < length (index_columns pm))%nat) as [|Hlen]; [done|].
  apply bind_Ok in Hcompat as ([s1 pm1] & Hloop & [= <-]).
  destruct (index_columns pm) as [|col [|]] eqn:Hcols; [by apply elem_of_nil in Hc| |simpl in Hlen; lia].
  apply list_elem_of_singleton in Hc as <-.
  cbn [compat_loop] in Hloop. apply bind_Ok in Hloop as ([s2 pm2] & Hstep & [= <- <-]).
  unfold compat_step in Hstep. rewrite Harrow in Hstep.
  destruct (decide (get_field_index schema c >= 0)) as [Hge|Hlt].
  - apply bind_Ok in Hstep as (s3 & Hrem & [= <- <-]).
    unfold schema_remove in Hrem. case_decide; [|done]. injection Hrem as <-.
    split; [|split].
    + by apply (get_field_index_deleted schema c _ eq_refl Hge).
    + cbn. apply sublist_delete.
    + reflexivity.
  - injection Hstep as <- <-. split; [|split].
    + cbn. unfold get_field_index in *. cbn. lia.
    + done.
    + reflexivity.
Qed.

(** X5. Building a wrapper again from the schema of a wrapper that the
    constructor returned changes nothing but the origin: the rewrite of
    [_schema_compat] has nothing left to do, so [with_origin] only replaces
    the origin. *)
Theorem with_origin_only_origin
    (schema : Schema) (origin origin' : gset string) (w : SchemaWrapper) :
  SchemaWrapper_init schema origin = Ok w →
  with_origin w origin' = Ok {| internal := internal w; origin := origin' |}.
Proof.
  intros Hinit. apply with_origin_constructed.
  by eapply SchemaWrapper_init_constructed.
Qed.

(** ** The parts of the error message *)

Lemma remove_header_from_spec diff rest :
  (∃ pre el post, rest = pre ++ el :: post ∧
     Forall (λ l, String.prefix "@" l = false) pre ∧
     String.prefix "@" el = true ∧
     remove_header_from diff rest = el :: post) ∨
  (Forall (λ l, String.prefix "@" l = false) rest ∧
   remove_header_from diff rest = diff).
Proof.
  induction rest as [|el rest IH]; [by right|].
  cbn [remove_header_from]. destruct (String.prefix "@" el) eqn:Hel.
  - left. by exists [], el, rest.
  - destruct IH as [(pre & el' & post & -> & Hpre & Hel' & ->)|[Hall ->]].
    + left. exists (el :: pre), el', post. by repeat split; [constructor|..].
    + right. by split; [constructor|].
Qed.

(** X6. [_remove_diff_header] returns the diff from its first line that
    starts with [@] on, and the whole diff when no line does. *)
Theorem _remove_diff_header_spec (diff : list string) :
  (∃ pre el post, diff = pre ++ el :: post ∧
     Forall (λ l, String.prefix "@" l = false) pre ∧
     String.prefix "@" el = true ∧
     _remove_diff_header diff = el :: post) ∨
  (Forall (λ l, String.prefix "@" l = false) diff ∧
   _remove_diff_header diff = diff).
Proof. apply remove_header_from_spec. Qed.

Lemma string_length_app (s t : string) :
  String.length (s +:+ t) = (String.length s + String.length t)%nat.
Proof. induction s as [|c s IH]; [done|]. simpl. by f_equal. Qed.

Lemma string_length_substring_0 (n : nat) (s : string) :
  (String.length (String.substring 0 n s) ≤ n)%nat.
Proof.
  revert s. induction n as [|n IH]; intros [|c s]; cbn; try lia.
  specialize (IH s). lia.
Qed.

(** X7. The origin part of the error message is bounded: whatever the set
    of origin labels, [_fmt_origin] gives at most 205 characters (200 of the
    joined labels, the ellipsis and the braces). *)
Theorem _fmt_origin_length (origin : gset string) :
  (String.length (_fmt_origin origin) ≤ 205)%nat.
Proof.
  unfold _fmt_origin.
  set (inner := join ", " (sorted (set_iter origin))).
  rewrite !string_length_app.
  change (String.length "{") with 1%nat. change (String.length "}") with 1%nat.
  change (String.length "...") with 3%nat.
  case_decide as Hlong.
  - rewrite string_length_app. change (String.length "...") with 3%nat.
    pose proof (string_length_substring_0 200 inner). lia.
  - lia.
Qed.

(** ** Stripping and healing *)

Lemma strip_loop_listed schema l w :
  constructed w → NoDup (names (internal w)) → NoDup l →
  (∀ n, n ∈ l → n ∈ names (internal w)) →
  strip_loop schema l w =
    (Ok {| internal := {| fields := filter (λ f, name f ∉ l) (fields (internal w));
                          metadata := metadata (internal w) |};
           origin := origin w |}, []).
Proof. clear_env.
  revert w. induction l as [|n l IH]; intros w Hc Hnd Hl Hin.
  { assert (Hf : ∀ fs : list Field, filter (λ f, name f ∉ []) fs = fs).
    { clear. induction fs as [|f fs IHfs]; [done|].
      rewrite filter_cons_True by apply not_elem_of_nil. by f_equal. }
    cbn [strip_loop]. rewrite Hf. by destruct w as [[fs md] o]. }
  apply NoDup_cons in Hl as [Hn Hl].
  destruct (proj1 (list_elem_of_fmap _ _ _) (Hin n (list_elem_of_here _ _)))
    as (f & -> & Hf).
  apply list_elem_of_lookup in Hf as [p Hp].
  pose proof (get_field_index_unique _ _ _ Hnd Hp) as Hix.
  cbn [strip_loop]. rewrite decide_True by lia.
  pose proof (remove_constructed w (name f) Hc ltac:(lia)) as Hrem.
  rewrite Hrem, Logged_bind_lift_Ok.
  rewrite Hix, Nat2Z.id in *.
  rewrite (delete_name_unique _ _ _ Hnd Hp) in *.
  rewrite IH.
  - cbn [internal fields metadata origin]. do 4 f_equal.
    rewrite list_filter_filter. apply list_filter_iff. intros g.
    rewrite not_elem_of_cons. naive_solver.
  - by eapply remove_Ok_constructed.
  - unfold names. simpl. unfold names in Hnd.
    rewrite <- (delete_name_unique _ _ _ Hnd Hp), list_fmap_delete.
    eapply sublist_NoDup; [exact Hnd | apply sublist_delete].
  - done.
  - intros n' Hn'. unfold names. simpl.
    destruct (proj1 (list_elem_of_fmap _ _ _) (Hin n' (list_elem_of_further _ _ _ Hn')))
      as (g & -> & Hg).
    apply list_elem_of_fmap. exists g. split; [done|].
    apply list_elem_of_filter. split; [|done]. intros Heq. apply Hn. by rewrite <- Heq.
Qed.

(** X8. When every listed name is a field of the schema, the schema has one
    field per name and no name is listed twice, [_strip_columns_from_schema]
    removes exactly the listed fields: the other fields stay in their order,
    metadata and origin are kept, and nothing is logged. *)
Theorem _strip_columns_from_schema_listed
    (schema : SchemaWrapper) (field_names : list string) :
  constructed schema → NoDup (names (internal schema)) → NoDup field_names →
  (∀ n, n ∈ field_names → n ∈ names (internal schema)) →
  _strip_columns_from_schema schema field_names =
    (Ok {| internal :=
             {| fields := filter (λ f, name f ∉ field_names) (fields (internal schema));
                metadata := metadata (internal schema) |};
           origin := origin schema |}, []).
Proof. apply strip_loop_listed. Qed.

Lemma names_insert_same (fs : list Field) (i : nat) (f g : Field) :
  fs !! i = Some g → name f = name g → name <$> <[i := f]> fs = name <$> fs.
Proof.
  intros Hi Hname. rewrite list_fmap_insert, Hname.
  apply list_insert_id. by rewrite list_lookup_fmap, Hi.
Qed.

(** X9. [_swap_fields_by_name] returns exactly when the name is the name of
    one field of the current schema and of one field of the reference; the
    reference then has the current schema's field at the position of its
    own, and its names, metadata and origin are as before. *)
Theorem _swap_fields_by_name_spec
    (reference current : SchemaWrapper) (field_name : string) :
  constructed reference →
  (is_raise (_swap_fields_by_name reference current field_name) = false ↔
   is_Some (field_by_name (internal current) field_name) ∧
   get_field_index (internal reference) field_name >= 0) ∧
  ∀ r', _swap_fields_by_name reference current field_name = Ok r' →
    ∃ fc, field_by_name (internal current) field_name = Some fc ∧
          fields (internal r') =
            <[Z.to_nat (get_field_index (internal reference) field_name) := fc]>
              (fields (internal reference)) ∧
          names (internal r') = names (internal reference) ∧
          metadata (internal r') = metadata (internal reference) ∧
          origin r' = origin reference.
Proof.
  intros Hc. unfold _swap_fields_by_name.
  destruct (field_by_name (internal current) field_name) as [fc|] eqn:Hfc.
  - apply field_by_name_Some in Hfc as [_ Hname].
    destruct (decide (get_field_index (internal reference) field_name >= 0)) as [Hge|Hlt].
    + rewrite (set_constructed reference field_name fc Hc Hge Hname).
      split; [by split; [eauto|]|].
      intros r' [= <-]. exists fc. repeat split.
      destruct (get_field_index_found _ _ _ eq_refl Hge) as (_ & (g & Hg & Hgn) & _).
      unfold names. cbn. eapply names_insert_same; [done | congruence].
    + unfold set. rewrite schema_set_by_name, decide_False by lia.
      split; [|done]. split; [done|]. intros [_ ?]. lia.
  - unfold set. rewrite schema_set_by_name. split; [|done].
    split; [done|]. by intros [[? [=]] _].
Qed.

(** ** The reference of the resolver *)

Lemma heal_loop_tracked cols current ref nr r' nr' :
  heal_loop cols current ref nr = Ok (r', nr') → nr' = nr ∖ list_to_set cols.
Proof. clear_env.
  revert ref nr. induction cols as [|col cols IH]; intros ref nr H.
  - injection H as _ <-. set_solver.
  - cbn [heal_loop] in H. apply bind_Ok in H as (r1 & _ & H).
    apply bind_Ok in H as (nr1 & Hrem%set_remove_Ok & H).
    apply IH in H. subst. rewrite list_to_set_cons. set_solver.
Qed.

Lemma resolver_step_tracked has_pandas st schema st' :
  resolver_step has_pandas st schema = Ok st' →
  ∃ c, compared_as has_pandas schema = Ok c ∧
       null_cols_in_reference st' ⊆ null_columns_of c ∧
       (is_Some (reference st) →
        null_cols_in_reference st' ⊆ null_cols_in_reference st).
Proof using Type*.
  unfold resolver_step, compared_as. intros H.
  apply bind_Ok in H as (w & -> & H). rewrite Result_bind_Ok.
  apply bind_Ok in H as (current & -> & H). simpl in H.
  exists current. split; [done|].
  destruct (reference st) as [ref|] eqn:Eref.
  - destruct (decide (null_cols_in_reference st ⊆ null_columns_of current)) as [Hsub|Hnsub].
    { by injection H as <-. }
    destruct (decide (null_columns_of current ⊆ null_cols_in_reference st)) as [Hsub'|Hnsub'].
    { by injection H as <-. }
    destruct (decide (size (null_columns_of current) < size (null_cols_in_reference st))%nat).
    + apply bind_Ok in H as ([r' nr'] & Hheal & [= <-]).
      apply heal_loop_tracked in Hheal. rewrite list_to_set_set_iter in Hheal.
      simpl. subst nr'. split; [|intros _].
      * apply subseteq_difference_l. done.
      * intros x [Hx Hnx]%elem_of_difference.
        destruct (decide (x ∈ null_cols_in_reference st)); [done|].
        exfalso. apply Hnx. by apply elem_of_difference.
    + apply bind_Ok in H as ([r' nr'] & Hheal & [= <-]).
      apply heal_loop_tracked in Hheal. rewrite list_to_set_set_iter in Hheal.
      simpl. subst nr'. split; [|intros _].
      * intros x [Hx Hnx]%elem_of_difference.
        destruct (decide (x ∈ null_columns_of current)); [done|].
        exfalso. apply Hnx. by apply elem_of_difference.
      * apply subseteq_difference_l. done.
  - injection H as <-. simpl. split; [done|]. by intros [? [=]].
Qed.

Lemma resolver_step_reference has_pandas st schema st' :
  resolver_step has_pandas st schema = Ok st' → is_Some (reference st').
Proof. intros H. by apply resolver_step_shape in H as [? _]. Qed.

Lemma resolver_loop_tracked has_pandas schemas st st' :
  resolver_loop has_pandas schemas st = Ok st' →
  (is_Some (reference st) →
   null_cols_in_reference st' ⊆ null_cols_in_reference st) ∧
  ∀ s, s ∈ schemas →
    ∃ c, compared_as has_pandas s = Ok c ∧
         null_cols_in_reference st' ⊆ null_columns_of c.
Proof using Type*.
  revert st. induction schemas as [|schema rest IH]; intros st H.
  - injection H as <-. split; [done|]. by intros s ?%elem_of_nil.
  - cbn [resolver_loop] in H. apply bind_Ok in H as (st1 & Hstep & Hloop).
    pose proof (resolver_step_reference _ _ _ _ Hstep) as Hsome.
    apply resolver_step_tracked in Hstep as (c & Hc & Hsub & Hmono).
    apply IH in Hloop as [Hmono' Hrest]. specialize (Hmono' Hsome).
    split.
    + intros Hst. etrans; [exact Hmono' | by apply Hmono].
    + intros s [->|Hs]%elem_of_cons.
      * exists c. split; [done|]. by etrans.
      * by apply Hrest.
Qed.

(** X10. The reference that [_determine_schemas_to_compare] returns has no
    null column that is not a null column of every schema of the list (as
    the resolver compares it), and the same holds for the schema that
    [validate_compatible] returns. *)
Theorem reference_has_least_nulls
    (schemas : list SchemaLike) (ignore_pandas : bool)
    (ref : SchemaWrapper) (pending : list (SchemaWrapper * gset string)) :
  _determine_schemas_to_compare schemas ignore_pandas = Ok (Some ref, pending) →
  ∀ s, s ∈ schemas →
    ∃ c, compared_as (_pandas_in_schemas schemas && negb ignore_pandas) s = Ok c ∧
         null_columns_of ref ⊆ null_columns_of c ∧
         ∀ result, (validate_compatible schemas ignore_pandas).1 = Ok (Some result) →
                   null_columns_of result ⊆ null_columns_of c.
Proof using Type*.
  intros H s Hs.
  destruct (_determine_schemas_to_compare_Ok _ _ _ _ H) as (st & Hloop & Href & Hpend).
  pose proof (resolver_loop_inv _ _ _ _ Hloop resolver_inv_init) as (Hinv & _ & _).
  apply resolver_loop_tracked in Hloop as [_ Hall].
  destruct (Hall s Hs) as (c & Hc & Hsub).
  assert (null_columns_of ref ⊆ null_columns_of c) as Hrc
    by (etrans; [by apply Hinv | done]).
  exists c. split; [done|]. split; [done|].
  intros result. unfold validate_compatible.
  rewrite H, Logged_bind_lift_Ok, Logged_bind_fst.
  destruct (compare_loop (Some ref) pending).1 as [[]|e]; [|done].
  rewrite Logged_bind_fst. cbn [lift fst].
  unfold with_origin.
  destruct (SchemaWrapper_init (internal ref) _) as [w|e] eqn:Hinit; [|done].
  intros [= <-]. apply SchemaWrapper_init_null_columns in Hinit.
  etrans; [exact Hinit|]. etrans; [|exact Hrc].
  unfold null_columns_of. done.
Qed.

(** ** Schemas without null columns *)

Lemma null_free_null_columns w : null_free (internal w) → null_columns_of w = ∅.
Proof. clear_env.
  intros Hfree. apply set_eq. intros x. rewrite elem_of_null_columns_of.
  split; [|by intros ?%not_elem_of_empty].
  intros (f & Hf & Ht & _). unfold null_free in Hfree.
  rewrite Forall_forall in Hfree. by destruct (Hfree f Hf).
Qed.

Lemma compared_as_null_free has_pandas schema c :
  null_free (pa_schema schema) → compared_as has_pandas schema = Ok c →
  null_columns_of c = ∅.
Proof.
  intros Hfree H. unfold compared_as in H.
  apply bind_Ok in H as (w & Hw & Hcur).
  assert (null_columns_of w = ∅) as Hw0.
  { destruct schema as [w0|s]; cbn in Hw.
    - injection Hw as <-. by apply null_free_null_columns.
    - apply SchemaWrapper_init_null_columns in Hw.
      rewrite (null_free_null_columns {| internal := s; origin := _ |}) in Hw by done.
      clear -Hw. set_solver. }
  unfold current_schema in Hcur. destruct has_pandas; [|by injection Hcur as <-].
  destruct (metadata (internal w)) as [md|]; [|done].
  destruct (pandas md) as [pm|]; [|done].
  apply SchemaWrapper_init_null_columns in Hcur.
  assert (null_columns_of {| internal :=
            {| fields := fields (internal w);
               metadata := Some {| pandas := Some {| index_columns := index_columns pm;
                                                     columns := columns pm;
                                                     pandas_version := pd_version |};
                                   other_keys := other_keys md |} |};
            origin := origin w |} = null_columns_of w) as Heq by done.
  rewrite Heq, Hw0 in Hcur. clear -Hcur. set_solver.
Qed.

Lemma resolver_loop_null_free has_pandas schemas cs st r :
  Forall (λ s, null_free (pa_schema s)) schemas →
  Forall2 (λ s c, compared_as has_pandas s = Ok c) schemas cs →
  reference st = Some r → null_cols_in_reference st = ∅ →
  resolver_loop has_pandas schemas st =
    Ok {| reference := Some r;
          null_cols_in_reference := ∅;
          schemas_to_evaluate :=
            schemas_to_evaluate st ++ ((λ c, (c, ∅)) <$> cs) |}.
Proof.
  intros Hfree Hcs. revert st.
  induction Hcs as [|s c schemas cs Hc Hcs IH]; intros st Href Hnr.
  - cbn. rewrite app_nil_r. destruct st; cbn in *. by subst.
  - apply Forall_cons in Hfree as [Hs Hfree].
    cbn [resolver_loop]. unfold resolver_step.
    pose proof (compared_as_null_free _ _ _ Hs Hc) as Hnull.
    unfold compared_as in Hc. apply bind_Ok in Hc as (w & -> & Hcur).
    rewrite Result_bind_Ok, Hcur, Result_bind_Ok.
    rewrite Href, Hnr, Hnull. rewrite decide_True by done.
    rewrite Result_bind_Ok, (IH Hfree); [|done..].
    cbn. by rewrite <- app_assoc.
Qed.

Lemma resolver_null_free
    (schemas : list SchemaLike) (ignore_pandas : bool)
    (cs : list SchemaWrapper) :
  Forall (λ s, null_free (pa_schema s)) schemas →
  Forall2 (λ s c, compared_as (_pandas_in_schemas schemas && negb ignore_pandas) s
                  = Ok c) schemas cs →
  _determine_schemas_to_compare schemas ignore_pandas =
    Ok (head cs, (λ c, (c, ∅)) <$> tail cs).
Proof.
  intros Hfree Hcs. unfold _determine_schemas_to_compare.
  set (has_pandas := _pandas_in_schemas schemas && negb ignore_pandas) in *.
  clearbody has_pandas.
  destruct Hcs as [|s c schemas cs Hc Hcs]; [done|].
  apply Forall_cons in Hfree as [Hs Hfree].
  cbn [resolver_loop]. unfold resolver_step.
  pose proof (compared_as_null_free _ _ _ Hs Hc) as Hnull.
  unfold compared_as in Hc. apply bind_Ok in Hc as (w & -> & Hcur).
  rewrite Result_bind_Ok, Hcur, Result_bind_Ok. cbn [reference].
  rewrite Result_bind_Ok, Hnull.
  by rewrite (resolver_loop_null_free has_pandas schemas cs _ c Hfree Hcs).
Qed.

(** X11. When no schema of the list has a field of the null type, the
    resolver takes the first schema (if there is one) as the reference,
    heals nothing, and pairs every other schema, in the order of the list,
    with the empty set of null columns. *)
Theorem resolver_without_nulls
    (schemas : list SchemaLike) (ignore_pandas : bool)
    (cs : list SchemaWrapper) :
  Forall (λ s, null_free (pa_schema s)) schemas →
  Forall2 (λ s c, compared_as (_pandas_in_schemas schemas && negb ignore_pandas) s
                  = Ok c) schemas cs →
  _determine_schemas_to_compare schemas ignore_pandas =
    Ok (head cs, (λ c, (c, ∅)) <$> tail cs).
Proof. apply resolver_null_free. Qed.

Lemma set_iter_empty : set_iter ∅ = [].
Proof using Type*.
  apply Permutation_nil_r. by rewrite set_iter_elements, elements_empty.
Qed.

Lemma compare_step_no_nulls ref c :
  (compare_step (Some ref) c ∅).2 = [] ∧
  is_raise (compare_step (Some ref) c ∅).1 =
    negb (bool_decide (fields (internal ref) = fields (internal c))).
Proof using Type*.
  unfold compare_step, deref, _strip_columns_from_schema.
  rewrite Logged_bind_lift_Ok, set_iter_empty. cbn [strip_loop].
  change (mret ref : Logged SchemaWrapper) with (lift (Ok ref)).
  rewrite Logged_bind_lift_Ok, remove_metadata_Ok, Logged_bind_lift_Ok.
  change (mret c : Logged SchemaWrapper) with (lift (Ok c)).
  rewrite Logged_bind_lift_Ok, remove_metadata_Ok, Logged_bind_lift_Ok.
  unfold ne, equals, schema_equals. simpl. rewrite andb_true_r.
  destruct (bool_decide _); simpl; [done|].
  by destruct (_diff_schemas ref c).
Qed.

Lemma compare_loop_no_nulls ref cs :
  (compare_loop (Some ref) ((λ c, (c, ∅)) <$> cs)).2 = [] ∧
  (is_raise (compare_loop (Some ref) ((λ c, (c, ∅)) <$> cs)).1 = false ↔
   Forall (λ c, fields (internal ref) = fields (internal c)) cs).
Proof using Type*.
  induction cs as [|c cs [IHlog IH]]; [by split|].
  cbn [fmap list_fmap compare_loop].
  destruct (compare_step_no_nulls ref c) as [Hlog Hstep].
  unfold mbind, Logged_bind. rewrite Hlog.
  destruct (compare_step (Some ref) c ∅).1 as [[]|e]; cbn [is_raise] in Hstep.
  - symmetry in Hstep. apply negb_false_iff, bool_decide_eq_true in Hstep.
    cbn [fst snd app]. split; [exact IHlog|]. rewrite Forall_cons.
    fold (@fmap list _ _ _ (λ c : SchemaWrapper, (c, (∅ : gset string))) cs).
    rewrite IH. naive_solver.
  - symmetry in Hstep. apply negb_true_iff, bool_decide_eq_false in Hstep.
    cbn [fst snd is_raise]. split; [done|]. rewrite Forall_cons. naive_solver.
Qed.

Lemma compared_as_constructed has_pandas schema c :
  constructed_like schema → compared_as has_pandas schema = Ok c → constructed c.
Proof.
  intros Hlike H. unfold compared_as in H. apply bind_Ok in H as (w & Hw & Hcur).
  eauto using as_wrapper_constructed, current_schema_constructed.
Qed.

(** X12. When no schema of the list has a field of the null type,
    [validate_compatible] returns exactly when all schemas (as the resolver
    compares them) have the same list of fields, and it logs nothing. *)
Theorem validate_compatible_without_nulls
    (schemas : list SchemaLike) (ignore_pandas : bool)
    (cs : list SchemaWrapper) :
  Forall (λ s, null_free (pa_schema s)) schemas →
  Forall constructed_like schemas →
  Forall2 (λ s c, compared_as (_pandas_in_schemas schemas && negb ignore_pandas) s
                  = Ok c) schemas cs →
  (is_raise (validate_compatible schemas ignore_pandas).1 = false ↔
   ∀ a b, a ∈ cs → b ∈ cs → fields (internal a) = fields (internal b)) ∧
  (validate_compatible schemas ignore_pandas).2 = [].
Proof using Type*.
  intros Hfree Hlike Hcs. unfold validate_compatible.
  rewrite (resolver_null_free schemas ignore_pandas cs Hfree Hcs).
  rewrite Logged_bind_lift_Ok.
  set (hp := _pandas_in_schemas schemas && negb ignore_pandas) in *. clearbody hp.
  destruct Hcs as [|s r schemas' cs Hr Hcs].
  { cbn. split; [|done]. split; [|done]. intros _ a b Ha. by apply elem_of_nil in Ha. }
  cbn [head tail].
  apply Forall_cons in Hlike as [Hs _].
  pose proof (compared_as_constructed _ _ _ Hs Hr) as Hc.
  destruct (compare_loop_no_nulls r cs) as [Hlog Hloop].
  destruct (compare_loop (Some r) _) as [res log] eqn:Hcmp.
  cbn [fst snd] in Hlog, Hloop. subst log.
  unfold mbind at 1 3, Logged_bind at 1 3. cbn [fst snd].
  destruct res as [[]|e]; cbn [is_raise] in Hloop.
  - rewrite (with_origin_constructed r _ Hc), Logged_bind_lift_Ok.
    cbn. split; [|done]. split; [intros _|done].
    pose proof (proj1 Hloop eq_refl) as Hall. rewrite Forall_forall in Hall.
    assert (∀ a, a ∈ r :: cs → fields (internal r) = fields (internal a)) as Hr'.
    { intros a [->|Ha]%elem_of_cons; [done | by apply Hall]. }
    intros a b Ha Hb. by rewrite <- (Hr' a Ha), <- (Hr' b Hb).
  - cbn. split; [|done]. split; [done|]. intros Hall. apply Hloop.
    apply Forall_forall. intros c Hin. apply Hall; [by left | by right].
Qed.

(** ** The pandas version of the result *)

(** The pandas metadata of the schema names the pandas version [v]. *)
Definition carries_version (v : string) (s : Schema) : Prop :=
  ∃ md pm, metadata s = Some md ∧ pandas md = Some pm ∧ pandas_version pm = v.

Lemma compat_loop_version cols ix s pm s' pm' :
  compat_loop ix cols (s, pm) = Ok (s', pm') →
  pandas_version pm' = pandas_version pm.
Proof.
  revert ix s pm. induction cols as [|col cols IH]; intros ix s pm H.
  - by injection H as <- <-.
  - cbn [compat_loop] in H. apply bind_Ok in H as ([s1 pm1] & Hstep & Hloop).
    apply IH in Hloop. rewrite Hloop. unfold compat_step in Hstep.
    destruct ARROW_LARGER_EQ_0130, col as [c|d]; try by injection Hstep as <- <-.
    case_decide; [|by injection Hstep as <- <-].
    apply bind_Ok in Hstep as (s2 & _ & Hstep). by injection Hstep as <- <-.
Qed.

Lemma SchemaWrapper_init_version v s o w :
  SchemaWrapper_init s o = Ok w → carries_version v s →
  carries_version v (internal w).
Proof.
  intros Hinit (md & pm & Hmd & Hpm & Hv). unfold SchemaWrapper_init in Hinit.
  apply bind_Ok in Hinit as (s' & Hcompat & [= <-]). cbn [internal].
  unfold _schema_compat, _pandas_meta_from_schema in Hcompat. rewrite Hmd in Hcompat.
  assert (Hsub : (if ARROW_LARGER_EQ_0130
                  then Ok (Some md ≫= pandas)
                  else match pandas md with
                       | Some pm => Ok (Some pm)
                       | None => Raise KeyError
                       end) = Ok (Some pm) :> Result (option PandasMetadata)).
  { rewrite Hpm. destruct ARROW_LARGER_EQ_0130; [|done]. simpl. by rewrite Hpm. }
  rewrite Hsub, Result_bind_Ok in Hcompat. cbn [subscript] in Hcompat.
  rewrite Result_bind_Ok in Hcompat. case_decide; [done|].
  apply bind_Ok in Hcompat as ([s1 pm1] & Hloop & [= <-]).
  apply compat_loop_version in Hloop.
  eexists _, pm1. split; [reflexivity|]. split; [done | congruence].
Qed.

Lemma current_schema_version w c :
  current_schema true w = Ok c → carries_version pd_version (internal c).
Proof.
  unfold current_schema. intros H.
  destruct (metadata (internal w)) as [md|]; [|done].
  destruct (pandas md) as [pm|]; [|done].
  eapply SchemaWrapper_init_version; [exact H|]. by eexists _, _.
Qed.

Lemma _swap_fields_by_name_version v ref cur col r' :
  _swap_fields_by_name ref cur col = Ok r' →
  carries_version v (internal ref) → carries_version v (internal r').
Proof.
  unfold _swap_fields_by_name, set. intros H Hv.
  apply bind_Ok in H as (s & Hset & Hinit).
  eapply SchemaWrapper_init_version; [exact Hinit|].
  rewrite schema_set_by_name in Hset. destruct (field_by_name _ _); [|done].
  case_decide; [|done]. by injection Hset as <-.
Qed.

Lemma heal_loop_version v cols cur ref nr r' nr' :
  heal_loop cols cur ref nr = Ok (r', nr') →
  carries_version v (internal ref) → carries_version v (internal r').
Proof.
  revert ref nr. induction cols as [|col cols IH]; intros ref nr H Hv.
  - by injection H as <- _.
  - cbn [heal_loop] in H. apply bind_Ok in H as (r1 & Hswap & H).
    apply bind_Ok in H as (nr1 & _ & H).
    eauto using _swap_fields_by_name_version.
Qed.

Lemma resolver_step_version st schema st' :
  resolver_step true st schema = Ok st' →
  (∀ r, reference st = Some r → carries_version pd_version (internal r)) →
  ∀ r, reference st' = Some r → carries_version pd_version (internal r).
Proof.
  unfold resolver_step. intros H Href.
  apply bind_Ok in H as (w & _ & H).
  apply bind_Ok in H as (current & Hcur%current_schema_version & H). simpl in H.
  destruct (reference st) as [ref|] eqn:Eref.
  - specialize (Href ref eq_refl).
    repeat case_decide;
      try (apply bind_Ok in H as ([r' nr'] & Hheal & H);
           eapply heal_loop_version in Hheal; [|done]);
      injection H as <-; by intros r [= <-].
  - injection H as <-. by intros r [= <-].
Qed.

Lemma resolver_loop_version schemas st st' :
  resolver_loop true schemas st = Ok st' →
  (∀ r, reference st = Some r → carries_version pd_version (internal r)) →
  ∀ r, reference st' = Some r → carries_version pd_version (internal r).
Proof.
  revert st. induction schemas as [|schema rest IH]; intros st H Href.
  - by injection H as <-.
  - cbn [resolver_loop] in H. apply bind_Ok in H as (st1 & Hstep & Hloop).
    eauto using resolver_step_version.
Qed.

(** X13. When pandas metadata takes part in the comparison, the schema that
    [validate_compatible] returns names the installed pandas version in its
    pandas metadata, whatever versions the schemas of the list name. *)
Theorem validate_compatible_pandas_version
    (schemas : list SchemaLike) (result : SchemaWrapper) :
  _pandas_in_schemas schemas = true →
  (validate_compatible schemas false).1 = Ok (Some result) →
  ∃ md pm, metadata (internal result) = Some md ∧ pandas md = Some pm ∧
           pandas_version pm = pd_version.
Proof.
  intros Hp. unfold validate_compatible.
  destruct (_determine_schemas_to_compare schemas false) as [[ref pending]|e] eqn:H;
    [|done].
  rewrite Logged_bind_lift_Ok, Logged_bind_fst.
  destruct (compare_loop ref pending).1 as [[]|e]; [|done].
  destruct ref as [ref|]; [|done].
  rewrite Logged_bind_fst. cbn [lift fst]. unfold with_origin.
  destruct (SchemaWrapper_init (internal ref) _) as [w|e] eqn:Hinit; [|done].
  intros [= <-]. eapply SchemaWrapper_init_version; [exact Hinit|].
  apply _determine_schemas_to_compare_Ok in H as (st & Hloop & Href & _).
  rewrite Hp in Hloop. cbn in Hloop.
  eapply resolver_loop_version; [exact Hloop | | exact Href].
  by intros r [=].
Qed.

(** ** Schemas with the same columns *)

(** X14. For schemas that all list the same field names in the same order,
    each name once, [validate_compatible] raises exactly when the list mixes
    schemas with and without pandas metadata (and pandas is not ignored), or
    when two schemas have different fields for a column that is null in
    neither of them. *)
Theorem validate_compatible_consistent
    (N : list string) (ws : list SchemaWrapper) (ignore_pandas : bool) :
  NoDup N → Forall (same_columns N) ws →
  is_raise (validate_compatible (Wrapped <$> ws) ignore_pandas).1 = true ↔
  (_pandas_in_schemas (Wrapped <$> ws) && negb ignore_pandas = true ∧
   ∃ w, w ∈ ws ∧ has_pandas_key (internal w) = false) ∨
  ¬ consistent ws.
Proof using Type*. apply validate_compatible_unique. Qed.

(** ** validate_shared_columns on columns that are fields *)

Lemma getitem_found s col :
  get_field_index s col >= 0 → ∃ f, getitem s (get_field_index s col) = Ok f.
Proof.
  intros Hge.
  destruct (get_field_index_found s col _ eq_refl Hge) as (Hr & (f & Hf & _) & _).
  exists f. unfold getitem. cbn zeta.
  destruct (decide (get_field_index s col < 0)); [lia|].
  rewrite decide_True by lia. by rewrite Hf.
Qed.

Lemma recorded_field_Some has_pandas s col f :
  recorded_field has_pandas s col = Some f ↔
  ∃ cols, shared_columns has_pandas s = Ok cols ∧ col ∈ cols ∧
          getitem s (get_field_index s col) = Ok f.
Proof.
  unfold recorded_field. destruct (shared_columns has_pandas s) as [cols|e].
  - case_decide as Hin.
    + destruct (getitem s (get_field_index s col)) as [g|e]; split.
      * intros [= ->]. by exists cols.
      * by intros (? & [= <-] & _ & [= ->]).
      * done.
      * by intros (? & _ & _ & [=]).
    + split; [done|]. by intros (? & [= <-] & ? & _).
  - split; [done|]. by intros (? & [=] & _).
Qed.

(** What [check_columns] leaves in [seen], and what it raises for. *)
Lemma check_columns_spec s cols seen :
  (∀ col, col ∈ cols → get_field_index s col >= 0) →
  match check_columns s cols seen with
  | Ok seen' =>
      (∀ col, col ∈ cols →
         ∃ f, getitem s (get_field_index s col) = Ok f ∧ seen' !! col = Some (f, col)) ∧
      (∀ col, col ∉ cols → seen' !! col = seen !! col) ∧
      (∀ col v, seen !! col = Some v → seen' !! col = Some v)
  | Raise _ =>
      ∃ col f ref, col ∈ cols ∧ getitem s (get_field_index s col) = Ok f ∧
                   seen !! col = Some ref ∧ ref ≠ (f, col)
  end.
Proof.
  revert seen. induction cols as [|col cols IH]; intros seen Hfound.
  { cbn. split; [|done]. by intros col ?%elem_of_nil. }
  cbn [check_columns].
  destruct (getitem_found s col) as [f Hf]; [apply Hfound; by left|].
  rewrite Hf, Result_bind_Ok.
  assert (Hfound' : ∀ c, c ∈ cols → get_field_index s c >= 0)
    by (intros c Hc; apply Hfound; by right).
  destruct (seen !! col) as [ref|] eqn:Hseen.
  - case_decide as Hne.
    + exists col, f, ref. split; [by left | done].
    + subst ref. specialize (IH seen Hfound').
      destruct (check_columns s cols seen) as [seen'|e].
      * destruct IH as (Hin & Hout & Hkeep). split; [|split].
        -- intros c [->|Hc]%elem_of_cons; [|by apply Hin].
           exists f. split; [done|]. by apply Hkeep.
        -- intros c [? ?]%not_elem_of_cons. by apply Hout.
        -- done.
      * destruct IH as (c & g & ref & Hc & ?). exists c, g, ref. split; [by right | done].
  - specialize (IH (<[col := (f, col)]> seen) Hfound').
    destruct (check_columns s cols (<[col := (f, col)]> seen)) as [seen'|e].
    + destruct IH as (Hin & Hout & Hkeep). split; [|split].
      * intros c [->|Hc]%elem_of_cons; [|by apply Hin].
        exists f. split; [done|]. apply Hkeep. by rewrite lookup_insert_eq.
      * intros c [Hne ?]%not_elem_of_cons. rewrite Hout by done.
        by rewrite lookup_insert_ne.
      * intros c v Hc. apply Hkeep. rewrite lookup_insert_ne; [done|].
        intros ->. by rewrite Hseen in Hc.
    + destruct IH as (c & g & ref & Hc & Hg & Href & Hne).
      destruct (decide (c = col)) as [->|Hcol].
      * rewrite lookup_insert_eq in Href. injection Href as <-.
        rewrite Hf in Hg. by injection Hg as <-.
      * rewrite lookup_insert_ne in Href by done.
        exists c, g, ref. split; [by right | done].
Qed.

(** The schemas agree on the fields they record for a column. *)
Definition columns_agree (has_pandas : bool) (schemas : list Schema) : Prop :=
  ∀ a b col fa fb, a ∈ schemas → b ∈ schemas →
    recorded_field has_pandas a col = Some fa →
    recorded_field has_pandas b col = Some fb → fa = fb.

(** [seen] holds what the schemas [P] record. *)
Definition seen_records (has_pandas : bool) (P : list Schema)
    (seen : gmap string (Field * string)) : Prop :=
  (∀ col f c, seen !! col = Some (f, c) →
     c = col ∧ ∃ s, s ∈ P ∧ recorded_field has_pandas s col = Some f) ∧
  (∀ s col f, s ∈ P → recorded_field has_pandas s col = Some f →
     seen !! col = Some (f, col)).

Lemma shared_columns_loop_spec has_pandas schemas P seen :
  Forall (λ s, columns_found has_pandas (pa_schema s)) schemas →
  seen_records has_pandas P seen →
  is_raise (shared_columns_loop has_pandas schemas seen) = false ↔
  columns_agree has_pandas (P ++ (pa_schema <$> schemas)).
Proof.
  revert P seen. induction schemas as [|s rest IH]; intros P seen Hfound [Hfrom Hto].
  { cbn. rewrite app_nil_r. split; [intros _|done].
    intros a b col fa fb Ha Hb Hfa Hfb.
    apply (Hto a col fa Ha) in Hfa. apply (Hto b col fb Hb) in Hfb. congruence. }
  apply Forall_cons in Hfound as [(cols & Hcols & Hidx) Hfound].
  cbn [shared_columns_loop fmap list_fmap]. rewrite Hcols, Result_bind_Ok.
  pose proof (check_columns_spec (pa_schema s) cols seen Hidx) as Hcheck.
  destruct (check_columns (pa_schema s) cols seen) as [seen'|e].
  - destruct Hcheck as (Hin & Hout & Hkeep). rewrite Result_bind_Ok.
    rewrite (IH (P ++ [pa_schema s]) seen' Hfound).
    + by rewrite <- app_assoc.
    + split.
      * intros col f c Hs. destruct (decide (col ∈ cols)) as [Hc|Hc].
        -- destruct (Hin col Hc) as (g & Hg & Hs'). rewrite Hs in Hs'.
           injection Hs' as -> ->. split; [done|]. exists (pa_schema s).
           split; [apply elem_of_app; right; by left|].
           apply recorded_field_Some. by exists cols.
        -- rewrite Hout in Hs by done. destruct (Hfrom col f c Hs) as [-> (s0 & Hs0 & Hr)].
           split; [done|]. exists s0. split; [apply elem_of_app; by left | done].
      * intros s0 col f [Hs0|Hs0%list_elem_of_singleton]%elem_of_app Hr.
        -- apply Hkeep. by eapply Hto.
        -- subst s0. apply recorded_field_Some in Hr as (cols' & Hcols' & Hc & Hg).
           rewrite Hcols in Hcols'. injection Hcols' as <-.
           destruct (Hin col Hc) as (g & Hg' & Hs'). congruence.
  - destruct Hcheck as (col & f & [f0 c0] & Hc & Hf & Hs & Hne).
    cbn. split; [done|]. intros Hagree. exfalso.
    destruct (Hfrom col f0 c0 Hs) as [-> (s0 & Hs0 & Hr0)].
    apply Hne. f_equal.
    apply (Hagree s0 (pa_schema s) col f0 f).
    + apply elem_of_app. by left.
    + apply elem_of_app. right. by left.
    + done.
    + apply recorded_field_Some. by exists cols.
Qed.

(** X15. When every column that [validate_shared_columns] walks through is
    a field of its schema, the call returns exactly when any two schemas of
    the list that both have a column have the same field for it; schemas
    need not have the same columns. *)
Theorem validate_shared_columns_spec
    (schemas : list SchemaLike) (ignore_pandas : bool) :
  Forall (λ s, columns_found (_pandas_in_schemas schemas && negb ignore_pandas)
                             (pa_schema s)) schemas →
  validate_shared_columns schemas ignore_pandas = Ok tt ↔
  ∀ a b col fa fb, a ∈ schemas → b ∈ schemas →
    recorded_field (_pandas_in_schemas schemas && negb ignore_pandas)
                   (pa_schema a) col = Some fa →
    recorded_field (_pandas_in_schemas schemas && negb ignore_pandas)
                   (pa_schema b) col = Some fb →
    fa = fb.
Proof.
  intros Hfound. unfold validate_shared_columns.
  set (hp := _pandas_in_schemas schemas && negb ignore_pandas) in *. clearbody hp.
  pose proof (shared_columns_loop_spec hp schemas [] ∅ Hfound) as Hspec.
  rewrite app_nil_l in Hspec.
  assert (Hinit : seen_records hp [] ∅).
  { split; [by intros ? ? ? ?%lookup_empty_Some | by intros ? ? ? ?%elem_of_nil]. }
  specialize (Hspec Hinit).
  assert (Hagree : columns_agree hp (pa_schema <$> schemas) ↔
            ∀ a b col fa fb, a ∈ schemas → b ∈ schemas →
              recorded_field hp (pa_schema a) col = Some fa →
              recorded_field hp (pa_schema b) col = Some fb → fa = fb).
  { unfold columns_agree. split.
    - intros H a b col fa fb Ha Hb. apply H; by apply list_elem_of_fmap_2.
    - intros H a b col fa fb (a' & -> & Ha)%list_elem_of_fmap (b' & -> & Hb)%list_elem_of_fmap.
      by apply H. }
  rewrite <- Hagree, <- Hspec.
  destruct (shared_columns_loop hp schemas ∅); cbn; [done|]. split; done.
Qed.

(** ** The key of a schema in a store *)

(** The string has the character [/] in it. *)
Fixpoint has_slash (s : string) : bool :=
  match s with
  | EmptyString => false
  | String c s' => bool_decide (String c "" = "/") || has_slash s'
  end.

Lemma string_app_nil (s : string) : "" +:+ s = s.
Proof. reflexivity. Qed.
Lemma string_app_cons c (s t : string) : String c s +:+ t = String c (s +:+ t).
Proof. reflexivity. Qed.

Lemma slash_separated (u u' r r' : string) :
  has_slash u = false → has_slash u' = false →
  u +:+ "/" +:+ r = u' +:+ "/" +:+ r' → u = u' ∧ r = r'.
Proof. clear_env.
  revert u'. induction u as [|c u IH]; intros [|c' u'] Hu Hu' H;
    cbn [has_slash] in Hu, Hu'.
  - cbv [String.append] in H. by injection H as ->.
  - cbv [String.append] in H. injection H as <- _.
    by rewrite bool_decide_eq_true_2 in Hu'.
  - cbv [String.append] in H. injection H as -> _.
    by rewrite bool_decide_eq_true_2 in Hu.
  - rewrite (string_app_cons c), (string_app_cons c') in H. injection H as -> H.
    apply orb_false_iff in Hu as [_ Hu]. apply orb_false_iff in Hu' as [_ Hu'].
    destruct (IH u' Hu Hu' H) as [-> ->]. done.
Qed.

Lemma string_app_inv_r (t t' s : string) : t +:+ s = t' +:+ s → t = t'.
Proof. clear_env.
  intros H. assert (String.length t = String.length t') as Hlen.
  { apply (f_equal String.length) in H. rewrite !string_length_app in H. lia. }
  revert t' H Hlen. induction t as [|c t IH]; intros [|c' t'] H Hlen; try done.
  rewrite !string_app_cons in H. cbn [String.length] in Hlen.
  injection H as -> H. f_equal. apply IH; [done | lia].
Qed.

(** X19. Two tables get the same key in the store only if they are the same
    table of the same dataset, as long as the dataset identifiers have no
    [/] in them. *)
Theorem _get_common_metadata_key_inj (dataset_uuid dataset_uuid' table table' : string) :
  has_slash dataset_uuid = false → has_slash dataset_uuid' = false →
  _get_common_metadata_key dataset_uuid table =
    _get_common_metadata_key dataset_uuid' table' →
  dataset_uuid = dataset_uuid' ∧ table = table'.
Proof.
  unfold _get_common_metadata_key. intros Hu Hu' H.
  apply slash_separated in H as [-> H]; [|done..].
  split; [done|]. by apply string_app_inv_r in H.
Qed.

(** ** normalize_column_order *)

(** The field that the loop of [normalize_column_order] pairs a column
    with: the field of that name, when the schema has exactly one. *)
Definition column_field (w : SchemaWrapper) (cmd : ColumnMetadata) : option Field :=
  if decide (get_field_index (internal w) (field_name cmd) >= 0)
  then fields (internal w) !! Z.to_nat (get_field_index (internal w) (field_name cmd))
  else None.

Definition column_entry (w : SchemaWrapper) (cmd : ColumnMetadata)
    : ColumnMetadata * option Field :=
  (cmd, column_field w cmd).

(** The contents of the three collections after the loop. *)
Definition misc_of (w : SchemaWrapper) (cmds : list ColumnMetadata)
    : list (ColumnMetadata * option Field) :=
  omap (λ cmd, match c_name cmd with
               | None => Some (column_entry w cmd)
               | Some _ => None
               end) cmds.

Definition payload_of (w : SchemaWrapper) (pk : list string)
    (cmds : list ColumnMetadata) : list (string * ColumnMetadata * option Field) :=
  omap (λ cmd, match c_name cmd with
               | Some n => if decide (n ∈ pk) then None
                           else Some (n, cmd, column_field w cmd)
               | None => None
               end) cmds.

Definition partition_of (w : SchemaWrapper) (pk : list string)
    (cmds : list ColumnMetadata) (m : gmap string (ColumnMetadata * option Field))
    : gmap string (ColumnMetadata * option Field) :=
  foldl (λ m cmd, match c_name cmd with
                  | Some n => if decide (n ∈ pk) then <[n := column_entry w cmd]> m
                              else m
                  | None => m
                  end) m cmds.

Lemma getitem_nonneg s i f :
  0 <= i → fields s !! Z.to_nat i = Some f → getitem s i = Ok f.
Proof.
  intros Hi Hf. unfold getitem. cbn zeta.
  destruct (decide (i < 0)); [lia|].
  apply lookup_lt_Some in Hf as Hlt.
  rewrite decide_True by lia. by rewrite Hf.
Qed.

Lemma column_field_Some w cmd f :
  column_field w cmd = Some f →
  get_field_index (internal w) (field_name cmd) >= 0 ∧
  f ∈ fields (internal w) ∧ name f = field_name cmd.
Proof.
  unfold column_field. case_decide as Hge; [|done]. intros Hf.
  destruct (get_field_index_found _ _ _ eq_refl Hge) as (_ & (g & Hg & Hn) & _).
  rewrite Hg in Hf. injection Hf as <-.
  split; [done|]. split; [by eapply list_elem_of_lookup_2 | done].
Qed.

Lemma group_column_eq w pk g cmd :
  group_column w pk g cmd =
    Ok match c_name cmd with
       | None =>
           {| cols_partition := cols_partition g;
              cols_payload := cols_payload g;
              cols_misc := cols_misc g ++ [column_entry w cmd] |}
       | Some n =>
           if decide (n ∈ pk) then
             {| cols_partition := <[n := column_entry w cmd]> (cols_partition g);
                cols_payload := cols_payload g;
                cols_misc := cols_misc g |}
           else
             {| cols_partition := cols_partition g;
                cols_payload := cols_payload g ++ [(n, cmd, column_field w cmd)];
                cols_misc := cols_misc g |}
       end.
Proof.
  unfold group_column, column_entry, column_field, __getitem__.
  destruct (decide (get_field_index (internal w) (field_name cmd) >= 0)) as [Hge|Hlt].
  - destruct (get_field_index_found _ _ _ eq_refl Hge) as (_ & (f & Hf & _) & _).
    rewrite (getitem_nonneg _ _ f) by (done || lia). rewrite Hf, !Result_bind_Ok.
    destruct (c_name cmd) as [n|]; [|done]. by case_decide.
  - rewrite Result_bind_Ok. destruct (c_name cmd) as [n|]; [|done]. by case_decide.
Qed.

Lemma group_columns_eq w pk cmds g :
  group_columns w pk cmds g =
    Ok {| cols_partition := partition_of w pk cmds (cols_partition g);
          cols_payload := cols_payload g ++ payload_of w pk cmds;
          cols_misc := cols_misc g ++ misc_of w cmds |}.
Proof.
  revert g. induction cmds as [|cmd cmds IH]; intros g.
  { cbn. rewrite !app_nil_r. by destruct g. }
  cbn [group_columns]. rewrite group_column_eq, Result_bind_Ok, IH.
  unfold partition_of, payload_of, misc_of. cbn [foldl omap list_omap].
  destruct (c_name cmd) as [n|]; cbn [cols_partition cols_payload cols_misc].
  - destruct (decide (n ∈ pk)); cbn [cols_partition cols_payload cols_misc];
      by rewrite <- ?app_assoc.
  - by rewrite <- app_assoc.
Qed.

(** Every entry of the three collections pairs a column of the metadata
    with the field found for it. *)
Lemma partition_of_lookup w pk cmds m k e :
  partition_of w pk cmds m !! k = Some e →
  m !! k = Some e ∨ ∃ cmd, cmd ∈ cmds ∧ c_name cmd = Some k ∧ e = column_entry w cmd.
Proof.
  revert m. induction cmds as [|cmd cmds IH]; intros m H; [by left|].
  cbn [partition_of foldl] in H. apply IH in H as [H|(c & Hc & Hn & He)].
  - destruct (c_name cmd) as [n|] eqn:Hname; [|by left].
    case_decide; [|by left].
    destruct (decide (n = k)) as [->|Hne].
    + rewrite lookup_insert_eq in H. injection H as <-.
      right. exists cmd. split; [by left | done].
    + rewrite lookup_insert_ne in H by done. by left.
  - right. exists c. split; [by right | done].
Qed.

Lemma elem_of_payload_of w pk cmds n cmd f :
  (n, cmd, f) ∈ payload_of w pk cmds ↔
  cmd ∈ cmds ∧ c_name cmd = Some n ∧ (n ∉ pk) ∧ f = column_field w cmd.
Proof.
  unfold payload_of. rewrite list_elem_of_omap. split.
  - intros (c & Hc & H). destruct (c_name c) as [n'|] eqn:Hn; [|done].
    case_decide; [done|]. by injection H as <- <- <-.
  - intros (Hc & Hn & Hpk & ->). exists cmd. split; [done|].
    rewrite Hn. by rewrite decide_False.
Qed.

Lemma elem_of_misc_of w cmds e :
  e ∈ misc_of w cmds ↔ ∃ cmd, cmd ∈ cmds ∧ c_name cmd = None ∧ e = column_entry w cmd.
Proof.
  unfold misc_of. rewrite list_elem_of_omap. split.
  - intros (c & Hc & H). destruct (c_name c) eqn:Hn; [done|].
    injection H as <-. by exists c.
  - intros (c & Hc & Hn & ->). exists c. split; [done|]. by rewrite Hn.
Qed.

(** The stable sort gives a sorted rearrangement, and leaves a sorted list
    as it is. *)
Lemma insert_by_key_perm {A} (key : A → string) x l :
  insert_by_key key x l ≡ₚ x :: l.
Proof.
  induction l as [|y l IH]; [done|]. cbn [insert_by_key].
  case_decide; [done|]. by rewrite IH, Permutation_swap.
Qed.

Lemma sorted_by_key_perm {A} (key : A → string) l : sorted_by_key key l ≡ₚ l.
Proof.
  induction l as [|x l IH]; [done|]. unfold sorted_by_key. cbn [foldr].
  rewrite insert_by_key_perm. by f_equiv.
Qed.

Lemma str_le_total a b : str_le a b ∨ str_le b a.
Proof.
  unfold str_le. destruct (String.leb_total a b) as [->| ->]; [by left | by right].
Qed.

Lemma insert_by_key_sorted {A} (key : A → string) x l :
  Sorted (λ a b, str_le (key a) (key b)) l →
  Sorted (λ a b, str_le (key a) (key b)) (insert_by_key key x l).
Proof.
  induction 1 as [|y l Hl IH Hhd]; cbn [insert_by_key].
  { by repeat constructor. }
  case_decide as Hxy.
  - constructor; [by constructor | by constructor].
  - constructor; [done|].
    assert (str_le (key y) (key x)) as Hyx by (by destruct (str_le_total (key x) (key y))).
    destruct Hhd as [|z l' Hz]; cbn [insert_by_key]; [by constructor|].
    case_decide; by constructor.
Qed.

Lemma sorted_by_key_sorted {A} (key : A → string) l :
  Sorted (λ a b, str_le (key a) (key b)) (sorted_by_key key l).
Proof.
  induction l as [|x l IH]; [constructor|]. by apply insert_by_key_sorted.
Qed.

Lemma sorted_by_key_fix {A} (key : A → string) l :
  Sorted (λ a b, str_le (key a) (key b)) l → sorted_by_key key l = l.
Proof.
  induction 1 as [|x l Hl IH Hhd]; [done|].
  unfold sorted_by_key in *. cbn [foldr]. rewrite IH.
  destruct Hhd as [|y l' Hxy]; [done|]. cbn [insert_by_key]. by rewrite decide_True.
Qed.

(** The three collections for the columns [cmds] of the wrapper [w]. *)
Definition grouped (w : SchemaWrapper) (pk : list string)
    (cmds : list ColumnMetadata) : ColumnGroups :=
  {| cols_partition := partition_of w pk cmds ∅;
     cols_payload := payload_of w pk cmds;
     cols_misc := misc_of w cmds |}.

Lemma ordered_columns_entries w pk cmds e :
  e ∈ ordered_columns pk (grouped w pk cmds) →
  ∃ cmd, cmd ∈ cmds ∧ e = column_entry w cmd.
Proof.
  unfold ordered_columns, grouped. cbn [cols_partition cols_payload cols_misc].
  intros [H|[H|H]%elem_of_app]%elem_of_app.
  - apply list_elem_of_omap in H as (k & _ & H).
    apply partition_of_lookup in H as [H|(cmd & Hc & _ & ->)]; [done|]. by exists cmd.
  - apply list_elem_of_fmap in H as ([[n cmd] f] & -> & H).
    rewrite sorted_by_key_perm in H.
    apply elem_of_payload_of in H as (Hc & _ & _ & ->). by exists cmd.
  - apply elem_of_misc_of in H as (cmd & Hc & _ & ->). by exists cmd.
Qed.

Lemma ordered_columns_fields w pk cmds :
  omap snd (ordered_columns pk (grouped w pk cmds)) =
  omap (column_field w) (fst <$> ordered_columns pk (grouped w pk cmds)).
Proof.
  pose proof (ordered_columns_entries w pk cmds) as H.
  induction (ordered_columns pk (grouped w pk cmds)) as [|e l IH]; [done|].
  destruct (H e) as (cmd & _ & ->); [by left|].
  cbn. rewrite IH; [done|]. intros e' He'. apply H. by right.
Qed.

Lemma _pandas_meta_from_schema_Some s md pm :
  metadata s = Some md → pandas md = Some pm →
  _pandas_meta_from_schema s = Ok (Some pm).
Proof.
  intros Hmd Hpm. unfold _pandas_meta_from_schema. rewrite Hmd, Hpm.
  destruct ARROW_LARGER_EQ_0130; [|done]. cbn. by rewrite Hpm.
Qed.

(** What [normalize_column_order] returns for a wrapper as the constructor
    leaves it. *)
Lemma normalize_column_order_eq w pk md pm :
  constructed w → metadata (internal w) = Some md → pandas md = Some pm →
  normalize_column_order (Wrapped w) pk =
    Ok {| internal :=
            {| fields :=
                 omap snd (ordered_columns (default [] pk)
                             (grouped w (default [] pk) (columns pm)));
               metadata :=
                 Some {| pandas :=
                           Some {| index_columns := index_columns pm;
                                   columns :=
                                     fst <$> ordered_columns (default [] pk)
                                               (grouped w (default [] pk) (columns pm));
                                   pandas_version := pandas_version pm |};
                         other_keys := [] |} |};
          origin := origin w |}.
Proof.
  intros Hc Hmd Hpm. unfold normalize_column_order. cbn [as_wrapper].
  rewrite Result_bind_Ok, (_pandas_meta_from_schema_Some _ md pm Hmd Hpm).
  rewrite Result_bind_Ok. cbn [subscript]. rewrite Result_bind_Ok.
  rewrite group_columns_eq, Result_bind_Ok. cbn [cols_partition cols_payload cols_misc].
  rewrite !app_nil_l. fold (grouped w (default [] pk) (columns pm)). rewrite Hmd.
  apply constructed_noop in Hc. unfold compat_noop in Hc. rewrite Hmd in Hc.
  destruct Hc as (Hkeys & pm0 & Hpm0 & Hlen & Hsettled).
  rewrite Hpm in Hpm0. injection Hpm0 as <-. rewrite Hkeys.
  apply SchemaWrapper_init_noop. unfold compat_noop. cbn [metadata other_keys pandas].
  split; [done|]. eexists. split; [done|]. cbn [index_columns]. split; [done|].
  eapply Forall_impl; [exact Hsettled|]. intros col.
  apply index_settled_ext. intros c Hlt.
  destruct (decide (get_field_index
    {| fields := omap snd (ordered_columns (default [] pk)
                             (grouped w (default [] pk) (columns pm)));
       metadata := Some {| pandas := Some {| index_columns := index_columns pm;
                             columns := fst <$> ordered_columns (default [] pk)
                                          (grouped w (default [] pk) (columns pm));
                             pandas_version := pandas_version pm |};
                           other_keys := [] |} |} c >= 0)) as [Hge|]; [|lia].
  exfalso.
  destruct (get_field_index_found _ _ _ eq_refl Hge) as (_ & (f & Hf & Hn) & _).
  cbn [fields] in Hf. apply list_elem_of_lookup_2 in Hf.
  apply list_elem_of_omap in Hf as (e & He & Hsnd).
  apply ordered_columns_entries in He as (cmd & _ & ->). cbn in Hsnd.
  apply column_field_Some in Hsnd as (Hge' & _ & Hname).
  rewrite <- Hname, Hn in Hge'. lia.
Qed.

Lemma normalize_column_order_as_wrapper schema pk w :
  as_wrapper schema = Ok w →
  normalize_column_order schema pk = normalize_column_order (Wrapped w) pk.
Proof. intros H. unfold normalize_column_order. by rewrite H. Qed.

(** X20. [normalize_column_order] raises for a schema that has no pandas
    entry in its metadata (or no metadata at all). *)
Theorem normalize_column_order_needs_pandas
    (schema : SchemaLike) (partition_keys : option (list string)) :
  has_pandas_key (pa_schema schema) = false →
  is_raise (normalize_column_order schema partition_keys) = true.
Proof.
  rewrite has_pandas_key_spec. intros Hkey. unfold normalize_column_order.
  assert (Hraise : ∀ w, match metadata (internal w) with
                        | Some md => match pandas md with
                                     | Some _ => true | None => false end
                        | None => false
                        end = false →
            is_raise (_pandas_meta_from_schema (internal w) ≫= subscript) = true).
  { intros w Hw. unfold _pandas_meta_from_schema.
    destruct (metadata (internal w)) as [md|]; [destruct (pandas md) eqn:Hp; [done|]|];
      destruct ARROW_LARGER_EQ_0130; cbn; by rewrite ?Hp. }
  destruct schema as [w|s]; cbn [as_wrapper pa_schema] in *.
  - rewrite Result_bind_Ok. specialize (Hraise w Hkey).
    destruct (_pandas_meta_from_schema (internal w)) as [[pm|]|e]; done.
  - unfold SchemaWrapper_init, _schema_compat.
    destruct (metadata s) as [md|] eqn:Hmd.
    + destruct (pandas md) eqn:Hp; [done|]. unfold _pandas_meta_from_schema.
      rewrite Hmd, Hp. destruct ARROW_LARGER_EQ_0130; cbn; by rewrite ?Hp.
    + rewrite !Result_bind_Ok. cbn [internal origin].
      specialize (Hraise {| internal := s; origin := {["__unknown__"]} |}).
      cbn [internal] in Hraise. rewrite Hmd in Hraise. specialize (Hraise eq_refl).
      destruct (_pandas_meta_from_schema s) as [[pm|]|e]; done.
Qed.

(** X21. The schema that [normalize_column_order] returns has the origin,
    the index columns and the pandas version of the one it was given; its
    columns are columns of the given schema, and its fields are, in the
    order of its columns, the fields that the columns name in the given
    schema.  A field that no column names is not in the result. *)
Theorem normalize_column_order_fields
    (schema : SchemaLike) (partition_keys : option (list string))
    (w result : SchemaWrapper) (pm : PandasMetadata) :
  constructed_like schema → as_wrapper schema = Ok w →
  metadata (internal w) ≫= pandas = Some pm →
  normalize_column_order schema partition_keys = Ok result →
  origin result = origin w ∧
  ∃ pm', metadata (internal result) ≫= pandas = Some pm' ∧
         index_columns pm' = index_columns pm ∧
         pandas_version pm' = pandas_version pm ∧
         (∀ c, c ∈ columns pm' → c ∈ columns pm) ∧
         fields (internal result) = omap (column_field w) (columns pm').
Proof.
  intros Hlike Hw Hpm H.
  pose proof (as_wrapper_constructed _ _ Hw Hlike) as Hc.
  rewrite (normalize_column_order_as_wrapper _ _ _ Hw) in H.
  destruct (metadata (internal w)) as [md|] eqn:Hmd; [|done]. cbn in Hpm.
  rewrite (normalize_column_order_eq w _ md pm Hc Hmd Hpm) in H. injection H as <-.
  cbn [origin internal metadata fields]. split; [done|].
  eexists. split; [reflexivity|]. cbn [index_columns pandas_version columns].
  split; [done|]. split; [done|]. split.
  - intros c (e & -> & He)%list_elem_of_fmap.
    by apply ordered_columns_entries in He as (cmd & Hcmd & ->).
  - apply ordered_columns_fields.
Qed.

(** The name of a column, and the two kinds of named columns. *)
Definition column_name (c : ColumnMetadata) : string := default "" (c_name c).

Definition is_partition_column (pk : list string) (c : ColumnMetadata) : bool :=
  match c_name c with
  | Some n => bool_decide (n ∈ pk)
  | None => false
  end.

Definition is_payload_column (pk : list string) (c : ColumnMetadata) : bool :=
  match c_name c with
  | Some n => bool_decide (n ∉ pk)
  | None => false
  end.

Lemma misc_of_columns w cmds :
  fst <$> misc_of w cmds = filter (λ c, c_name c = None) cmds.
Proof.
  induction cmds as [|c cmds IH]; [done|]. unfold misc_of in *. cbn [omap list_omap].
  destruct (c_name c) eqn:Hn.
  - rewrite filter_cons_False by (by rewrite Hn). done.
  - rewrite filter_cons_True by done. cbn. by f_equal.
Qed.

Lemma payload_of_columns w pk cmds :
  (λ x, x.1.2) <$> payload_of w pk cmds =
    filter (λ c, is_payload_column pk c = true) cmds.
Proof.
  induction cmds as [|c cmds IH]; [done|]. unfold payload_of in *.
  cbn [omap list_omap]. unfold is_payload_column at 2.
  destruct (c_name c) as [n|] eqn:Hn.
  - destruct (decide (n ∈ pk)) as [Hin|Hin].
    + rewrite filter_cons_False; [done|]. unfold is_payload_column. rewrite Hn.
      by rewrite bool_decide_eq_false_2 by (by intros ?).
    + rewrite filter_cons_True; [cbn; by f_equal|]. unfold is_payload_column.
      rewrite Hn. by apply bool_decide_eq_true_2.
  - rewrite filter_cons_False; [done|]. unfold is_payload_column. by rewrite Hn.
Qed.

Lemma payload_of_named w pk cmds :
  Forall (λ x, c_name x.1.2 = Some x.1.1 ∧ x.2 = column_field w x.1.2)
         (payload_of w pk cmds).
Proof.
  apply Forall_forall. intros [[n c] f] H.
  by apply elem_of_payload_of in H as (_ & Hn & _ & ->).
Qed.

Lemma sorted_columns (l : list (string * ColumnMetadata * option Field)) :
  Forall (λ x, c_name x.1.2 = Some x.1.1) l →
  Sorted (λ a b, str_le a.1.1 b.1.1) l →
  Sorted (λ a b, str_le (column_name a) (column_name b)) ((λ x, x.1.2) <$> l).
Proof.
  intros Hall Hs. induction Hs as [|x l Hl IH Hhd]; [constructor|].
  apply Forall_cons in Hall as [Hx Hall]. cbn [fmap list_fmap].
  constructor; [by apply IH|].
  destruct Hhd as [|y l' Hxy]; [constructor|].
  apply Forall_cons in Hall as [Hy _]. constructor.
  unfold column_name. by rewrite Hx, Hy.
Qed.

Lemma partition_of_mono w pk cmds m k :
  is_Some (m !! k) → is_Some (partition_of w pk cmds m !! k).
Proof.
  revert m. induction cmds as [|c cmds IH]; intros m Hm; [done|].
  cbn [partition_of foldl]. apply IH.
  destruct (c_name c) as [n|]; [|done]. case_decide; [|done].
  apply lookup_insert_is_Some'. by right.
Qed.

Lemma partition_of_is_Some w pk cmds m k :
  k ∈ pk → (∃ c, c ∈ cmds ∧ c_name c = Some k) →
  is_Some (partition_of w pk cmds m !! k).
Proof.
  intros Hk. revert m. induction cmds as [|c cmds IH]; intros m (c0 & Hc0 & Hn).
  { by apply elem_of_nil in Hc0. }
  cbn [partition_of foldl]. apply elem_of_cons in Hc0 as [<-|Hc0].
  - rewrite Hn, decide_True by done. apply partition_of_mono.
    rewrite lookup_insert_eq. by eexists.
  - apply IH. by exists c0.
Qed.

Lemma partition_part w pk cmds ks :
  (∀ k, k ∈ ks → k ∈ pk) →
  Forall2 (λ k c, c_name c = Some k ∧ c ∈ cmds)
          (filter (λ k, Some k ∈ c_name <$> cmds) ks)
          (fst <$> omap (λ k, partition_of w pk cmds ∅ !! k) ks).
Proof.
  induction ks as [|k ks IH]; intros Hks; [constructor|].
  cbn [omap list_omap].
  destruct (partition_of w pk cmds ∅ !! k) as [e|] eqn:He.
  - pose proof He as [?|(c & Hc & Hn & ->)]%partition_of_lookup; [done|].
    rewrite filter_cons_True.
    + cbn. constructor; [done|]. apply IH. intros k' Hk'. apply Hks. by right.
    + apply list_elem_of_fmap. by exists c.
  - rewrite filter_cons_False.
    + apply IH. intros k' Hk'. apply Hks. by right.
    + intros (c & Hn & Hc)%list_elem_of_fmap.
      destruct (partition_of_is_Some w pk cmds ∅ k) as [e He']; [apply Hks; by left | by exists c |].
      by rewrite He in He'.
Qed.

(** X22. The columns of the schema that [normalize_column_order] returns
    are in three runs: first the columns named by a partition key, in the
    order of the keys; then the other named columns, sorted by name; last
    the unnamed columns, in the order they had. *)
Theorem normalize_column_order_sorted
    (schema : SchemaLike) (partition_keys : option (list string))
    (w result : SchemaWrapper) (pm pm' : PandasMetadata) :
  constructed_like schema → as_wrapper schema = Ok w →
  metadata (internal w) ≫= pandas = Some pm →
  normalize_column_order schema partition_keys = Ok result →
  metadata (internal result) ≫= pandas = Some pm' →
  ∃ P Q M,
    columns pm' = P ++ Q ++ M ∧
    Forall2 (λ k c, c_name c = Some k ∧ c ∈ columns pm)
            (filter (λ k, Some k ∈ c_name <$> columns pm) (default [] partition_keys))
            P ∧
    Q ≡ₚ filter (λ c, is_payload_column (default [] partition_keys) c = true)
                (columns pm) ∧
    Sorted (λ a b, str_le (column_name a) (column_name b)) Q ∧
    M = filter (λ c, c_name c = None) (columns pm).
Proof.
  intros Hlike Hw Hpm H Hpm'.
  pose proof (as_wrapper_constructed _ _ Hw Hlike) as Hc.
  rewrite (normalize_column_order_as_wrapper _ _ _ Hw) in H.
  destruct (metadata (internal w)) as [md|] eqn:Hmd; [|done]. cbn in Hpm.
  rewrite (normalize_column_order_eq w _ md pm Hc Hmd Hpm) in H. injection H as <-.
  cbn in Hpm'. injection Hpm' as <-. cbn [columns].
  set (pk := default [] partition_keys).
  unfold ordered_columns, grouped. cbn [cols_partition cols_payload cols_misc].
  rewrite !fmap_app, <- list_fmap_compose.
  eexists _, _, _. split; [reflexivity|]. split; [|split; [|split]].
  - by apply partition_part.
  - rewrite <- (payload_of_columns w).
    change ((fst ∘ λ x : string * ColumnMetadata * option Field, (x.1.2, x.2)))
      with (λ x : string * ColumnMetadata * option Field, x.1.2).
    by rewrite sorted_by_key_perm.
  - change ((fst ∘ λ x : string * ColumnMetadata * option Field, (x.1.2, x.2)))
      with (λ x : string * ColumnMetadata * option Field, x.1.2).
    apply sorted_columns; [|apply sorted_by_key_sorted].
    rewrite sorted_by_key_perm. eapply Forall_impl; [apply payload_of_named|].
    by intros x [? _].
  - apply misc_of_columns.
Qed.

(** *** Normalising twice *)

Lemma named_unique cmds c c' n :
  NoDup (omap c_name cmds) → c ∈ cmds → c' ∈ cmds →
  c_name c = Some n → c_name c' = Some n → c = c'.
Proof.
  induction cmds as [|c0 cmds IH]; intros Hnd Hc Hc' Hn Hn'.
  { by apply elem_of_nil in Hc. }
  cbn [omap list_omap] in Hnd.
  assert (Hnot : ∀ x, x ∈ cmds → c_name x = Some n → c_name c0 = Some n → False).
  { intros x Hx Hxn H0. rewrite H0 in Hnd. apply NoDup_cons in Hnd as [Hnin _].
    apply Hnin, list_elem_of_omap. by exists x. }
  assert (Hnd' : NoDup (omap c_name cmds)).
  { destruct (c_name c0); [by apply NoDup_cons in Hnd as [_ ?] | done]. }
  apply elem_of_cons in Hc as [->|Hc]; apply elem_of_cons in Hc' as [->|Hc'].
  - done.
  - by destruct (Hnot c' Hc' Hn' Hn).
  - by destruct (Hnot c Hc Hn Hn').
  - by apply IH.
Qed.

Lemma partition_of_key w pk cmds m k e :
  partition_of w pk cmds m !! k = Some e → m !! k = Some e ∨ k ∈ pk.
Proof.
  revert m. induction cmds as [|c cmds IH]; intros m H; [by left|].
  cbn [partition_of foldl] in H. apply IH in H as [H|H]; [|by right].
  destruct (c_name c) as [n|]; [|by left]. case_decide; [|by left].
  destruct (decide (n = k)) as [->|Hne]; [by right|].
  rewrite lookup_insert_ne in H by done. by left.
Qed.

Lemma partition_of_unique w pk cmds k e :
  NoDup (omap c_name cmds) →
  partition_of w pk cmds ∅ !! k = Some e ↔
  k ∈ pk ∧ ∃ c, c ∈ cmds ∧ c_name c = Some k ∧ e = column_entry w c.
Proof.
  intros Hnd. split.
  - intros H. split.
    + by apply partition_of_key in H as [?|?].
    + by apply partition_of_lookup in H as [?|?].
  - intros (Hk & c & Hc & Hn & ->).
    destruct (partition_of_is_Some w pk cmds ∅ k Hk) as [e He]; [by exists c|].
    rewrite He. f_equal.
    apply partition_of_lookup in He as [?|(c' & Hc' & Hn' & ->)]; [done|].
    by rewrite (named_unique cmds c c' k).
Qed.

Lemma three_runs (P1 P2 P3 : ColumnMetadata → Prop)
    `{∀ c, Decision (P1 c)} `{∀ c, Decision (P2 c)} `{∀ c, Decision (P3 c)}
    (cmds : list ColumnMetadata) :
  (∀ c, (P1 c ∧ ¬ P2 c ∧ ¬ P3 c) ∨ (¬ P1 c ∧ P2 c ∧ ¬ P3 c) ∨ (¬ P1 c ∧ ¬ P2 c ∧ P3 c)) →
  filter P1 cmds ++ filter P2 cmds ++ filter P3 cmds ≡ₚ cmds.
Proof.
  intros Hcases. induction cmds as [|c cmds IH]; [done|].
  destruct (Hcases c) as [(Ha & Hb & Hc)|[(Ha & Hb & Hc)|(Ha & Hb & Hc)]].
  - rewrite (filter_cons_True P1), (filter_cons_False P2), (filter_cons_False P3) by done.
    cbn. by f_equiv.
  - rewrite (filter_cons_False P1), (filter_cons_True P2), (filter_cons_False P3) by done.
    rewrite <- app_comm_cons, <- Permutation_middle. by f_equiv.
  - rewrite (filter_cons_False P1), (filter_cons_False P2), (filter_cons_True P3) by done.
    rewrite app_assoc, <- Permutation_middle, <- app_assoc. by f_equiv.
Qed.

Lemma column_kinds pk c :
  (is_partition_column pk c = true ∧ ¬ is_payload_column pk c = true ∧ ¬ c_name c = None) ∨
  (¬ is_partition_column pk c = true ∧ is_payload_column pk c = true ∧ ¬ c_name c = None) ∨
  (¬ is_partition_column pk c = true ∧ ¬ is_payload_column pk c = true ∧ c_name c = None).
Proof.
  unfold is_partition_column, is_payload_column. destruct (c_name c) as [n|].
  - destruct (decide (n ∈ pk)).
    + left. rewrite bool_decide_eq_true_2, bool_decide_eq_false_2 by (done || by intros ?).
      done.
    + right. left. rewrite bool_decide_eq_false_2, bool_decide_eq_true_2 by done. done.
  - right. right. done.
Qed.

Lemma Forall2_named_NoDup (cmds : list ColumnMetadata) (ks : list string)
    (P : list ColumnMetadata) :
  Forall2 (λ k c, c_name c = Some k ∧ c ∈ cmds) ks P → NoDup ks → NoDup P.
Proof.
  induction 1 as [|k c ks P [Hn _] HF IH]; intros Hnd; [constructor|].
  apply NoDup_cons in Hnd as [Hk Hnd]. apply NoDup_cons. split; [|by apply IH].
  intros Hc. apply list_elem_of_lookup in Hc as [i Hi].
  destruct (Forall2_lookup_r _ _ _ _ _ HF Hi) as (k' & Hk' & Hn' & _).
  rewrite Hn in Hn'. injection Hn' as <-. apply Hk. by eapply list_elem_of_lookup_2.
Qed.

(** Under the three conditions the columns are only rearranged. *)
Lemma ordered_columns_perm w pk cmds :
  NoDup (field_name <$> cmds) → NoDup (omap c_name cmds) → NoDup pk →
  fst <$> ordered_columns pk (grouped w pk cmds) ≡ₚ cmds.
Proof.
  intros Hfn Hnames Hpk.
  assert (NoDup cmds) as Hcmds by (by eapply NoDup_fmap_1).
  unfold ordered_columns, grouped. cbn [cols_partition cols_payload cols_misc].
  rewrite !fmap_app, <- list_fmap_compose.
  change ((fst ∘ λ x : string * ColumnMetadata * option Field, (x.1.2, x.2)))
    with (λ x : string * ColumnMetadata * option Field, x.1.2).
  rewrite sorted_by_key_perm, payload_of_columns, misc_of_columns.
  trans (filter (λ c, is_partition_column pk c = true) cmds
         ++ filter (λ c, is_payload_column pk c = true) cmds
         ++ filter (λ c, c_name c = None) cmds);
    [|apply three_runs, column_kinds].
  apply Permutation_app; [|done]. apply NoDup_Permutation.
  - eapply Forall2_named_NoDup; [by apply partition_part|].
    by apply NoDup_filter.
  - by apply NoDup_filter.
  - intros c. rewrite list_elem_of_filter, list_elem_of_fmap. split.
    + intros (e & -> & He). apply list_elem_of_omap in He as (k & Hk & He).
      apply partition_of_unique in He as (_ & c & Hc & Hn & ->); [|done].
      cbn. split; [|done]. unfold is_partition_column. rewrite Hn.
      by apply bool_decide_eq_true_2.
    + intros [Hpart Hc]. unfold is_partition_column in Hpart.
      destruct (c_name c) as [n|] eqn:Hn; [|done]. apply bool_decide_eq_true in Hpart.
      exists (column_entry w c). split; [done|]. apply list_elem_of_omap.
      exists n. split; [done|]. apply partition_of_unique; [done|]. split; [done|].
      by exists c.
Qed.

Lemma column_fields_names w cmds :
  name <$> omap (column_field w) cmds `sublist_of` field_name <$> cmds.
Proof.
  induction cmds as [|c cmds IH]; [done|]. cbn [omap list_omap fmap list_fmap].
  destruct (column_field w c) as [f|] eqn:Hf.
  - apply column_field_Some in Hf as (_ & _ & <-). by apply sublist_skip.
  - by apply sublist_cons.
Qed.

Lemma field_name_unique (cmds : list ColumnMetadata) c c' :
  NoDup (field_name <$> cmds) → c ∈ cmds → c' ∈ cmds →
  field_name c = field_name c' → c = c'.
Proof.
  intros Hnd [i Hi]%list_elem_of_lookup [j Hj]%list_elem_of_lookup Heq.
  assert (i = j) as ->.
  { eapply NoDup_lookup; [exact Hnd | |].
    - by rewrite list_lookup_fmap, Hi.
    - by rewrite list_lookup_fmap, Hj, Heq. }
  congruence.
Qed.

(** The fields found in the returned schema are the ones found in the
    given schema. *)
Lemma column_field_stable w cmds md o c :
  NoDup (field_name <$> cmds) → c ∈ cmds →
  column_field {| internal := {| fields := omap (column_field w) cmds;
                                 metadata := md |};
                  origin := o |} c = column_field w c.
Proof.
  intros Hnd Hc.
  set (s' := {| fields := omap (column_field w) cmds; metadata := md |}).
  assert (NoDup (names s')) as Hnames.
  { unfold names, s'. cbn [fields].
    eapply sublist_NoDup; [exact Hnd | apply column_fields_names]. }
  destruct (column_field w c) as [f|] eqn:Hf.
  - assert (f ∈ fields s') as [p Hp]%list_elem_of_lookup.
    { unfold s'. cbn [fields]. apply list_elem_of_omap. by exists c. }
    pose proof (get_field_index_unique s' p f Hnames Hp) as Hix.
    apply column_field_Some in Hf as (_ & _ & Hn). rewrite Hn in Hix.
    unfold column_field. cbn [internal]. rewrite Hix, decide_True by lia.
    by rewrite Nat2Z.id.
  - unfold column_field. cbn [internal]. case_decide as Hge; [|done]. exfalso.
    destruct (get_field_index_found _ _ _ eq_refl Hge) as (_ & (f & Hfs & Hn) & _).
    apply list_elem_of_lookup_2 in Hfs. unfold s' in Hfs. cbn [fields] in Hfs.
    apply list_elem_of_omap in Hfs as (c' & Hc' & Hf').
    pose proof Hf' as (_ & _ & Hn')%column_field_Some.
    assert (c' = c) as -> by (eapply field_name_unique; [done..|congruence]).
    by rewrite Hf in Hf'.
Qed.

Lemma misc_of_ext w w' cmds :
  (∀ c, c ∈ cmds → column_field w' c = column_field w c) →
  misc_of w' cmds = misc_of w cmds.
Proof.
  intros H. unfold misc_of. apply list_omap_ext, Forall2_same_length_lookup.
  split; [done|]. intros i c c' Hc Hc'. rewrite Hc in Hc'. injection Hc' as <-.
  unfold column_entry. rewrite H; [done|]. by eapply list_elem_of_lookup_2.
Qed.

Lemma payload_of_ext w w' pk cmds :
  (∀ c, c ∈ cmds → column_field w' c = column_field w c) →
  payload_of w' pk cmds = payload_of w pk cmds.
Proof.
  intros H. unfold payload_of. apply list_omap_ext, Forall2_same_length_lookup.
  split; [done|]. intros i c c' Hc Hc'. rewrite Hc in Hc'. injection Hc' as <-.
  rewrite H; [done|]. by eapply list_elem_of_lookup_2.
Qed.

Lemma misc_of_named w cmds :
  Forall (λ c, c_name c ≠ None) cmds → misc_of w cmds = [].
Proof.
  induction 1 as [|c cmds Hc _ IH]; [done|]. unfold misc_of in *.
  cbn [omap list_omap]. by destruct (c_name c).
Qed.

Lemma misc_of_unnamed w cmds :
  misc_of w (filter (λ c, c_name c = None) cmds) = misc_of w cmds.
Proof.
  induction cmds as [|c cmds IH]; [done|]. destruct (c_name c) eqn:Hn.
  - rewrite filter_cons_False by (by rewrite Hn). unfold misc_of in *.
    cbn [omap list_omap]. by rewrite Hn.
  - rewrite filter_cons_True by done. unfold misc_of in *.
    cbn [omap list_omap]. rewrite Hn. by f_equal.
Qed.

Lemma payload_of_others w pk cmds :
  Forall (λ c, is_payload_column pk c = false) cmds → payload_of w pk cmds = [].
Proof.
  induction 1 as [|c cmds Hc _ IH]; [done|]. unfold payload_of in *.
  cbn [omap list_omap]. unfold is_payload_column in Hc.
  destruct (c_name c) as [n|]; [|done].
  apply bool_decide_eq_false in Hc. apply dec_stable in Hc. by rewrite decide_True.
Qed.

Lemma payload_of_payload w pk (l : list (string * ColumnMetadata * option Field)) :
  Forall (λ x, c_name x.1.2 = Some x.1.1 ∧ (x.1.1 ∉ pk) ∧ x.2 = column_field w x.1.2) l →
  payload_of w pk ((λ x, x.1.2) <$> l) = l.
Proof.
  induction 1 as [|[[n c] f] l (Hn & Hpk & Hf) _ IH]; [done|]. cbn in Hn, Hpk, Hf.
  unfold payload_of in *. cbn [fmap list_fmap omap list_omap fst snd].
  rewrite Hn, decide_False by done. rewrite IH. by subst.
Qed.

Lemma payload_of_app w pk a b :
  payload_of w pk (a ++ b) = payload_of w pk a ++ payload_of w pk b.
Proof. apply omap_app. Qed.

Lemma misc_of_app w a b : misc_of w (a ++ b) = misc_of w a ++ misc_of w b.
Proof. apply omap_app. Qed.

(** Under the three conditions the list [ordered] comes out the same when
    the returned schema is normalised again. *)
Lemma ordered_columns_stable w pk cmds md o :
  NoDup (field_name <$> cmds) → NoDup (omap c_name cmds) → NoDup pk →
  ordered_columns pk
    (grouped {| internal :=
                  {| fields := omap snd (ordered_columns pk (grouped w pk cmds));
                     metadata := md |};
                origin := o |}
             pk (fst <$> ordered_columns pk (grouped w pk cmds))) =
  ordered_columns pk (grouped w pk cmds).
Proof.
  intros Hfn Hnames Hpk.
  pose proof (ordered_columns_perm w pk cmds Hfn Hnames Hpk) as Hperm.
  set (O := ordered_columns pk (grouped w pk cmds)) in *.
  set (cmds' := fst <$> O) in *.
  set (w' := {| internal := {| fields := omap snd O; metadata := md |}; origin := o |}).
  assert (Hfield : ∀ c, c ∈ cmds' → column_field w' c = column_field w c).
  { intros c Hc. unfold w', O. rewrite ordered_columns_fields. fold O. fold cmds'.
    apply column_field_stable; [by rewrite Hperm | done]. }
  assert (Hnames' : NoDup (omap c_name cmds')) by (by rewrite Hperm).
  unfold ordered_columns, grouped.
  cbn [cols_partition cols_payload cols_misc].
  rewrite (payload_of_ext w w' pk cmds' Hfield), (misc_of_ext w w' cmds' Hfield).
  assert (Hpart : ∀ k, partition_of w' pk cmds' ∅ !! k = partition_of w pk cmds ∅ !! k).
  { intros k. apply option_eq. intros e.
    rewrite !partition_of_unique by done. split.
    - intros (Hk & c & Hc & Hn & ->). split; [done|]. exists c.
      split; [by rewrite <- Hperm|]. split; [done|].
      unfold column_entry. by rewrite Hfield.
    - intros (Hk & c & Hc & Hn & ->). split; [done|]. exists c.
      assert (c ∈ cmds') by (by rewrite Hperm).
      split; [done|]. split; [done|]. unfold column_entry. by rewrite Hfield. }
  rewrite (list_omap_ext (λ k, partition_of w' pk cmds' ∅ !! k)
             (λ k, partition_of w pk cmds ∅ !! k) pk pk)
    by (apply Forall2_same_length_lookup; split; [done|];
        intros i k k' Hk Hk'; rewrite Hk in Hk'; injection Hk' as <-; apply Hpart).
  assert (Hcmds' : cmds' =
            (fst <$> omap (λ k, partition_of w pk cmds ∅ !! k) pk)
            ++ ((λ x : string * ColumnMetadata * option Field, x.1.2) <$>
                  sorted_by_key (λ x, x.1.1) (payload_of w pk cmds))
            ++ (fst <$> misc_of w cmds)).
  { unfold cmds', O, ordered_columns, grouped.
    cbn [cols_partition cols_payload cols_misc].
    by rewrite !fmap_app, <- !list_fmap_compose. }
  rewrite Hcmds', !payload_of_app, !misc_of_app.
  assert (Hkeys : Forall (λ c, is_partition_column pk c = true)
            (fst <$> omap (λ k, partition_of w pk cmds ∅ !! k) pk)).
  { apply Forall_forall. intros c (e & -> & He)%list_elem_of_fmap.
    apply list_elem_of_omap in He as (k & Hk & He).
    apply partition_of_unique in He as (_ & c & Hc & Hn & ->); [|done].
    cbn. unfold is_partition_column. rewrite Hn. by apply bool_decide_eq_true_2. }
  assert (Hsorted : Forall (λ x, c_name x.1.2 = Some x.1.1 ∧ (x.1.1 ∉ pk) ∧
                                 x.2 = column_field w x.1.2)
            (sorted_by_key (λ x, x.1.1) (payload_of w pk cmds))).
  { rewrite sorted_by_key_perm. apply Forall_forall. intros [[n c] f] H.
    by apply elem_of_payload_of in H as (_ & Hn & Hk & ->). }
  rewrite (payload_of_others w pk (fst <$> omap _ pk)).
  2:{ eapply Forall_impl; [exact Hkeys|]. intros c Hc.
      destruct (column_kinds pk c) as [(_ & H2 & _)|[(H1 & _)|(H1 & _)]]; try done.
      by destruct (is_payload_column pk c). }
  rewrite (payload_of_payload w pk _ Hsorted).
  rewrite (payload_of_others w pk (fst <$> misc_of w cmds)).
  2:{ rewrite misc_of_columns. apply Forall_forall. intros c [Hn _]%list_elem_of_filter.
      unfold is_payload_column. by rewrite Hn. }
  rewrite (misc_of_named w (fst <$> omap _ pk)).
  2:{ eapply Forall_impl; [exact Hkeys|]. intros c Hc.
      unfold is_partition_column in Hc. by destruct (c_name c). }
  rewrite (misc_of_named w (_ <$> sorted_by_key _ _)).
  2:{ apply Forall_fmap. eapply Forall_impl; [exact Hsorted|].
      intros x (Hn & _). cbn. by rewrite Hn. }
  rewrite misc_of_columns, misc_of_unnamed.
  rewrite app_nil_l, app_nil_r, app_nil_l.
  by rewrite (sorted_by_key_fix _ _ (sorted_by_key_sorted _ _)).
Qed.

Lemma normalize_column_order_constructed schema pk result :
  normalize_column_order schema pk = Ok result → constructed result.
Proof.
  unfold normalize_column_order. intros H.
  apply bind_Ok in H as (w & _ & H). apply bind_Ok in H as (pm0 & _ & H).
  apply bind_Ok in H as (pm & _ & H). apply bind_Ok in H as (g & _ & H).
  destruct (metadata (internal w)); [|done].
  by eapply SchemaWrapper_init_constructed.
Qed.

(** X23. Normalising the column order of a schema that was normalised with
    the same partition keys changes nothing, when the columns of the pandas
    metadata have pairwise distinct field names and pairwise distinct names
    and no partition key is given twice. *)
Theorem normalize_column_order_idempotent
    (schema : SchemaLike) (partition_keys : option (list string))
    (w result : SchemaWrapper) (pm : PandasMetadata) :
  constructed_like schema → as_wrapper schema = Ok w →
  metadata (internal w) ≫= pandas = Some pm →
  NoDup (field_name <$> columns pm) →
  NoDup (omap c_name (columns pm)) →
  NoDup (default [] partition_keys) →
  normalize_column_order schema partition_keys = Ok result →
  normalize_column_order (Wrapped result) partition_keys = Ok result.
Proof.
  intros Hlike Hw Hpm Hfn Hnames Hpk H.
  pose proof (normalize_column_order_constructed _ _ _ H) as Hres.
  pose proof (as_wrapper_constructed _ _ Hw Hlike) as Hc.
  rewrite (normalize_column_order_as_wrapper _ _ _ Hw) in H.
  destruct (metadata (internal w)) as [md|] eqn:Hmd; [|done]. cbn in Hpm.
  rewrite (normalize_column_order_eq w _ md pm Hc Hmd Hpm) in H. injection H as <-.
  erewrite normalize_column_order_eq; [|done|reflexivity|reflexivity].
  cbn [internal origin columns index_columns pandas_version].
  by rewrite (ordered_columns_stable w (default [] partition_keys) (columns pm)).
Qed.

(** ** make_meta *)

Lemma SchemaWrapper_init_recent s o w md pm :
  ARROW_LARGER_EQ_0130 = true →
  SchemaWrapper_init s o = Ok w →
  metadata s = Some md → pandas md = Some pm →
  metadata (internal w) = Some {| pandas := Some pm; other_keys := [] |} ∧
  fields (internal w) `sublist_of` fields s.
Proof.
  intros Harrow Hinit Hmd Hpm. unfold SchemaWrapper_init in Hinit.
  apply bind_Ok in Hinit as (s' & Hcompat & [= <-]). cbn [internal].
  unfold _schema_compat, _pandas_meta_from_schema in Hcompat.
  rewrite Hmd, Harrow in Hcompat. cbn in Hcompat. rewrite Hpm in Hcompat.
  cbn in Hcompat. case_decide; [done|].
  apply bind_Ok in Hcompat as ([s1 pm1] & Hloop & [= <-]).
  assert (Hkeep : ∀ cols ix s0 pm0 s1 pm1,
            compat_loop ix cols (s0, pm0) = Ok (s1, pm1) →
            pm1 = pm0 ∧ fields s1 `sublist_of` fields s0).
  { clear -Harrow. induction cols as [|col cols IH]; intros ix s0 pm0 s1 pm1 H.
    - by injection H as <- <-.
    - cbn [compat_loop] in H. apply bind_Ok in H as ([s2 pm2] & Hstep & H).
      apply IH in H as [-> Hsub]. unfold compat_step in Hstep. rewrite Harrow in Hstep.
      destruct col as [c|d]; [|by injection Hstep as <- <-].
      case_decide; [|by injection Hstep as <- <-].
      apply bind_Ok in Hstep as (s3 & Hrem & [= <- <-]).
      unfold schema_remove in Hrem. case_decide; [|done]. injection Hrem as <-.
      split; [done|]. etrans; [exact Hsub|]. cbn. apply sublist_delete. }
  apply Hkeep in Hloop as [-> Hsub]. by split.
Qed.

Lemma dict_set_keys d k v : NoDup d.*1 → NoDup (dict_set d k v).*1.
Proof. clear_env.
  induction d as [|[k' v'] d IH]; intros Hnd; cbn [dict_set].
  { cbn. apply NoDup_singleton. }
  cbn in Hnd. apply NoDup_cons in Hnd as [Hk' Hnd]. case_decide as Hk.
  - subst. cbn. by apply NoDup_cons.
  - cbn. apply NoDup_cons. split; [|by apply IH].
    intros ([k2 v2] & Heq & Hin)%list_elem_of_fmap. cbn in Heq. subst k2.
    apply Hk'. apply list_elem_of_fmap.
    assert (Hsub : ∀ d0 x, x ∈ dict_set d0 k v → x = (k, v) ∨ x ∈ d0).
    { clear. induction d0 as [|[k0 v0] d0 IH0]; intros x Hx; cbn [dict_set] in Hx.
      - apply list_elem_of_singleton in Hx. by left.
      - case_decide.
        + apply elem_of_cons in Hx as [->|Hx]; [by left | right; by right].
        + apply elem_of_cons in Hx as [->|Hx]; [right; by left|].
          apply IH0 in Hx as [->|Hx]; [by left | right; by right]. }
    apply Hsub in Hin as [[= -> ->]|Hin]; [done|]. by exists (k', v2).
Qed.

Lemma dict_set_elem d k v : (k, v) ∈ dict_set d k v.
Proof. clear_env.
  induction d as [|[k' v'] d IH]; cbn [dict_set]; [by left|].
  case_decide; [by left | by right].
Qed.

Lemma dict_set_other d k v k' v' :
  k' ≠ k → (k', v') ∈ d → (k', v') ∈ dict_set d k v.
Proof. clear_env.
  intros Hne. induction d as [|[k0 v0] d IH]; intros Hin; [by apply elem_of_nil in Hin|].
  cbn [dict_set]. apply elem_of_cons in Hin as [[= <- <-]|Hin].
  - rewrite decide_False by done. by left.
  - case_decide; [right; done | right; by apply IH].
Qed.

Lemma fields_dict_keys s : NoDup (fields_dict s).*1.
Proof. clear_env.
  unfold fields_dict. generalize (fields s). intros fs.
  assert (∀ d, NoDup d.*1 → NoDup (foldl (λ d f, dict_set d (name f) (type f)) d fs).*1)
    as H.
  { induction fs as [|f fs IH]; intros d Hd; [done|]. cbn. by apply IH, dict_set_keys. }
  apply H. constructor.
Qed.

(** What the loop over the columns has established. *)
Definition types_normalized (st : list (string * DataType) * list ColumnMetadata)
    : Prop :=
  NoDup st.1.*1 ∧
  ∀ c, c ∈ st.2 → c_name c ≠ None →
    ∃ t, (field_name c, t) ∈ st.1 ∧ normalized t = true.

Lemma normalize_column_normalized schema st cmd st' :
  normalize_column schema st cmd = Ok st' →
  types_normalized st → types_normalized st'.
Proof.
  destruct st as [d out]. unfold normalize_column. intros H [Hkeys Hout].
  destruct (c_name cmd) as [n|] eqn:Hn.
  - apply bind_Ok in H as (f & _ & H).
    apply bind_Ok in H as ([[[t pd] np] md] & Hnorm & [= <-]).
    apply normalize_type_normal in Hnorm.
    split; cbn [fst snd]; [by apply dict_set_keys|].
    intros c [Hc|Hc%list_elem_of_singleton]%elem_of_app Hnamed.
    + destruct (Hout c Hc Hnamed) as (t0 & Hin & Ht0).
      destruct (decide (field_name c = field_name cmd)) as [->|Hne].
      * exists t. split; [apply dict_set_elem | done].
      * exists t0. split; [by apply dict_set_other | done].
    + subst c. cbn. exists t. split; [apply dict_set_elem | done].
  - injection H as <-. split; [done|]. cbn [fst snd].
    intros c [Hc|Hc%list_elem_of_singleton]%elem_of_app Hnamed; [by apply Hout|].
    subst c. by rewrite Hn in Hnamed.
Qed.

Lemma normalize_columns_normalized schema cmds st st' :
  normalize_columns schema cmds st = Ok st' →
  types_normalized st → types_normalized st'.
Proof.
  revert st. induction cmds as [|cmd cmds IH]; intros st H Hst.
  - by injection H as <-.
  - cbn [normalize_columns] in H. apply bind_Ok in H as (st1 & Hstep & H).
    eauto using normalize_column_normalized.
Qed.

(** X24. With pyarrow >= 0.13, in the schema that [make_meta] returns for a
    frame, every field that a named column of the pandas metadata refers to
    has a normalised type and is nullable. *)
Theorem make_meta_normalized
    (df : DataFrame) (origin : string) (partition_keys : option (list string))
    (result : SchemaWrapper) (pm' : PandasMetadata) :
  ARROW_LARGER_EQ_0130 = true →
  make_meta (MetaFrame df) origin partition_keys = Meta (Ok result) →
  metadata (internal result) ≫= pandas = Some pm' →
  ∀ f cmd, f ∈ fields (internal result) → cmd ∈ columns pm' →
    c_name cmd ≠ None → field_name cmd = name f →
    normalized (type f) = true ∧ nullable f = true.
Proof.
  intros Harrow H Hpm' f cmd Hf Hcmd Hnamed Hname.
  unfold make_meta in H. injection H as H.
  apply bind_Ok in H as (schema & _ & H). apply bind_Ok in H as (pm0 & _ & H).
  apply bind_Ok in H as (pm & _ & H).
  apply bind_Ok in H as ([d cmds] & Hloop & H).
  destruct (metadata schema) as [md|]; [|done].
  apply bind_Ok in H as (w & Hinit & H).
  apply normalize_columns_normalized in Hloop as [Hkeys Hcols].
  2:{ split; [apply fields_dict_keys|]. by intros c ?%elem_of_nil. }
  cbn [fst snd] in Hkeys, Hcols.
  pose proof (SchemaWrapper_init_constructed _ _ _ Hinit) as Hc.
  destruct (SchemaWrapper_init_recent _ _ _ _ _ Harrow Hinit eq_refl eq_refl)
    as [Hmeta Hsub].
  cbn [fields] in Hsub.
  rewrite (normalize_column_order_eq w partition_keys _ _ Hc Hmeta eq_refl) in H.
  injection H as <-. cbn in Hpm'. injection Hpm' as <-.
  cbn [internal fields columns] in Hf, Hcmd.
  apply list_elem_of_omap in Hf as (e & He & Hsnd).
  apply ordered_columns_entries in He as (c0 & _ & ->). cbn in Hsnd.
  apply column_field_Some in Hsnd as (_ & Hfw & _).
  apply list_elem_of_fmap in Hcmd as (e & -> & He).
  apply ordered_columns_entries in He as (c1 & Hc1 & ->). cbn in Hnamed, Hname.
  cbn [columns] in Hc1.
  assert (f ∈ (λ p : string * DataType, field p.1 p.2) <$> d) as Hfd.
  { by eapply elem_of_sublist. }
  apply list_elem_of_fmap in Hfd as ([n t] & -> & Hnt). cbn in Hname |- *.
  split; [|done].
  destruct (Hcols c1 Hc1 Hnamed) as (t1 & Hin1 & Ht1).
  rewrite Hname in Hin1.
  assert (t = t1) as ->; [|done].
  clear -Hkeys Hnt Hin1.
  apply list_elem_of_lookup in Hnt as [i Hi]. apply list_elem_of_lookup in Hin1 as [j Hj].
  assert (i = j) as ->.
  { eapply NoDup_lookup; [exact Hkeys | |].
    - by rewrite list_lookup_fmap, Hi.
    - by rewrite list_lookup_fmap, Hj. }
  congruence.
Qed.

(** ** The exceptions of the resolver *)

(** The exceptions that can come out of [_determine_schemas_to_compare]. *)
Definition resolver_error (e : Exn) : bool :=
  match e with
  | ValueError PandasNonPandas => true
  | TypeError | KeyError | NotImplementedError | ArrowInvalid
  | AttributeError => true
  | _ => false
  end.

Lemma SchemaWrapper_init_error s o e :
  SchemaWrapper_init s o = Raise e → resolver_error e = true.
Proof.
  unfold SchemaWrapper_init, _schema_compat, _pandas_meta_from_schema. intros H.
  apply bind_Raise in H as [H|(? & _ & [=])].
  destruct (metadata s) as [md|]; [|done].
  apply bind_Raise in H as [H|(pm0 & _ & H)].
  { revert H. destruct ARROW_LARGER_EQ_0130; cbn beta iota; [by intros [=]|].
    destruct (pandas md); intros H; by simplify_eq. }
  apply bind_Raise in H as [H|(pm & _ & H)].
  { destruct pm0; cbn in H; by simplify_eq. }
  case_decide; [by simplify_eq|].
  apply bind_Raise in H as [H|([s1 pm1] & _ & [=])].
  by apply compat_loop_raise in H as ->.
Qed.

Lemma heal_loop_error cols cur ref nr e :
  heal_loop cols cur ref nr = Raise e → resolver_error e = true.
Proof.
  revert ref nr. induction cols as [|col cols IH]; intros ref nr H; [done|].
  cbn [heal_loop] in H. apply bind_Raise in H as [H|(r1 & _ & H)].
  - unfold _swap_fields_by_name, set in H.
    apply bind_Raise in H as [H|(s & _ & H)]; [|by eapply SchemaWrapper_init_error].
    rewrite schema_set_by_name in H. destruct (field_by_name _ _); [|by simplify_eq].
    case_decide; by simplify_eq.
  - apply bind_Raise in H as [H|(nr1 & _ & H)]; [|by eapply IH].
    unfold set_remove in H. case_decide; by simplify_eq.
Qed.

Lemma resolver_step_error has_pandas st schema e :
  resolver_step has_pandas st schema = Raise e → resolver_error e = true.
Proof.
  unfold resolver_step. intros H.
  apply bind_Raise in H as [H|(w & _ & H)].
  { destruct schema; [done|]. by eapply SchemaWrapper_init_error. }
  apply bind_Raise in H as [H|(current & _ & H)].
  { unfold current_schema in H. destruct has_pandas; [|done].
    destruct (metadata (internal w)) as [md|]; [|by simplify_eq].
    destruct (pandas md); [|by simplify_eq]. by eapply SchemaWrapper_init_error. }
  simpl in H. destruct (reference st); [|done].
  repeat case_decide; try done;
    (apply bind_Raise in H as [H|([r' nr'] & _ & [=])]; by eapply heal_loop_error).
Qed.

Lemma resolver_loop_error has_pandas schemas st e :
  resolver_loop has_pandas schemas st = Raise e → resolver_error e = true.
Proof.
  revert st. induction schemas as [|schema rest IH]; intros st H; [done|].
  cbn [resolver_loop] in H. apply bind_Raise in H as [H|(st1 & _ & H)].
  - by eapply resolver_step_error.
  - by eapply IH.
Qed.

(** X25. [_determine_schemas_to_compare] raises nothing but the error for
    mixing schemas with and without pandas metadata, the errors of the
    wrapper's constructor ([TypeError], [KeyError], [NotImplementedError],
    [ArrowInvalid]) and of pyarrow's [set] ([AttributeError] for a missing
    field, [ArrowInvalid] for an index out of range), and the [KeyError] of
    a set's [remove]; the assertion at its end never fails. *)
Theorem resolver_raises_only
    (schemas : list SchemaLike) (ignore_pandas : bool) (e : Exn) :
  _determine_schemas_to_compare schemas ignore_pandas = Raise e →
  resolver_error e = true.
Proof using Type*.
  unfold _determine_schemas_to_compare. intros H.
  apply bind_Raise in H as [H|(st & Hloop & H)]; [by eapply resolver_loop_error|].
  exfalso.
  pose proof (resolver_loop_inv _ _ _ _ Hloop resolver_inv_init) as (_ & _ & Hnone).
  destruct (reference st) as [r|].
  - by rewrite bool_decide_eq_true_2 in H by (by eexists).
  - rewrite (Hnone eq_refl) in H. by rewrite orb_true_r in H.
Qed.

(** ** The order of strings *)

Lemma string_compare_le_trans (a b c : string) :
  String.compare a b ≠ Gt → String.compare b c ≠ Gt → String.compare a c ≠ Gt.
Proof. clear_env.
  revert b c. induction a as [|x a IH]; intros [|y b] [|z c]; cbn; try done.
  unfold Ascii.compare.
  destruct (N.compare_spec (Ascii.N_of_ascii x) (Ascii.N_of_ascii y)) as [Hxy|Hxy|Hxy];
    destruct (N.compare_spec (Ascii.N_of_ascii y) (Ascii.N_of_ascii z)) as [Hyz|Hyz|Hyz];
    destruct (N.compare_spec (Ascii.N_of_ascii x) (Ascii.N_of_ascii z)) as [Hxz|Hxz|Hxz];
    try done; try lia.
  apply IH.
Qed.

#[local] Instance str_le_trans : Transitive str_le.
Proof.
  intros a b c. unfold str_le, String.leb. intros Hab Hbc.
  pose proof (string_compare_le_trans a b c) as H.
  destruct (String.compare a b), (String.compare b c), (String.compare a c);
    try done; by destruct H.
Qed.

#[local] Instance str_le_total_rel : Total str_le.
Proof. intros a b. apply str_le_total. Qed.

#[local] Instance str_le_antisym : AntiSymm eq str_le.
Proof.
  intros a b Hab Hba. apply String.leb_antisym; by apply Is_true_eq_true.
Qed.

(** [sorted] depends on the elements of the list only. *)
Lemma sorted_permutation (l1 l2 : list string) :
  l1 ≡ₚ l2 → sorted l1 = sorted l2.
Proof.
  intros H. unfold sorted. apply (StronglySorted_unique str_le).
  - apply StronglySorted_merge_sort; apply _.
  - apply StronglySorted_merge_sort; apply _.
  - by rewrite !merge_sort_Permutation.
Qed.

End Kartothek.

(** * The order in which sets are visited *)

(** X26. The origin part of the error message does not depend on the order
    in which a set of origin labels is visited: any two orders give the same
    string. *)
Theorem _fmt_origin_order_irrelevant
    (iter1 iter2 : gset string → list string) (origin : gset string) :
  (∀ s, iter1 s ≡ₚ elements s) → (∀ s, iter2 s ≡ₚ elements s) →
  _fmt_origin iter1 origin = _fmt_origin iter2 origin.
Proof.
  intros H1 H2. unfold _fmt_origin.
  by rewrite (sorted_permutation (iter1 origin) (iter2 origin)) by (by rewrite H1, H2).
Qed.

(** * Instances *)

(** The functions in an environment with a recent pyarrow and the
    renderers above. *)
Abbreviation compatible :=
  (validate_compatible true "0.25.3" elements example_repr example_pformat
     example_diff example_splitlines).
Abbreviation resolve := (_determine_schemas_to_compare true "0.25.3" elements).


Lemma resolver_reference_nulls_subset_example :
  resolve [Wrapped schema_x; Wrapped schema_y; Wrapped schema_z] false =
    Ok (Some schema_x_healed, [(schema_y, {["y"]}); (schema_z, ∅)]) ∧
  null_columns_of schema_x_healed ⊆ ({["y"]} : gset string).
Proof.
  assert (H : resolve [Wrapped schema_x; Wrapped schema_y; Wrapped schema_z] false =
    Ok (Some schema_x_healed, [(schema_y, {["y"]}); (schema_z, ∅)]))
    by (vm_compute; reflexivity).
  split; [exact H|].
  apply (resolver_reference_nulls_subset true "0.25.3" elements
           (λ _, Permutation_refl _) _ _ _ _ H schema_y).
  apply list_elem_of_here.
Defined.

Lemma resolver_result_shape_example :
  (is_Some (Some schema_x_healed) ∧
   length [(schema_y, ({["y"]} : gset string)); (schema_z, ∅)] = 2%nat) ∧
  (∀ schema ignore,
     raises_schema_violation (compatible [schema] ignore).1 = false).
Proof.
  apply (resolver_result_shape true "0.25.3" elements example_repr example_pformat
           example_diff example_splitlines
           [Wrapped schema_x; Wrapped schema_y; Wrapped schema_z] false).
  - discriminate.
  - vm_compute; reflexivity.
Defined.

Lemma normalize_type_idempotent_example :
  normalize_type true (list_ (list_ uint64)) (Some "list[list[uint64]]")
                 (Some "object") None =
    Ok (list_ (list_ uint64), Some "list[list[uint64]]", Some "object", None).
Proof.
  apply (normalize_type_idempotent true (list_ (list_ uint8))
           (Some "list[list[uint8]]") (Some "object") None).
  vm_compute; reflexivity.
Defined.







(** A stored microsecond timestamp with a time zone is read as it is
    stored: [_bytes2schema] compares with [timestamp("us")], which has no
    time zone. *)
Lemma timestamp_with_tz_read_as_stored :
  fields (_bytes2schema
            {| stored_fields := [field "ts" (timestamp unit_us (Some "UTC"))];
               stored_metadata := None |}) =
    [field "ts" (timestamp unit_us (Some "UTC"))].
Proof. reflexivity. Qed.

Lemma strip_refused_returns_original_example :
  ∃ n, n ∈ ["y"; "missing"] ∧
       _strip_columns_from_schema true schema_z ["y"; "missing"] =
         (Ok schema_z, [Warning_unexpected_field n schema_z]).
Proof.
  apply (strip_refused_returns_original true schema_z ["y"; "missing"]).
  - vm_compute; reflexivity.
  - exists "missing". split; [by right; left|].
    vm_compute. intros H. repeat (apply elem_of_cons in H as [[=]|H]).
    by apply elem_of_nil in H.
Defined.

Lemma validate_compatible_origin_example :
  ((compare_loop true elements example_repr example_pformat example_diff example_splitlines
      (Some schema_x_healed) [(schema_y, {["y"]}); (schema_z, ∅)]).1 = Ok tt →
   (compatible [Wrapped schema_x; Wrapped schema_y; Wrapped schema_z] false).1 =
     Ok (Some {| internal := internal schema_x_healed;
                 origin := origin schema_x_healed ∪
                           ⋃ (origin ∘ fst <$> [(schema_y, ({["y"]} : gset string));
                                                 (schema_z, ∅)]) |})) ∧
  (∀ os or d r,
     (compatible [Wrapped schema_x; Wrapped schema_y; Wrapped schema_z] false).1 =
       Raise (ValueError (SchemaViolation os or d r)) →
     ∃ c nc, (c, nc) ∈ [(schema_y, ({["y"]} : gset string)); (schema_z, ∅)] ∧
             os = _fmt_origin elements (origin c) ∧
             or = _fmt_origin elements (origin schema_x_healed)).
Proof.
  apply (validate_compatible_origin true "0.25.3" elements example_repr example_pformat
           example_diff example_splitlines
           [Wrapped schema_x; Wrapped schema_y; Wrapped schema_z] false).
  - repeat constructor; vm_compute; reflexivity.
  - vm_compute; reflexivity.
Defined.

Lemma mixed_descriptor_error_example :
  (compatible [Wrapped pandas_a; Wrapped arrow_c] false).1 =
    Raise (ValueError PandasNonPandas) ∧
  validate_shared_columns [Wrapped pandas_a; Wrapped arrow_c] false =
    Raise (ValueError PandasNonPandas) ∧
  is_raise (compatible [Wrapped pandas_a; Wrapped arrow_c] false).1 = true ∧
  is_raise (validate_shared_columns [Wrapped pandas_a; Wrapped arrow_c] false) = true.
Proof.
  destruct (mixed_descriptor_error true "0.25.3" elements example_repr example_pformat
              example_diff example_splitlines [Wrapped pandas_a; Wrapped arrow_c]
              eq_refl) as (Hcompatible & Hshared & Hboth).
  split; [|split].
  - apply Hcompatible. exists [Wrapped pandas_a], (Wrapped arrow_c), [].
    repeat split; vm_compute; reflexivity.
  - apply Hshared. exists [Wrapped pandas_a], (Wrapped arrow_c), [].
    repeat split; vm_compute; reflexivity.
  - apply Hboth. exists (Wrapped arrow_c). split; [by right; left | reflexivity].
Defined.

(** C8, as stated, fails.  The third schema of the first list has no pandas
    metadata, but the first two disagree on column [x] and
    [validate_shared_columns] raises for that before it reaches the third.
    The second schema of the second list has no pandas metadata either, but
    it is not a wrapper and has other metadata, so [validate_compatible]
    wraps it first, and the wrapper's constructor raises a [TypeError] when
    it subscripts the pandas metadata it has not found. *)
Lemma mixed_descriptor_error_preempted :
  (_pandas_in_schemas [Wrapped pandas_a; Wrapped pandas_b; Wrapped arrow_c] = true ∧
   has_pandas_key (pa_schema (Wrapped arrow_c)) = false ∧
   validate_shared_columns [Wrapped pandas_a; Wrapped pandas_b; Wrapped arrow_c] false =
     Raise (ValueError (IncompatibleEntries "x" (field "x" int64, "x")
                                                (field "x" string_, "x")))) ∧
  (_pandas_in_schemas [Wrapped pandas_a; Bare bare_foo] = true ∧
   has_pandas_key (pa_schema (Bare bare_foo)) = false ∧
   (compatible [Wrapped pandas_a; Bare bare_foo] false).1 = Raise TypeError).
Proof. repeat split; vm_compute; reflexivity. Qed.

(** C2, as stated, fails: the same three schemas pass in one order and are
    rejected in another. *)
Lemma order_changes_outcome :
  [Wrapped schema_y; Wrapped schema_x; Wrapped schema_z] ≡ₚ
    [Wrapped schema_x; Wrapped schema_y; Wrapped schema_z] ∧
  is_raise (compatible [Wrapped schema_x; Wrapped schema_y; Wrapped schema_z] false).1
    = false ∧
  is_raise (compatible [Wrapped schema_y; Wrapped schema_x; Wrapped schema_z] false).1
    = true.
Proof.
  split; [apply Permutation_swap|]. split; vm_compute; reflexivity.
Qed.

(** C3. The index [idx] is a field of neither wrapper, yet it is looked up
    in both, [schema[-1]] is taken for it, and the call raises for column
    [idx]. *)
Theorem shared_columns_absent_column_not_skipped :
  ∃ w1 w2,
    SchemaWrapper_init true frame_1 {["t1"]} = Ok w1 ∧
    SchemaWrapper_init true frame_2 {["t2"]} = Ok w2 ∧
    names (internal w1) = ["a"] ∧
    names (internal w2) = ["b"] ∧
    validate_shared_columns [Wrapped w1; Wrapped w2] false =
      Raise (ValueError (IncompatibleEntries "idx" (field "a" int64, "idx")
                                                   (field "b" string_, "idx"))).
Proof.
  eexists _, _. split; [vm_compute; reflexivity|].
  split; [vm_compute; reflexivity|].
  repeat split; vm_compute; reflexivity.
Qed.

Lemma validate_compatible_order_independent_example :
  is_raise (compatible (Wrapped <$> [columns_a; columns_b; columns_c]) false).1 =
  is_raise (compatible (Wrapped <$> [columns_b; columns_a; columns_c]) false).1.
Proof.
  apply (validate_compatible_order_independent true "0.25.3" elements
           (λ _, Permutation_refl _) example_repr
           example_pformat example_diff example_splitlines ["x"; "y"]).
  - apply (bool_decide_unpack _). vm_compute. exact I.
  - repeat constructor; vm_compute; reflexivity.
  - apply Permutation_swap.
Defined.

(** ** Instances of the further properties *)

Lemma normalize_type_normalized_example : normalized (list_ uint64) = true.
Proof.
  apply (normalize_type_normalized true (list_ uint8) (Some "list[uint8]")
           (Some "object") None (list_ uint64) (Some "list[uint64]")
           (Some "object") None).
  vm_compute; reflexivity.
Defined.

Lemma normalize_type_returns_example :
  ∃ t' pd' np' md',
    normalize_type true (list_ int8) (Some "list[int8]") None None =
      Ok (t', Some pd', np', md').
Proof. apply (normalize_type_returns true (list_ int8) "list[int8]" None None). reflexivity. Defined.

Lemma SchemaWrapper_init_index_removed_example :
  get_field_index (internal wrapped_frame_1) "idx" < 0 ∧
  fields (internal wrapped_frame_1) `sublist_of` fields frame_1 ∧
  metadata (internal wrapped_frame_1) =
    Some {| pandas := Some {| index_columns := [IndexName "idx"];
                              columns := [pandas_column "a" "int64";
                                          pandas_column "idx" "int64"];
                              pandas_version := "0.25.3" |};
            other_keys := [] |}.
Proof.
  eapply (SchemaWrapper_init_index_removed true frame_1 {["t1"]} wrapped_frame_1).
  - reflexivity.
  - vm_compute; reflexivity.
  - reflexivity.
  - reflexivity.
  - by left.
Defined.

Lemma with_origin_only_origin_example :
  with_origin true wrapped_frame_1 {["other"]} =
    Ok {| internal := internal wrapped_frame_1; origin := {["other"]} |}.
Proof.
  apply (with_origin_only_origin true frame_1 {["t1"]} {["other"]} wrapped_frame_1).
  vm_compute; reflexivity.
Defined.

Lemma _strip_columns_from_schema_listed_example :
  _strip_columns_from_schema true schema_z ["y"] =
    (Ok {| internal :=
             {| fields := filter (λ f, name f ∉ ["y"]) (fields (internal schema_z));
                metadata := metadata (internal schema_z) |};
           origin := origin schema_z |}, []).
Proof.
  apply (_strip_columns_from_schema_listed true schema_z ["y"]).
  - vm_compute; reflexivity.
  - apply (bool_decide_unpack _). vm_compute. exact I.
  - apply (bool_decide_unpack _). vm_compute. exact I.
  - intros n ->%list_elem_of_singleton. by right; left.
Defined.

Lemma _swap_fields_by_name_spec_example :
  (is_raise (_swap_fields_by_name true schema_x schema_z "x") = false ↔
   is_Some (field_by_name (internal schema_z) "x") ∧
   get_field_index (internal schema_x) "x" >= 0) ∧
  ∀ r', _swap_fields_by_name true schema_x schema_z "x" = Ok r' →
    ∃ fc, field_by_name (internal schema_z) "x" = Some fc ∧
          fields (internal r') =
            <[Z.to_nat (get_field_index (internal schema_x) "x") := fc]>
              (fields (internal schema_x)) ∧
          names (internal r') = names (internal schema_x) ∧
          metadata (internal r') = metadata (internal schema_x) ∧
          origin r' = origin schema_x.
Proof.
  apply (_swap_fields_by_name_spec true schema_x schema_z "x").
  vm_compute; reflexivity.
Defined.

Lemma reference_has_least_nulls_example :
  ∃ c, compared_as true "0.25.3"
         (_pandas_in_schemas [Wrapped schema_x; Wrapped schema_y; Wrapped schema_z]
          && negb false) (Wrapped schema_y) = Ok c ∧
       null_columns_of schema_x_healed ⊆ null_columns_of c ∧
       ∀ result,
         (compatible [Wrapped schema_x; Wrapped schema_y; Wrapped schema_z] false).1 =
           Ok (Some result) →
         null_columns_of result ⊆ null_columns_of c.
Proof.
  apply (reference_has_least_nulls true "0.25.3" elements (λ _, Permutation_refl _)
           example_repr example_pformat example_diff example_splitlines
           [Wrapped schema_x; Wrapped schema_y; Wrapped schema_z] false
           schema_x_healed [(schema_y, {["y"]}); (schema_z, ∅)]).
  - vm_compute; reflexivity.
  - by right; left.
Defined.

Lemma resolver_without_nulls_example :
  resolve [Wrapped schema_z; Wrapped columns_c; Wrapped arrow_c] false =
    Ok (head [schema_z; columns_c; arrow_c],
        (λ c, (c, ∅)) <$> tail [schema_z; columns_c; arrow_c]).
Proof.
  apply (resolver_without_nulls true "0.25.3" elements
           [Wrapped schema_z; Wrapped columns_c; Wrapped arrow_c] false
           [schema_z; columns_c; arrow_c]).
  - repeat constructor; done.
  - repeat constructor; vm_compute; reflexivity.
Defined.

Lemma validate_compatible_without_nulls_example :
  (is_raise (compatible [Wrapped schema_z; Wrapped columns_c; Wrapped arrow_c] false).1
     = false ↔
   ∀ a b, a ∈ [schema_z; columns_c; arrow_c] → b ∈ [schema_z; columns_c; arrow_c] →
          fields (internal a) = fields (internal b)) ∧
  (compatible [Wrapped schema_z; Wrapped columns_c; Wrapped arrow_c] false).2 = [].
Proof.
  apply (validate_compatible_without_nulls true "0.25.3" elements
           (λ _, Permutation_refl _)
           example_repr example_pformat example_diff example_splitlines
           [Wrapped schema_z; Wrapped columns_c; Wrapped arrow_c] false
           [schema_z; columns_c; arrow_c]).
  - repeat constructor; done.
  - repeat constructor; vm_compute; reflexivity.
  - repeat constructor; vm_compute; reflexivity.
Defined.

Lemma validate_compatible_pandas_version_example :
  ∃ md pm, metadata (internal {| internal := internal pandas_a;
                                 origin := {["old"]} |}) = Some md ∧
           pandas md = Some pm ∧ pandas_version pm = "0.25.3".
Proof.
  apply (validate_compatible_pandas_version true "0.25.3" elements
           example_repr example_pformat example_diff example_splitlines
           [Wrapped pandas_old]).
  - reflexivity.
  - vm_compute; reflexivity.
Defined.

Lemma validate_compatible_consistent_example :
  is_raise (compatible (Wrapped <$> [columns_a; columns_b; columns_c]) false).1 = true ↔
  (_pandas_in_schemas (Wrapped <$> [columns_a; columns_b; columns_c]) && negb false
     = true ∧
   ∃ w, w ∈ [columns_a; columns_b; columns_c] ∧ has_pandas_key (internal w) = false) ∨
  ¬ consistent [columns_a; columns_b; columns_c].
Proof.
  apply (validate_compatible_consistent true "0.25.3" elements
           (λ _, Permutation_refl _)
           example_repr example_pformat example_diff example_splitlines ["x"; "y"]).
  - apply (bool_decide_unpack _). vm_compute. exact I.
  - repeat constructor; vm_compute; reflexivity.
Defined.

Lemma validate_shared_columns_spec_example :
  validate_shared_columns [Wrapped schema_z; Wrapped arrow_c] false = Ok tt ↔
  ∀ a b col fa fb,
    a ∈ [Wrapped schema_z; Wrapped arrow_c] → b ∈ [Wrapped schema_z; Wrapped arrow_c] →
    recorded_field (_pandas_in_schemas [Wrapped schema_z; Wrapped arrow_c] && negb false)
                   (pa_schema a) col = Some fa →
    recorded_field (_pandas_in_schemas [Wrapped schema_z; Wrapped arrow_c] && negb false)
                   (pa_schema b) col = Some fb →
    fa = fb.
Proof.
  apply (validate_shared_columns_spec [Wrapped schema_z; Wrapped arrow_c] false).
  repeat constructor.
  - exists ["x"; "y"]. split; [reflexivity|].
    intros col Hcol. repeat (apply elem_of_cons in Hcol as [->|Hcol]);
      [by vm_compute | by vm_compute | by apply elem_of_nil in Hcol].
  - exists ["x"]. split; [reflexivity|].
    intros col Hcol. repeat (apply elem_of_cons in Hcol as [->|Hcol]);
      [by vm_compute | by apply elem_of_nil in Hcol].
Defined.

Lemma _get_common_metadata_key_inj_example : "ds" = "ds" ∧ "t" = "t".
Proof.
  apply (_get_common_metadata_key_inj "_common_metadata" "ds" "ds" "t" "t");
    reflexivity.
Defined.

Lemma normalize_column_order_needs_pandas_example :
  is_raise (normalize_column_order true (Wrapped arrow_c) (Some ["x"])) = true.
Proof.
  apply (normalize_column_order_needs_pandas true (Wrapped arrow_c) (Some ["x"])).
  reflexivity.
Defined.

Lemma normalize_column_order_fields_example :
  origin table_pab = origin table_bap ∧
  ∃ pm', metadata (internal table_pab) ≫= pandas = Some pm' ∧
         index_columns pm' = [] ∧
         pandas_version pm' = "0.25.3" ∧
         (∀ c, c ∈ columns pm' →
               c ∈ [pandas_column "b" "int64"; pandas_column "a" "int64";
                    pandas_column "p" "unicode"]) ∧
         fields (internal table_pab) = omap (column_field table_bap) (columns pm').
Proof.
  apply (normalize_column_order_fields true (Wrapped table_bap) (Some ["p"])
           table_bap table_pab
           {| index_columns := [];
              columns := [pandas_column "b" "int64"; pandas_column "a" "int64";
                          pandas_column "p" "unicode"];
              pandas_version := "0.25.3" |}).
  - vm_compute; reflexivity.
  - reflexivity.
  - reflexivity.
  - vm_compute; reflexivity.
Defined.

Lemma normalize_column_order_sorted_example :
  ∃ P Q M,
    [pandas_column "p" "unicode"; pandas_column "a" "int64"; pandas_column "b" "int64"]
      = P ++ Q ++ M ∧
    Forall2 (λ k c, c_name c = Some k ∧
                    c ∈ [pandas_column "b" "int64"; pandas_column "a" "int64";
                         pandas_column "p" "unicode"])
            (filter (λ k, Some k ∈ c_name <$> [pandas_column "b" "int64";
                                               pandas_column "a" "int64";
                                               pandas_column "p" "unicode"])
                    (default [] (Some ["p"])))
            P ∧
    Q ≡ₚ filter (λ c, is_payload_column (default [] (Some ["p"])) c = true)
           [pandas_column "b" "int64"; pandas_column "a" "int64";
            pandas_column "p" "unicode"] ∧
    Sorted (λ a b, str_le (column_name a) (column_name b)) Q ∧
    M = filter (λ c, c_name c = None)
          [pandas_column "b" "int64"; pandas_column "a" "int64";
           pandas_column "p" "unicode"].
Proof.
  apply (normalize_column_order_sorted true (Wrapped table_bap) (Some ["p"])
           table_bap table_pab
           {| index_columns := [];
              columns := [pandas_column "b" "int64"; pandas_column "a" "int64";
                          pandas_column "p" "unicode"];
              pandas_version := "0.25.3" |}
           {| index_columns := [];
              columns := [pandas_column "p" "unicode"; pandas_column "a" "int64";
                          pandas_column "b" "int64"];
              pandas_version := "0.25.3" |}).
  - vm_compute; reflexivity.
  - reflexivity.
  - reflexivity.
  - vm_compute; reflexivity.
  - reflexivity.
Defined.

Lemma normalize_column_order_idempotent_example :
  normalize_column_order true (Wrapped table_pab) (Some ["p"]) = Ok table_pab.
Proof.
  apply (normalize_column_order_idempotent true (Wrapped table_bap) (Some ["p"])
           table_bap table_pab
           {| index_columns := [];
              columns := [pandas_column "b" "int64"; pandas_column "a" "int64";
                          pandas_column "p" "unicode"];
              pandas_version := "0.25.3" |}).
  - vm_compute; reflexivity.
  - reflexivity.
  - reflexivity.
  - apply (bool_decide_unpack _). vm_compute. exact I.
  - apply (bool_decide_unpack _). vm_compute. exact I.
  - apply (bool_decide_unpack _). vm_compute. exact I.
  - vm_compute; reflexivity.
Defined.

Lemma make_meta_normalized_example :
  normalized (type (field "v" int64)) = true ∧ nullable (field "v" int64) = true.
Proof.
  assert (Hmake : make_meta true true Schema Ok Ok (MetaFrame Schema frame_narrow)
                    "frame" None = Meta (Ok meta_narrow))
    by (vm_compute; reflexivity).
  apply (make_meta_normalized true true Schema Ok Ok frame_narrow "frame" None
           meta_narrow
           {| index_columns := [];
              columns :=
                [ {| c_name := Some "d"; field_name := "d"; pandas_type := Some "int8";
                     numpy_type := Some "int8"; c_metadata := None |};
                  {| c_name := Some "v"; field_name := "v"; pandas_type := Some "int64";
                     numpy_type := Some "int64"; c_metadata := None |} ];
              pandas_version := "0.25.3" |}
           eq_refl Hmake eq_refl
           (field "v" int64)
           {| c_name := Some "v"; field_name := "v"; pandas_type := Some "int64";
              numpy_type := Some "int64"; c_metadata := None |}).
  - by right; left.
  - by right; left.
  - done.
  - reflexivity.
Defined.

Lemma resolver_raises_only_example :
  resolver_error (ValueError PandasNonPandas) = true.
Proof.
  apply (resolver_raises_only true "0.25.3" elements (λ _, Permutation_refl _)
           [Wrapped pandas_a; Wrapped arrow_c] false).
  vm_compute; reflexivity.
Defined.

Lemma _fmt_origin_order_irrelevant_example :
  _fmt_origin elements {["b"; "a"]} =
  _fmt_origin (λ s, reverse (elements s)) {["b"; "a"]}.
Proof.
  apply (_fmt_origin_order_irrelevant elements (λ s, reverse (elements s))).
  - done.
  - intros s. apply reverse_Permutation.
Defined.
